(** * Damai ticket runner: a shallow embedding of [damai_appium/runner.py]

    The runner drives a remote automation driver through a fixed sequence
    of UI steps, inside a bounded retry loop, and records a run report.
    The Python code is embedded as functions in a state-and-exception
    monad.  Everything outside the runner (the wall clock, the stop-signal
    predicate, the logger sink and the Appium driver) is an oracle recorded
    in [Env]: the k-th call of a collaborator is answered by the oracle at
    index k, so every behaviour of a collaborator is covered by some
    [Env].  The date parser of the standard library is a function of the
    text, [None] standing for its [ValueError].

    Conventions.
    - Time values are integers counted in milliseconds.
    - Texts are Rocq strings holding the UTF-8 bytes of the Python text.
    - An exception is a class tag and its [str()].  Only instances of
      Python's [Exception] are represented. *)

From Stdlib Require Import ZArith List String Ascii Bool Lia Arith.
From Stdlib Require Import DecimalString.
Import ListNotations.

Local Open Scope string_scope.
Local Open Scope Z_scope.

(* ================================================================== *)
(** ** Enumerations of runner.py *)

Inductive LogLevel := STEP | INFO | SUCCESS | WARNING | ERROR.

Inductive RunnerPhase :=
| INIT | CONNECTING | APPLYING_SETTINGS | SELECTING_CITY | SEARCHING_EVENT
| TAPPING_PURCHASE | SELECTING_DATE | SELECTING_SESSION | SELECTING_PRICE
| SELECTING_QUANTITY | CONFIRMING_PURCHASE | SELECTING_USERS
| SUBMITTING_ORDER | COMPLETED | STOPPED | FAILED.

Inductive FailureReason :=
| USER_STOP | APPIUM_CONNECTION | FLOW_FAILURE | UNEXPECTED | MAX_RETRIES.

Definition level_value (l : LogLevel) : string :=
  match l with
  | STEP => "step" | INFO => "info" | SUCCESS => "success"
  | WARNING => "warning" | ERROR => "error"
  end.

Definition phase_value (p : RunnerPhase) : string :=
  match p with
  | INIT => "init" | CONNECTING => "connecting"
  | APPLYING_SETTINGS => "applying_settings"
  | SELECTING_CITY => "selecting_city"
  | SEARCHING_EVENT => "searching_event"
  | TAPPING_PURCHASE => "tapping_purchase"
  | SELECTING_DATE => "selecting_date"
  | SELECTING_SESSION => "selecting_session"
  | SELECTING_PRICE => "selecting_price"
  | SELECTING_QUANTITY => "selecting_quantity"
  | CONFIRMING_PURCHASE => "confirming_purchase"
  | SELECTING_USERS => "selecting_users"
  | SUBMITTING_ORDER => "submitting_order"
  | COMPLETED => "completed" | STOPPED => "stopped" | FAILED => "failed"
  end.

Definition failure_value (f : FailureReason) : string :=
  match f with
  | USER_STOP => "user_stop"
  | APPIUM_CONNECTION => "appium_connection_failed"
  | FLOW_FAILURE => "flow_failure"
  | UNEXPECTED => "unexpected_error"
  | MAX_RETRIES => "max_retries_reached"
  end.

Definition phase_eqb (p q : RunnerPhase) : bool :=
  match p, q with
  | INIT, INIT | CONNECTING, CONNECTING
  | APPLYING_SETTINGS, APPLYING_SETTINGS | SELECTING_CITY, SELECTING_CITY
  | SEARCHING_EVENT, SEARCHING_EVENT | TAPPING_PURCHASE, TAPPING_PURCHASE
  | SELECTING_DATE, SELECTING_DATE | SELECTING_SESSION, SELECTING_SESSION
  | SELECTING_PRICE, SELECTING_PRICE
  | SELECTING_QUANTITY, SELECTING_QUANTITY
  | CONFIRMING_PURCHASE, CONFIRMING_PURCHASE
  | SELECTING_USERS, SELECTING_USERS | SUBMITTING_ORDER, SUBMITTING_ORDER
  | COMPLETED, COMPLETED | STOPPED, STOPPED | FAILED, FAILED => true
  | _, _ => false
  end.

(** The three phases the spec calls terminal. *)
Definition is_terminal (p : RunnerPhase) : bool :=
  match p with COMPLETED | STOPPED | FAILED => true | _ => false end.

(* ================================================================== *)
(** ** Python text operations used by the runner *)

(** ASCII characters removed by [str.strip()]. *)
Definition is_space (c : ascii) : bool :=
  let n := nat_of_ascii c in
  ((9 <=? n) && (n <=? 13) || (28 <=? n) && (n <=? 32))%nat.

Fixpoint lstrip (s : string) : string :=
  match s with
  | String c s' => if is_space c then lstrip s' else s
  | EmptyString => EmptyString
  end.

Fixpoint rstrip (s : string) : string :=
  match s with
  | String c s' =>
      match rstrip s' with
      | EmptyString => if is_space c then EmptyString else String c EmptyString
      | r => String c r
      end
  | EmptyString => EmptyString
  end.

Definition strip (s : string) : string := rstrip (lstrip s).

(** [needle in hay]. *)
Fixpoint contains (needle hay : string) : bool :=
  prefix needle hay ||
  match hay with
  | String _ hay' => contains needle hay'
  | EmptyString => false
  end.

(** [s.replace(old, new)] for a non-empty [old]: [skip] counts the
    characters of a match that are still to be dropped. *)
Fixpoint replace_from (old new : string) (skip : nat) (s : string) : string :=
  match s with
  | EmptyString => EmptyString
  | String c s' =>
      match skip with
      | S k => replace_from old new k s'
      | O =>
          if prefix old s
          then new ++ replace_from old new (String.length old - 1) s'
          else String c (replace_from old new 0 s')
      end
  end.

Definition replace (old new s : string) : string := replace_from old new 0 s.

Definition digit_of (c : ascii) : option Z :=
  let n := nat_of_ascii c in
  if ((48 <=? n) && (n <=? 57))%nat then Some (Z.of_nat n - 48) else None.

(** Digits of an integer literal; a single underscore may separate two
    digits.  [prev] tells whether the previous character was a digit. *)
Fixpoint digits_value (acc : Z) (prev : bool) (s : string) : option Z :=
  match s with
  | EmptyString => if prev then Some acc else None
  | String c s' =>
      match digit_of c with
      | Some d => digits_value (10 * acc + d) true s'
      | None =>
          if (Ascii.eqb c "_" && prev)%bool
          then match s' with
               | EmptyString => None
               | String c' _ =>
                   match digit_of c' with
                   | Some _ => digits_value acc false s'
                   | None => None
                   end
               end
          else None
      end
  end.

(** [int(s)] on a text of ASCII characters; [None] stands for the
    [ValueError] Python raises. *)
Definition py_int (s : string) : option Z :=
  match strip s with
  | String "-" s' => option_map Z.opp (digits_value 0 false s')
  | String "+" s' => digits_value 0 false s'
  | s' => digits_value 0 false s'
  end.

(** [str(n)] for an integer. *)
Definition str_Z (z : Z) : string := NilZero.string_of_int (Z.to_int z).

(** [str(x)] for an optional integer ([None] prints as the word None). *)
Definition str_opt_Z (o : option Z) : string :=
  match o with Some z => str_Z z | None => "None" end.

(* ================================================================== *)
(** ** Exceptions *)

(** [TicketRunnerStopped] is a subclass of [TicketRunnerError]; the other
    classes are foreign to the runner. *)
Inductive ExnClass :=
| TicketRunnerStopped
| TicketRunnerError
| TimeoutException
| TypeError
| OtherException (name : string).

Record exn := mkExn { exn_class : ExnClass; exn_str : string }.

Definition class_name (c : ExnClass) : string :=
  match c with
  | TicketRunnerStopped => "TicketRunnerStopped"
  | TicketRunnerError => "TicketRunnerError"
  | TimeoutException => "TimeoutException"
  | TypeError => "TypeError"
  | OtherException n => n
  end.

Definition is_TicketRunnerStopped (e : exn) : bool :=
  match exn_class e with TicketRunnerStopped => true | _ => false end.

(** [isinstance(e, TicketRunnerError)], subclass included. *)
Definition is_TicketRunnerError (e : exn) : bool :=
  match exn_class e with
  | TicketRunnerStopped | TicketRunnerError => true
  | _ => false
  end.

Definition is_TimeoutException (e : exn) : bool :=
  match exn_class e with TimeoutException => true | _ => false end.

Definition is_TypeError (e : exn) : bool :=
  match exn_class e with TypeError => true | _ => false end.

(* ================================================================== *)
(** ** Data classes *)

Inductive CtxValue :=
| CInt (z : Z) | CStr (s : string) | CBool (b : bool) | CNone.

Definition Context := list (string * CtxValue).

Record TicketRunLogEntry := mkLogEntry {
  timestamp : Z;
  level : LogLevel;
  message : string;
  phase : RunnerPhase;
  context : Context
}.

Record TicketRunMetrics := mkMetrics {
  start_time : Z;
  end_time : Z;
  attempts : Z;
  success : bool;
  final_phase : RunnerPhase;
  failure_reason : option string;
  failure_code : option FailureReason
}.

Record TicketRunReport := mkReport {
  metrics : TicketRunMetrics;
  logs : list TicketRunLogEntry;
  report_phase_history : list RunnerPhase
}.

(** The two derived entries of [TicketRunMetrics.to_dict].  The dictionary
    stores the duration rounded to three decimals of a second, which is
    the resolution of the time unit used here. *)
Definition duration (m : TicketRunMetrics) : Z :=
  Z.max (end_time m - start_time m) 0.

Definition retries (m : TicketRunMetrics) : Z :=
  Z.max (attempts m - 1) 0.

Record MetricsDict := mkMetricsDict {
  d_start_time : Z;
  d_end_time : Z;
  d_duration_seconds : Z;
  d_attempts : Z;
  d_retries : Z;
  d_success : bool;
  d_final_phase : string;
  d_failure_reason : option string;
  d_failure_code : option string
}.

Definition to_dict (m : TicketRunMetrics) : MetricsDict :=
  {| d_start_time := start_time m;
     d_end_time := end_time m;
     d_duration_seconds := duration m;
     d_attempts := attempts m;
     d_retries := retries m;
     d_success := success m;
     d_final_phase := phase_value (final_phase m);
     d_failure_reason := failure_reason m;
     d_failure_code := option_map failure_value (failure_code m) |}.

(** The fields of [AppTicketConfig] the runner reads.  For [city],
    [keyword] and [date] the empty text stands for any falsy value
    ([None] or the empty text): the runner only tests their truth. *)
Record AppTicketConfig := mkConfig {
  endpoint : string;
  city : string;
  keyword : string;
  date : string;
  session_index : option Z;
  price_index : option Z;
  ticket_quantity : Z;
  wait_timeout : Z;
  retry_delay : Z
}.

(* ================================================================== *)
(** ** The driver capability *)

Inductive By := By_ID | By_XPATH.

Definition Locator := (By * string)%type.

Inductive Condition :=
| visibility_of_element_located
| visibility_of_all_elements_located
| presence_of_element_located
| presence_of_all_elements_located
| element_to_be_clickable.

(** One interaction with the driver.  An element is named by the locator
    it was found with. *)
Inductive DriverCall :=
| Connect (endpoint : string)
| UpdateSettings
| WaitUntil (c : Condition) (l : Locator) (timeout_ms : Z)
| FindElement (container : option Locator) (l : Locator)
| FindElements (container : Locator) (l : Locator)
| Click (l : Locator)
| Clear (l : Locator)
| SendKeys (l : Locator) (text : string)
| GetText (l : Locator)
| GetRect (l : Locator)
| ClickGesture (x y duration_ms : Z)
| PressKeycode (code : Z)
| Quit.

(** What a driver call hands back: whether the object is a real (truthy)
    object, its text, its length when it is a list, and its rectangle. *)
Record DriverValue := mkValue {
  v_object : bool;
  v_text : string;
  v_length : nat;
  v_x : Z; v_y : Z; v_width : Z; v_height : Z
}.

Inductive Outcome (A : Type) :=
| Returns (a : A)
| Raises (e : exn).
Arguments Returns {A} a.
Arguments Raises {A} e.

(** The collaborators of one runner. *)
Record Env := mkEnv {
  clock : nat -> Z;
  stop_signal : nat -> Outcome bool;
  logger : nat -> nat -> option exn;
  driver : nat -> DriverCall -> Outcome DriverValue;
  strptime : string -> option (Z * Z)
}.

(* ================================================================== *)
(** ** Runner state and the monad of runner code *)

(** The fields of [DamaiAppTicketRunner] ([_wait] is written but never
    read by the flow and is left out), followed by the number of calls
    made so far to each collaborator and the driver calls issued so far,
    most recent first. *)
Record State := mkState {
  current_phase : RunnerPhase;
  phase_history : list RunnerPhase;
  last_report : option TicketRunReport;
  _log_entries : list TicketRunLogEntry;
  _run_start_time : Z;
  _driver : option nat;
  clock_pos : nat;
  stop_pos : nat;
  logger_pos : nat;
  driver_pos : nat;
  trace : list DriverCall
}.

(** [__post_init__] *)
Definition post_init : State :=
  {| current_phase := INIT; phase_history := [INIT]; last_report := None;
     _log_entries := []; _run_start_time := 0; _driver := None;
     clock_pos := 0; stop_pos := 0; logger_pos := 0; driver_pos := 0;
     trace := [] |}.

Definition with_phase (p : RunnerPhase) (h : list RunnerPhase) (s : State) :=
  {| current_phase := p; phase_history := h; last_report := last_report s;
     _log_entries := _log_entries s; _run_start_time := _run_start_time s;
     _driver := _driver s; clock_pos := clock_pos s; stop_pos := stop_pos s;
     logger_pos := logger_pos s; driver_pos := driver_pos s;
     trace := trace s |}.

Definition with_report (r : option TicketRunReport) (s : State) :=
  {| current_phase := current_phase s; phase_history := phase_history s;
     last_report := r;
     _log_entries := _log_entries s; _run_start_time := _run_start_time s;
     _driver := _driver s; clock_pos := clock_pos s; stop_pos := stop_pos s;
     logger_pos := logger_pos s; driver_pos := driver_pos s;
     trace := trace s |}.

Definition with_log_entries (l : list TicketRunLogEntry) (s : State) :=
  {| current_phase := current_phase s; phase_history := phase_history s;
     last_report := last_report s;
     _log_entries := l; _run_start_time := _run_start_time s;
     _driver := _driver s; clock_pos := clock_pos s; stop_pos := stop_pos s;
     logger_pos := logger_pos s; driver_pos := driver_pos s;
     trace := trace s |}.

Definition with_run_start_time (t : Z) (s : State) :=
  {| current_phase := current_phase s; phase_history := phase_history s;
     last_report := last_report s;
     _log_entries := _log_entries s; _run_start_time := t;
     _driver := _driver s; clock_pos := clock_pos s; stop_pos := stop_pos s;
     logger_pos := logger_pos s; driver_pos := driver_pos s;
     trace := trace s |}.

Definition with_driver (d : option nat) (s : State) :=
  {| current_phase := current_phase s; phase_history := phase_history s;
     last_report := last_report s;
     _log_entries := _log_entries s; _run_start_time := _run_start_time s;
     _driver := d; clock_pos := clock_pos s; stop_pos := stop_pos s;
     logger_pos := logger_pos s; driver_pos := driver_pos s;
     trace := trace s |}.

Definition tick_clock (s : State) :=
  {| current_phase := current_phase s; phase_history := phase_history s;
     last_report := last_report s;
     _log_entries := _log_entries s; _run_start_time := _run_start_time s;
     _driver := _driver s; clock_pos := S (clock_pos s);
     stop_pos := stop_pos s;
     logger_pos := logger_pos s; driver_pos := driver_pos s;
     trace := trace s |}.

Definition tick_stop (s : State) :=
  {| current_phase := current_phase s; phase_history := phase_history s;
     last_report := last_report s;
     _log_entries := _log_entries s; _run_start_time := _run_start_time s;
     _driver := _driver s; clock_pos := clock_pos s;
     stop_pos := S (stop_pos s);
     logger_pos := logger_pos s; driver_pos := driver_pos s;
     trace := trace s |}.

Definition tick_logger (s : State) :=
  {| current_phase := current_phase s; phase_history := phase_history s;
     last_report := last_report s;
     _log_entries := _log_entries s; _run_start_time := _run_start_time s;
     _driver := _driver s; clock_pos := clock_pos s; stop_pos := stop_pos s;
     logger_pos := S (logger_pos s); driver_pos := driver_pos s;
     trace := trace s |}.

Definition tick_driver (c : DriverCall) (s : State) :=
  {| current_phase := current_phase s; phase_history := phase_history s;
     last_report := last_report s;
     _log_entries := _log_entries s; _run_start_time := _run_start_time s;
     _driver := _driver s; clock_pos := clock_pos s; stop_pos := stop_pos s;
     logger_pos := logger_pos s; driver_pos := S (driver_pos s);
     trace := c :: trace s |}.

(** A computation ends with a value, with a raised exception, or is cut
    off because a [while] loop used up its iteration budget. *)
Inductive Result (A : Type) :=
| Ok (a : A)
| Raise (e : exn)
| OutOfFuel.
Arguments Ok {A} a.
Arguments Raise {A} e.
Arguments OutOfFuel {A}.

Definition M (A : Type) := State -> Result A * State.

Definition ret {A} (a : A) : M A := fun s => (Ok a, s).

Definition raise {A} (e : exn) : M A := fun s => (Raise e, s).

Definition out_of_fuel {A} : M A := fun s => (OutOfFuel, s).

Definition bind {A B} (m : M A) (k : A -> M B) : M B :=
  fun s =>
    match m s with
    | (Ok a, s') => k a s'
    | (Raise e, s') => (Raise e, s')
    | (OutOfFuel, s') => (OutOfFuel, s')
    end.

(** [try: m  except ...: h]; a handler clause that does not match
    re-raises, which is what falling through the clauses does. *)
Definition catch {A} (m : M A) (h : exn -> M A) : M A :=
  fun s =>
    match m s with
    | (Raise e, s') => h e s'
    | r => r
    end.

(** [try: m  finally: f] *)
Definition finally {A} (m : M A) (f : M unit) : M A :=
  fun s =>
    match m s with
    | (OutOfFuel, s') => (OutOfFuel, s')
    | (r, s') =>
        match f s' with
        | (Ok _, s'') => (r, s'')
        | (Raise e, s'') => (Raise e, s'')
        | (OutOfFuel, s'') => (OutOfFuel, s'')
        end
    end.

Definition get {A} (f : State -> A) : M A := fun s => (Ok (f s), s).

Definition modify (f : State -> State) : M unit := fun s => (Ok tt, f s).

Declare Scope runner_scope.
Delimit Scope runner_scope with runner.
Notation "x <- m ;; k" := (bind m (fun x => k))
  (at level 61, m at next level, right associativity) : runner_scope.
Notation "m ;; k" := (bind m (fun _ => k))
  (at level 61, right associativity) : runner_scope.
Local Open Scope runner_scope.

(** [time.sleep(ms)]: the passing of time shows in later clock readings
    only. *)
Definition sleep (ms : Z) : M unit := ret tt.

Definition TicketRunnerError_ {A} (msg : string) : M A :=
  raise (mkExn TicketRunnerError msg).

Definition TicketRunnerStopped_ {A} (msg : string) : M A :=
  raise (mkExn TicketRunnerStopped msg).

(** [context.setdefault(key, v)] on a copy of the context. *)
Definition setdefault (key : string) (v : CtxValue) (c : Context) : Context :=
  if existsb (fun kv => String.eqb (fst kv) key) c then c else (c ++ [(key, v)])%list.

Section Runner.

Variable env : Env.
Variable config : AppTicketConfig.

(* ------------------------------------------------------------------ *)
(** *** Calls to the collaborators *)

Definition time_time : M Z :=
  fun s => (Ok (clock env (clock_pos s)), tick_clock s).

Definition call_stop_signal : M bool :=
  fun s =>
    match stop_signal env (stop_pos s) with
    | Returns b => (Ok b, tick_stop s)
    | Raises e => (Raise e, tick_stop s)
    end.

(** One call of the logger sink with [nargs] positional arguments. *)
Definition call_logger (nargs : nat) : M unit :=
  fun s =>
    match logger env (logger_pos s) nargs with
    | None => (Ok tt, tick_logger s)
    | Some e => (Raise e, tick_logger s)
    end.

Definition drv (c : DriverCall) : M DriverValue :=
  fun s =>
    match driver env (driver_pos s) c with
    | Returns v => (Ok v, tick_driver c s)
    | Raises e => (Raise e, tick_driver c s)
    end.

(** [WebDriverWait(driver, timeout).until(cond(locator))] *)
Definition wait_until (timeout_ms : Z) (c : Condition) (l : Locator)
  : M DriverValue :=
  drv (WaitUntil c l timeout_ms).

(** [datetime.strptime(text, "%Y-%m-%d %H:%M:%S")], month and day. *)
Definition py_strptime (text : string) : M (Z * Z) :=
  match strptime env text with
  | Some md => ret md
  | None =>
      raise (mkExn (OtherException "ValueError")
               ("time data '" ++ text
                ++ "' does not match format '%Y-%m-%d %H:%M:%S'"))
  end.

(* ------------------------------------------------------------------ *)
(** *** State helpers *)

Definition _transition_to (p : RunnerPhase) : M unit :=
  cur <- get current_phase ;;
  if phase_eqb p cur then ret tt
  else modify (fun s => with_phase p (phase_history s ++ [p])%list s).

Definition _mark_failure : M unit :=
  cur <- get current_phase ;;
  if negb (phase_eqb cur FAILED) then _transition_to FAILED else ret tt.

Definition _mark_stopped : M unit :=
  cur <- get current_phase ;;
  if negb (phase_eqb cur STOPPED) then _transition_to STOPPED else ret tt.

Definition _ensure_driver : M nat :=
  d <- get _driver ;;
  match d with
  | None => TicketRunnerError_ "Appium driver 尚未初始化"
  | Some h => ret h
  end.

(* ------------------------------------------------------------------ *)
(** *** Utility helpers *)

Definition _should_stop : M bool :=
  catch call_stop_signal (fun _ => ret false).

Definition _ensure_not_stopped : M unit :=
  stop <- _should_stop ;;
  if stop then TicketRunnerStopped_ "流程被请求停止" else ret tt.

Definition _log (lvl : LogLevel) (msg : string) (ctx : Context) : M unit :=
  ph <- get current_phase ;;
  let context_copy := setdefault "phase" (CStr (phase_value ph)) ctx in
  now <- time_time ;;
  modify (fun s =>
    with_log_entries
      (_log_entries s ++ [mkLogEntry now lvl msg ph context_copy])%list s) ;;
  catch (call_logger 3)
        (fun e =>
           if is_TypeError e
           then catch (call_logger 2) (fun _ => ret tt)
           else ret tt).

Definition _cleanup_driver : M unit :=
  d <- get _driver ;;
  match d with
  | Some _ =>
      finally (catch (drv Quit ;; ret tt) (fun _ => ret tt))
              (modify (with_driver None))
  | None => ret tt
  end.

(** [str(exc).strip() or exc.__class__.__name__] *)
Definition failure_text (exc : exn) : string :=
  if String.eqb (strip (exn_str exc)) ""
  then class_name (exn_class exc)
  else strip (exn_str exc).

Definition _diagnose_failure (exc : exn) : FailureReason * string :=
  let message := failure_text exc in
  if is_TicketRunnerStopped exc then
    (USER_STOP, if String.eqb message "" then "用户已停止流程" else message)
  else if is_TicketRunnerError exc then
    if contains "连接 Appium server" message
    then (APPIUM_CONNECTION, message)
    else (FLOW_FAILURE, message)
  else (UNEXPECTED, "未预期的异常: " ++ message).

Definition _create_driver : M (option nat) :=
  v <- drv (Connect (endpoint config)) ;;
  pos <- get driver_pos ;;
  ret (if v_object v then Some pos else None).

Definition _apply_driver_settings : M unit :=
  d <- get _driver ;;
  match d with
  | None => ret tt
  | Some _ =>
      catch (drv UpdateSettings ;; ret tt)
            (fun exc => _log WARNING ("更新驱动设置失败: " ++ exn_str exc) [])
  end.

(** [for x in l: body(x)] for a body without [break] or [return]. *)
Fixpoint for_each {A} (l : list A) (body : A -> M unit) : M unit :=
  match l with
  | [] => ret tt
  | x :: rest => body x ;; for_each rest body
  end.

(** [range(a, b)] *)
Definition py_range (a b : nat) : list nat := seq a (b - a).

(* ------------------------------------------------------------------ *)
(** *** Appium interaction primitives *)

Definition homepage_header_search : Locator :=
  (By_ID, "cn.damai:id/homepage_header_search").

(** The body of the [for _ in range(5)] loop of [_navigate_to_homepage],
    [n] iterations being left. *)
Fixpoint press_back_until_home (n : nat) : M unit :=
  match n with
  | O => ret tt
  | S k =>
      _ensure_not_stopped ;;
      drv (PressKeycode 4) ;;
      sleep 500 ;;
      home <- catch (wait_until 1000 visibility_of_element_located
                       homepage_header_search ;;
                     _log SUCCESS "通过返回按钮成功回到首页" [] ;;
                     ret true)
                    (fun _ => ret false) ;;
      if home then ret tt else press_back_until_home k
  end.

Definition _navigate_to_homepage : M unit :=
  _ensure_not_stopped ;;
  _ensure_driver ;;
  catch (_log INFO "尝试使用返回按钮回到首页" [] ;;
         press_back_until_home 5)
        (fun e => _log WARNING ("返回按钮策略失败: " ++ exn_str e) []).

(** The selector loop of [_smart_wait_and_click]. *)
Fixpoint smart_click_first (timeout_ms : Z) (selectors : list Locator)
  : M bool :=
  match selectors with
  | [] => ret false
  | l :: rest =>
      _ensure_not_stopped ;;
      catch (wait_until timeout_ms visibility_of_element_located l ;;
             catch (drv (Click l) ;; ret true)
                   (fun _ =>
                      rect <- drv (GetRect l) ;;
                      let x := v_x rect + v_width rect / 2 in
                      let y := v_y rect + v_height rect / 2 in
                      drv (ClickGesture x y 50) ;;
                      ret true))
            (fun _ => smart_click_first timeout_ms rest)
  end.

Definition _smart_wait_and_click (selector : Locator)
  (backups : list Locator) (timeout_ms : Z) : M bool :=
  _ensure_driver ;;
  smart_click_first timeout_ms (selector :: backups).

(* ------------------------------------------------------------------ *)
(** *** Flow steps *)

Definition home_city : Locator :=
  (By_XPATH, "//android.widget.TextView[@resource-id='cn.damai:id/home_city']").

Definition city_search_list : Locator :=
  (By_XPATH,
   "//androidx.recyclerview.widget.RecyclerView[@resource-id='cn.damai:id/city_search_list']").

Definition city_list_item (city : string) : Locator :=
  (By_XPATH,
   ".//android.widget.TextView[@resource-id='cn.damai:id/select_city_list_item' and @text='"
   ++ city ++ "']").

Definition city_search_box : Locator :=
  (By_XPATH,
   "//android.widget.EditText[@resource-id='cn.damai:id/search_edit_text']").

(** How the loop over [city_entry_selectors] (one selector) ends. *)
Inductive CityEntry := AlreadyThere | Entered | NotEntered.

Definition enter_city_selection (city : string) : M CityEntry :=
  catch (wait_until 3000 visibility_of_element_located home_city ;;
         t <- drv (GetText home_city) ;;
         let current_city := strip (v_text t) in
         if String.eqb city current_city then ret AlreadyThere
         else
           drv (Click home_city) ;;
           sleep 1000 ;;
           ret Entered)
        (fun _ => ret NotEntered).

(** The local function [get_visible_cities]: is there a city element? *)
Definition get_visible_cities (city : string) : M bool :=
  catch (wait_until 2000 presence_of_element_located city_search_list ;;
         city_elements <-
           drv (FindElements city_search_list (city_list_item city)) ;;
         ret (0 <? v_length city_elements)%nat)
        (fun _ => ret false).

Definition _select_city (city : string) : M bool :=
  _ensure_driver ;;
  entry <- enter_city_selection city ;;
  match entry with
  | AlreadyThere => ret true
  | NotEntered => ret false
  | Entered =>
      catch (wait_until 3000 visibility_of_element_located city_search_box ;;
             drv (Click city_search_box) ;;
             drv (SendKeys city_search_box city) ;;
             sleep 500 ;;
             sleep 1000 ;;
             city_element <- get_visible_cities city ;;
             if city_element
             then drv (Click (city_list_item city)) ;; ret true
             else ret false)
            (fun _ => ret false)
  end.

Definition header_search_input : Locator :=
  (By_ID, "cn.damai:id/header_search_v2_input").

Definition search_word : Locator :=
  (By_XPATH, "//android.widget.TextView[@resource-id=" ++ String "034" "cn.damai:id/tv_word"
             ++ String "034" "]").

Definition first_search_item : Locator :=
  (By_XPATH, "(//android.widget.LinearLayout[@resource-id=" ++ String "034" "cn.damai:id/ll_search_item"
             ++ String "034" "])[1]").

(** [Some b] is [return b] inside the first block, [None] falls through. *)
Definition type_keyword (kw : string) : M (option bool) :=
  catch (wait_until 2000 visibility_of_element_located homepage_header_search ;;
         drv (Click homepage_header_search) ;;
         wait_until 2000 visibility_of_element_located header_search_input ;;
         sleep 500 ;;
         drv (Click header_search_input) ;;
         drv (Clear header_search_input) ;;
         drv (SendKeys header_search_input kw) ;;
         _log INFO ("已输入搜索关键词: " ++ kw) [] ;;
         ret None)
        (fun e =>
           if is_TimeoutException e
           then _log ERROR ("输入搜索关键词失败: " ++ exn_str e) [] ;;
                ret (Some false)
           else raise e).

Definition pick_suggestion : M unit :=
  catch (search_results <-
           wait_until 1000 visibility_of_all_elements_located search_word ;;
         if (0 <? v_length search_results)%nat
         then drv (Click search_word) ;; ret tt
         else drv (PressKeycode 66) ;; ret tt)
        (fun _ => drv (PressKeycode 66) ;; ret tt).

Definition _search_event (kw : string) (click_result skip_search : bool)
  : M bool :=
  _ensure_driver ;;
  typed <- (if negb skip_search then type_keyword kw else ret None) ;;
  match typed with
  | Some b => ret b
  | None =>
      (if negb skip_search then pick_suggestion else ret tt) ;;
      if negb click_result
      then _log INFO "已执行搜索，不点击搜索结果" [] ;; ret true
      else
        sleep 500 ;;
        catch (wait_until 3000 visibility_of_element_located first_search_item ;;
               drv (Click first_search_item) ;;
               sleep 500 ;;
               ret true)
              (fun e => if is_TimeoutException e then ret false else raise e)
  end.

Definition purchase_status_bar : Locator :=
  (By_ID, "cn.damai:id/trade_project_detail_purchase_status_bar_container_fl").

Definition _tap_purchase_button : M bool :=
  _ensure_driver ;;
  catch (wait_until 1500 visibility_of_element_located purchase_status_bar ;;
         drv (Click purchase_status_bar) ;;
         ret true)
        (fun _ => ret false).

Definition theme_dialog_confirm : Locator :=
  (By_ID, "cn.damai:id/damai_theme_dialog_confirm_btn").

Definition viewer_base_xpath : string :=
  "//android.widget.FrameLayout[@resource-id='cn.damai:id/web_container']/android.webkit.WebView/android.webkit.WebView/android.view.View/android.view.View/android.view.View".

Definition viewer_confirm_button : Locator :=
  (By_XPATH, "//android.widget.Button[@text='确定']").

Definition select_viewer (i : nat) : M unit :=
  _ensure_not_stopped ;;
  let view_xpath :=
    viewer_base_xpath ++ "[" ++ str_Z (Z.of_nat i + 1) ++ "]" in
  _log INFO ("选择观演人 " ++ str_Z (Z.of_nat i - 1)) [("xpath", CStr view_xpath)] ;;
  drv (FindElement None (By_XPATH, view_xpath)) ;;
  drv (Click (By_XPATH, view_xpath)) ;;
  sleep 500.

(** The part of the [try] block that comes before the back key. *)
Definition select_viewers : M unit :=
  all_views <-
    wait_until 3000 presence_of_all_elements_located
      (By_XPATH, viewer_base_xpath) ;;
  if (3 <=? v_length all_views)%nat then
    for_each (py_range 2 (v_length all_views - 1)) select_viewer ;;
    _smart_wait_and_click viewer_confirm_button [] 1500 ;;
    ret tt
  else ret tt.

Definition _select_theme_dialog : M unit :=
  _ensure_driver ;;
  clicked <- _smart_wait_and_click theme_dialog_confirm [] 1000 ;;
  if clicked then
    sleep 1000 ;;
    catch (select_viewers ;;
           drv (PressKeycode 4) ;;
           ret tt)
          (fun e => _log ERROR ("观演人选择失败: " ++ exn_str e) [])
  else ret tt.

Definition calendar : Locator := (By_ID, "cn.damai:id/hrv_canlendar").

Definition month_locator (month_text : string) : Locator :=
  (By_XPATH,
   "//android.widget.TextView[@resource-id='cn.damai:id/tv_date' and contains(@text, '"
   ++ month_text ++ "')]").

Definition day_locator (target_day : option Z) : Locator :=
  (By_XPATH,
   "//android.widget.TextView[@resource-id='cn.damai:id/tv_day' and @text='"
   ++ str_opt_Z target_day ++ "']").

Definition ctx_opt_Z (o : option Z) : CtxValue :=
  match o with Some z => CInt z | None => CNone end.

Definition _select_date : M bool :=
  _ensure_driver ;;
  date_moons <-
    catch (wait_until 1000 presence_of_element_located calendar ;; ret true)
          (fun e => if is_TimeoutException e then ret false else raise e) ;;
  if negb date_moons then ret false
  else
    target <-
      (if negb (String.eqb (date config) "")
       then md <- py_strptime (date config) ;;
            ret (Some (fst md), Some (snd md))
       else ret (None, None)) ;;
    let target_month : option Z := fst target in
    let target_day : option Z := snd target in
    catch (let month_text := str_opt_Z target_month ++ "月" in
           wait_until 3000 element_to_be_clickable (month_locator month_text) ;;
           drv (Click (month_locator month_text)) ;;
           catch (_log INFO ("尝试选择日期: " ++ str_opt_Z target_day)
                    [("target_day", ctx_opt_Z target_day)] ;;
                  wait_until 3000 element_to_be_clickable
                    (day_locator target_day) ;;
                  drv (Click (day_locator target_day)) ;;
                  _log SUCCESS ("成功选择日期: " ++ str_opt_Z target_day) [] ;;
                  ret true)
                 (fun _ =>
                    _log ERROR "日期选择失败: 没有这个日期" [] ;;
                    ret false))
          (fun _ =>
             _log ERROR "月份选择失败: 没有这个月份" [] ;;
             ret false).

(** [for selector in selectors: try: elem = container.find_element(...);
    break  except Exception: continue], with the locator that answered. *)
Fixpoint find_first (container : Locator) (selectors : list string)
  : M (option (Locator * DriverValue)) :=
  match selectors with
  | [] => ret None
  | x :: rest =>
      catch (elem <- drv (FindElement (Some container) (By_XPATH, x)) ;;
             ret (Some ((By_XPATH, x), elem)))
            (fun _ => find_first container rest)
  end.

Definition session_container : Locator :=
  (By_ID, "cn.damai:id/project_detail_perform_flowlayout").

Definition _select_session : M bool :=
  match session_index config with
  | None => ret false
  | Some idx =>
      _ensure_driver ;;
      container <-
        catch (wait_until 1000 visibility_of_element_located session_container ;;
               ret true)
              (fun e =>
                 if is_TimeoutException e
                 then _log WARNING "未找到场次容器，跳过场次选择" [] ;;
                      ret false
                 else raise e) ;;
      if negb container then ret false
      else
        session_elem <-
          find_first session_container
            [ ".//android.widget.LinearLayout[" ++ str_Z idx ++ "]";
              ".//android.view.ViewGroup[" ++ str_Z idx ++ "]";
              ".//android.view.ViewGroup" ] ;;
        match session_elem with
        | Some (l, elem) =>
            if v_object elem then drv (Click l) ;; ret true
            else _log ERROR "未找到场次选择" [] ;; ret false
        | None => _log ERROR "未找到场次选择" [] ;; ret false
        end
  end.

Definition price_container : Locator :=
  (By_ID, "cn.damai:id/project_detail_perform_price_flowlayout").

Definition _select_price : M bool :=
  match price_index config with
  | None => ret false
  | Some idx =>
      _ensure_driver ;;
      container <-
        catch (wait_until 2000 visibility_of_element_located price_container ;;
               ret true)
              (fun e =>
                 if is_TimeoutException e
                 then _log WARNING "未找到票价容器，跳过票价选择" [] ;;
                      ret false
                 else raise e) ;;
      if negb container then ret false
      else
        price_elem <-
          find_first price_container
            [ ".//android.widget.FrameLayout[" ++ str_Z idx ++ "]";
              ".//android.widget.FrameLayout" ] ;;
        match price_elem with
        | Some (l, elem) =>
            if v_object elem then drv (Click l) ;; ret true
            else _log ERROR "所有选择器都无法找到票价元素" [] ;; ret false
        | None => _log ERROR "所有选择器都无法找到票价元素" [] ;; ret false
        end
  end.

Definition tv_num : Locator := (By_ID, "cn.damai:id/tv_num").
Definition img_jia : Locator := (By_ID, "cn.damai:id/img_jia").
Definition img_jian : Locator := (By_ID, "cn.damai:id/img_jian").

(** [int(text.replace("张", ""))] *)
Definition parse_quantity (text : string) : M Z :=
  match py_int (replace "张" "" text) with
  | Some n => ret n
  | None =>
      raise (mkExn (OtherException "ValueError")
               ("invalid literal for int() with base 10: '"
                ++ replace "张" "" text ++ "'"))
  end.

Definition _select_quantity : M bool :=
  _ensure_driver ;;
  catch (let quantity := ticket_quantity config in
         wait_until 1000 presence_of_element_located tv_num ;;
         t <- drv (GetText tv_num) ;;
         let current_quantity_text := strip (v_text t) in
         current_quantity <- parse_quantity current_quantity_text ;;
         wait_until 1000 element_to_be_clickable img_jia ;;
         wait_until 1000 element_to_be_clickable img_jian ;;
         let delta := quantity - current_quantity in
         (if 0 <? delta then
            for_each (py_range 0 (Z.to_nat delta))
              (fun _ => drv (Click img_jia) ;; sleep 300)
          else if delta <? 0 then
            for_each (py_range 0 (Z.to_nat (- delta)))
              (fun _ => drv (Click img_jian) ;; sleep 300)
          else ret tt) ;;
         ret true)
        (fun _ => ret false).

Definition btn_buy_view : Locator := (By_ID, "cn.damai:id/btn_buy_view").

Definition _confirm_purchase : M (bool * string) :=
  _ensure_driver ;;
  catch (wait_until 3000 element_to_be_clickable btn_buy_view ;;
         t <- drv (GetText btn_buy_view) ;;
         drv (Click btn_buy_view) ;;
         ret (true, v_text t))
        (fun _ => ret (false, "")).

(* ------------------------------------------------------------------ *)
(** *** One attempt *)

(** [if not ok: raise TicketRunnerError(msg)] *)
Definition require (ok : bool) (msg : string) : M unit :=
  if negb ok then TicketRunnerError_ msg else ret tt.

Definition truthy (text : string) : bool := negb (String.eqb text "").

Definition flow_steps (skip_preheat : bool) : M bool :=
  _ensure_not_stopped ;;
  (if negb skip_preheat then
     (if truthy (city config) then
        _transition_to SELECTING_CITY ;;
        _log STEP ("选择城市: " ++ city config) [] ;;
        found <- _select_city (city config) ;;
        if negb found
        then _log WARNING ("未找到城市 " ++ city config) []
        else ret tt
      else ret tt) ;;
     _ensure_not_stopped ;;
     (if truthy (keyword config) then
        _transition_to SEARCHING_EVENT ;;
        _log STEP ("搜索演出: " ++ keyword config) [] ;;
        ok <- _search_event (keyword config) true false ;;
        require ok "未能完成演出搜索"
      else ret tt)
   else
     _ensure_not_stopped ;;
     (if truthy (keyword config) then
        _transition_to SEARCHING_EVENT ;;
        _log STEP ("使用预热搜索结果: " ++ keyword config) [] ;;
        ok <- _search_event (keyword config) true true ;;
        require ok "未能点击搜索结果"
      else ret tt)) ;;

  _ensure_not_stopped ;;
  _transition_to TAPPING_PURCHASE ;;
  _select_theme_dialog ;;

  _ensure_not_stopped ;;
  _transition_to TAPPING_PURCHASE ;;
  _log STEP "尝试点击预约/购买按钮" [] ;;
  ok <- _tap_purchase_button ;;
  require ok "未能找到预约/购买入口" ;;

  _ensure_not_stopped ;;
  _transition_to SELECTING_DATE ;;
  _log STEP "选择日期" [] ;;
  picked <- _select_date ;;
  (if negb picked then _log STEP "不需要选择日期" [] else ret tt) ;;

  _ensure_not_stopped ;;
  _transition_to SELECTING_SESSION ;;
  _log STEP "选择场次" [] ;;
  ok <- _select_session ;;
  require ok "未能选择场次" ;;

  _ensure_not_stopped ;;
  _transition_to SELECTING_PRICE ;;
  _log STEP "选择票价" [] ;;
  ok <- _select_price ;;
  require ok "未能选择票价" ;;

  _ensure_not_stopped ;;
  _transition_to SELECTING_QUANTITY ;;
  _log STEP "选择数量" [] ;;
  _select_quantity ;;

  _ensure_not_stopped ;;
  _transition_to CONFIRMING_PURCHASE ;;
  _log STEP "确认购买" [] ;;
  confirmed <- _confirm_purchase ;;
  require (fst confirmed) ("未能进入确认页面," ++ snd confirmed) ;;

  _transition_to COMPLETED ;;
  ret true.

Definition _perform_ticket_flow (skip_preheat : bool) : M bool :=
  catch (flow_steps skip_preheat)
        (fun exc =>
           if is_TicketRunnerStopped exc then
             _mark_stopped ;; raise exc
           else if is_TicketRunnerError exc then
             _mark_failure ;; raise exc
           else
             _mark_failure ;;
             ph <- get current_phase ;;
             TicketRunnerError_
               ("执行阶段 " ++ phase_value ph ++ " 出现异常: " ++ exn_str exc)).

Definition _execute_once (skip_preheat : bool) : M bool :=
  finally
    (_ensure_not_stopped ;;
     (if negb skip_preheat then
        _transition_to CONNECTING ;;
        _log STEP "连接 Appium server" [] ;;
        d <- catch _create_driver
               (fun exc =>
                  TicketRunnerError_ ("连接 Appium server 失败: " ++ exn_str exc)) ;;
        modify (with_driver d) ;;
        _ensure_driver ;;
        _transition_to APPLYING_SETTINGS ;;
        _apply_driver_settings
      else
        _ensure_driver ;;
        _log INFO "使用预热好的driver，跳过连接和设置步骤" []) ;;
     _log STEP "开始执行抢票流程" [] ;;
     _perform_ticket_flow skip_preheat)
    (if negb skip_preheat then _cleanup_driver else ret tt).

(* ------------------------------------------------------------------ *)
(** *** Public API: [run] *)

(** The local variables of [run] that live across the attempt loop. *)
Record Locals := mkLocals {
  loc_attempts : Z;
  loc_success : bool;
  loc_failure_code : option FailureReason;
  loc_failure_message : option string
}.

(** [start_time and start_time > time.time()] *)
Definition start_in_future (start : option Z) : M (option Z) :=
  match start with
  | None => ret None
  | Some t =>
      if t =? 0 then ret None
      else now <- time_time ;; if now <? t then ret (Some t) else ret None
  end.

(** The [while wait_time > 0] loop; the result [true] is the early
    [return False] of [run]. *)
Fixpoint wait_for_start (fuel : nat) (start wait_time : Z) : M bool :=
  if 0 <? wait_time then
    match fuel with
    | O => out_of_fuel
    | S fuel' =>
        stop <- _should_stop ;;
        if stop then _mark_stopped ;; ret true
        else
          sleep (Z.min 100 wait_time) ;;
          now <- time_time ;;
          wait_for_start fuel' start (start - now)
    end
  else ret false.

Definition scheduled_wait (fuel : nat) (start : option Z) : M bool :=
  future <- start_in_future start ;;
  match future with
  | None => ret false
  | Some t =>
      now <- time_time ;;
      let wait_time := t - now in
      _log INFO ("等待到指定时间开始抢票，剩余时间: "
                 ++ str_Z (Z.quot wait_time 1000) ++ "秒") [] ;;
      returned <- wait_for_start fuel t wait_time ;;
      if returned then ret true
      else _log INFO "到达指定时间，开始抢票" [] ;; ret false
  end.

Inductive Control := Break | Next.

(** The [try] statement of the loop body, [attempts] already counted. *)
Definition try_attempt (v : Locals) : M (Control * Locals) :=
  let n := loc_attempts v in
  catch (d <- get _driver ;;
         let skip_preheat := match d with Some _ => true | None => false end in
         ok <- _execute_once skip_preheat ;;
         if ok then
           _log SUCCESS "抢票流程执行完成" [("attempt", CInt n)] ;;
           ret (Break, mkLocals n true (loc_failure_code v)
                         (loc_failure_message v))
         else ret (Next, v))
        (fun exc =>
           if is_TicketRunnerStopped exc then
             _mark_stopped ;;
             let failure_message :=
               if String.eqb (strip (exn_str exc)) "" then "用户已停止流程"
               else strip (exn_str exc) in
             _log WARNING failure_message [("attempt", CInt n)] ;;
             ret (Break, mkLocals n (loc_success v) (Some USER_STOP)
                           (Some failure_message))
           else if is_TicketRunnerError exc then
             _mark_failure ;;
             let diagnosis := _diagnose_failure exc in
             _log ERROR (snd diagnosis) [("attempt", CInt n)] ;;
             ret (Next, mkLocals n (loc_success v) (Some (fst diagnosis))
                          (Some (snd diagnosis)))
           else
             _mark_failure ;;
             let failure_message := "未预期的异常: " ++ exn_str exc in
             _log ERROR failure_message [("attempt", CInt n)] ;;
             ret (Next, mkLocals n (loc_success v) (Some UNEXPECTED)
                          (Some failure_message))).

(** The recovery block between two attempts. *)
Definition prepare_retry (n : Z) : M unit :=
  d <- get _driver ;;
  (match d with
   | None =>
       catch (_log INFO "Driver已被清理，尝试重新创建driver" [] ;;
              d' <- _create_driver ;;
              modify (with_driver d') ;;
              _apply_driver_settings)
             (fun e => _log ERROR ("重新创建driver失败: " ++ exn_str e) [])
   | Some _ => ret tt
   end) ;;
  d <- get _driver ;;
  (match d with
   | Some _ =>
       catch _navigate_to_homepage
             (fun e => _log ERROR ("返回首页失败: " ++ exn_str e) [])
   | None => ret tt
   end) ;;
  _log INFO "准备重试" [("attempt", CInt (n + 1))] ;;
  sleep (Z.max (retry_delay config) 0).

(** The loop test [attempts < max_retries and not self._should_stop()]. *)
Definition may_attempt (max_retries : Z) (v : Locals) : M bool :=
  if loc_attempts v <? max_retries
  then stop <- _should_stop ;; ret (negb stop)
  else ret false.

(** The loop body up to the end of the [try] statement. *)
Definition begin_attempt (max_retries : Z) (v : Locals)
  : M (Control * Locals) :=
  let n := loc_attempts v + 1 in
  _log INFO ("第 " ++ str_Z n ++ " 次尝试")
    [("attempt", CInt n); ("max_retries", CInt max_retries)] ;;
  try_attempt (mkLocals n (loc_success v) (loc_failure_code v)
                 (loc_failure_message v)).

(** The rest of the loop body:
    [if not success and attempts < max_retries and not self._should_stop()]. *)
Definition end_attempt (max_retries : Z) (v : Locals) : M unit :=
  again <- (if negb (loc_success v) && (loc_attempts v <? max_retries)
            then stop <- _should_stop ;; ret (negb stop)
            else ret false) ;;
  if again then prepare_retry (loc_attempts v) else ret tt.

Fixpoint attempt_loop (fuel : nat) (max_retries : Z) (v : Locals)
  : M Locals :=
  enter <- may_attempt max_retries v ;;
  if enter then
    match fuel with
    | O => out_of_fuel
    | S fuel' =>
        r <- begin_attempt max_retries v ;;
        match r with
        | (Break, v') => ret v'
        | (Next, v') =>
            end_attempt max_retries v' ;;
            attempt_loop fuel' max_retries v'
        end
    end
  else ret v.

(** The classification made after the loop. *)
Definition finalize (v : Locals) : M Locals :=
  if negb (loc_success v) then
    match loc_failure_code v with
    | None =>
        cur <- get current_phase ;;
        stopped <- (if phase_eqb cur STOPPED then ret true else _should_stop) ;;
        if stopped then
          ret (mkLocals (loc_attempts v) (loc_success v) (Some USER_STOP)
                 (Some match loc_failure_message v with
                       | Some m => if String.eqb m "" then "流程被请求停止" else m
                       | None => "流程被请求停止"
                       end))
        else
          ret (mkLocals (loc_attempts v) (loc_success v) (Some MAX_RETRIES)
                 (Some match loc_failure_message v with
                       | Some m =>
                           if String.eqb m "" then "达到最大重试次数仍未成功" else m
                       | None => "达到最大重试次数仍未成功"
                       end))
    | Some _ => ret v
    end
  else ret v.

Definition stats_context (v : Locals) (elapsed : Z) : Context :=
  ([ ("attempts", CInt (loc_attempts v));
     ("retries", CInt (Z.max (loc_attempts v - 1) 0));
     ("duration", CInt elapsed);
     ("success", CBool (loc_success v)) ]
   ++ match loc_failure_code v with
      | Some c => [("failure_code", CStr (failure_value c))]
      | None => []
      end)%list.

(** The five assignments that open [run]. *)
Definition reset_for_run : M unit :=
  modify (with_phase INIT [INIT]) ;;
  modify (with_log_entries []) ;;
  modify (with_report None) ;;
  t0 <- time_time ;;
  modify (with_run_start_time t0).

(** [run] up to the attempt loop; the result [true] is the early
    [return False]. *)
Definition begin_run (fuel : nat) (start : option Z) : M bool :=
  reset_for_run ;;
  scheduled_wait fuel start.

(** [run] after the attempt loop. *)
Definition finish_run (v : Locals) : M bool :=
  end_t <- time_time ;;
  v <- finalize v ;;
  run_start <- get _run_start_time ;;
  let elapsed := Z.max (end_t - run_start) 0 in
  _log INFO "执行统计" (stats_context v elapsed) ;;
  final <- get current_phase ;;
  let m := mkMetrics run_start end_t (loc_attempts v) (loc_success v)
             final (loc_failure_message v) (loc_failure_code v) in
  entries <- get _log_entries ;;
  history <- get phase_history ;;
  modify (with_report (Some (mkReport m entries history))) ;;
  ret (loc_success v).

Definition no_attempt_yet : Locals := mkLocals 0 false None None.

Definition run (fuel : nat) (max_retries : Z) (start : option Z) : M bool :=
  returned <- begin_run fuel start ;;
  if returned then ret false
  else
    let max_retries := Z.max 1 max_retries in
    v <- attempt_loop fuel max_retries no_attempt_yet ;;
    finish_run v.

Definition get_last_report : M (option TicketRunReport) := get last_report.

End Runner.

(* ================================================================== *)
(** ** Sample collaborators and configurations

    Used to evaluate the runner at fixed inputs. *)

Definition sample_value : DriverValue := mkValue true "3张" 5 10 20 100 40.

Definition sample_config : AppTicketConfig :=
  mkConfig "http://127.0.0.1:4723" "上海" "演唱会" "" (Some 1) (Some 2)
    7 2000 1200.

(** A clock that advances by 10 ms at every reading. *)
Definition ticking_clock (k : nat) : Z := Z.of_nat k * 10.

(** A cooperative world: nobody asks to stop, the logger accepts every
    entry and every driver call answers [sample_value]. *)
Definition env_cooperative : Env :=
  mkEnv ticking_clock (fun _ => Returns false) (fun _ _ => None)
        (fun _ _ => Returns sample_value) (fun _ => Some (6, 15)).

(** The Appium server cannot be reached. *)
Definition env_unreachable : Env :=
  mkEnv ticking_clock (fun _ => Returns false) (fun _ _ => None)
        (fun _ c =>
           match c with
           | Connect _ =>
               Raises (mkExn (OtherException "ConnectionError") "refused")
           | _ => Returns sample_value
           end)
        (fun _ => Some (6, 15)).

(** The stop signal is already set when the run starts. *)
Definition env_stop_requested : Env :=
  mkEnv ticking_clock (fun _ => Returns true) (fun _ _ => None)
        (fun _ _ => Returns sample_value) (fun _ => Some (6, 15)).

(** No select-viewer dialog shows up: waiting for its confirm button
    times out; everything else answers. *)
Definition env_no_dialog : Env :=
  mkEnv ticking_clock (fun _ => Returns false) (fun _ _ => None)
        (fun _ c =>
           match c with
           | WaitUntil _ (By_ID, "cn.damai:id/damai_theme_dialog_confirm_btn") _ =>
               Raises (mkExn TimeoutException "Message: ")
           | _ => Returns sample_value
           end)
        (fun _ => Some (6, 15)).

(** A state in which a driver session is open. *)
Definition connected : State := with_driver (Some 1%nat) post_init.

(* ================================================================== *)
(** ** Observations on traces and phase histories *)

Definition is_back (c : DriverCall) : bool :=
  match c with PressKeycode 4 => true | _ => false end.

Definition is_click_on (l : Locator) (c : DriverCall) : bool :=
  match c with
  | Click (By_ID, x) =>
      match l with (By_ID, y) => String.eqb x y | _ => false end
  | Click (By_XPATH, x) =>
      match l with (By_XPATH, y) => String.eqb x y | _ => false end
  | _ => false
  end.

(** Number of calls of a kind issued so far. *)
Definition count (f : DriverCall -> bool) (s : State) : nat :=
  List.length (filter f (trace s)).

(** No entry of the history follows an entry that satisfies [final]. *)
Fixpoint nothing_after (final : RunnerPhase -> bool) (h : list RunnerPhase)
  : bool :=
  match h with
  | [] => true
  | p :: rest =>
      (if final p then match rest with [] => true | _ => false end else true)
      && nothing_after final rest
  end.

Definition is_completed_or_stopped (p : RunnerPhase) : bool :=
  match p with COMPLETED | STOPPED => true | _ => false end.

(** The state after [_transition_to p]. *)
Definition transition (p : RunnerPhase) (s : State) : State :=
  if phase_eqb p (current_phase s) then s
  else with_phase p (phase_history s ++ [p])%list s.

(* ================================================================== *)
(** ** A program logic for runner code *)

(** [triple P m Q X]: from a state in [P], [m] ends with a value in [Q]
    or raises an exception in [X]; it never runs out of fuel. *)
Definition triple {A} (P : State -> Prop) (m : M A)
  (Q : A -> State -> Prop) (X : exn -> State -> Prop) : Prop :=
  forall s, P s ->
    match m s with
    | (Ok a, s') => Q a s'
    | (Raise e, s') => X e s'
    | (OutOfFuel, _) => False
    end.

(** [keeps Inv E m]: [m] preserves the state property [Inv] and lets only
    exceptions in [E] escape. *)
Definition keeps {A} (Inv : State -> Prop) (E : exn -> Prop) (m : M A)
  : Prop :=
  triple Inv m (fun _ => Inv) (fun e s => Inv s /\ E e).

Definition Top : exn -> Prop := fun _ => True.

Lemma triple_ret {A} P (a : A) (Q : A -> State -> Prop) X :
  (forall s, P s -> Q a s) -> triple P (ret a) Q X.
Proof. intros H s Hs. simpl. auto. Qed.

Lemma triple_raise {A} P e (Q : A -> State -> Prop) (X : exn -> State -> Prop) :
  (forall s, P s -> X e s) -> triple P (raise e) Q X.
Proof. intros H s Hs. simpl. auto. Qed.

Lemma triple_get {A} P (f : State -> A) (Q : A -> State -> Prop) X :
  (forall s, P s -> Q (f s) s) -> triple P (get f) Q X.
Proof. intros H s Hs. simpl. auto. Qed.

Lemma triple_modify P f (Q : unit -> State -> Prop) X :
  (forall s, P s -> Q tt (f s)) -> triple P (modify f) Q X.
Proof. intros H s Hs. simpl. auto. Qed.

Lemma triple_bind {A B} P (m : M A) (k : A -> M B) Q1 Q X :
  triple P m Q1 X ->
  (forall a, triple (Q1 a) (k a) Q X) ->
  triple P (bind m k) Q X.
Proof.
  intros Hm Hk s Hs. unfold bind. specialize (Hm s Hs).
  destruct (m s) as [[a | e |] s']; auto.
  apply (Hk a s' Hm).
Qed.

Lemma triple_catch {A} P (m : M A) h Q X1 X :
  triple P m Q X1 ->
  (forall e, triple (X1 e) (h e) Q X) ->
  triple P (catch m h) Q X.
Proof.
  intros Hm Hh s Hs. unfold catch. specialize (Hm s Hs).
  destruct (m s) as [[a | e |] s']; auto.
  apply (Hh e s' Hm).
Qed.

Lemma triple_finally {A} P (m : M A) f Q1 X1 Q X :
  triple P m Q1 X1 ->
  (forall a, triple (Q1 a) f (fun _ => Q a) X) ->
  (forall e, triple (X1 e) f (fun _ => X e) X) ->
  triple P (finally m f) Q X.
Proof.
  intros Hm Hq Hx s Hs. unfold finally. specialize (Hm s Hs).
  destruct (m s) as [[a | e |] s']; auto.
  - specialize (Hq a s' Hm). destruct (f s') as [[[] | e' |] s'']; auto.
  - specialize (Hx e s' Hm). destruct (f s') as [[[] | e' |] s'']; auto.
Qed.

Lemma triple_conseq {A} (P P' : State -> Prop) (m : M A)
  (Q Q' : A -> State -> Prop) (X X' : exn -> State -> Prop) :
  triple P' m Q' X' ->
  (forall s, P s -> P' s) ->
  (forall a s, Q' a s -> Q a s) ->
  (forall e s, X' e s -> X e s) ->
  triple P m Q X.
Proof.
  intros Hm HP HQ HX s Hs. specialize (Hm s (HP s Hs)).
  destruct (m s) as [[a | e |] s']; auto.
Qed.

(** Using a triple on a known execution. *)
Lemma triple_Ok {A} P (m : M A) Q X s a s' :
  triple P m Q X -> P s -> m s = (Ok a, s') -> Q a s'.
Proof. intros H Hs Hm. specialize (H s Hs). rewrite Hm in H. exact H. Qed.

Lemma triple_Raise {A} P (m : M A) Q X s e s' :
  triple P m Q X -> P s -> m s = (Raise e, s') -> X e s'.
Proof. intros H Hs Hm. specialize (H s Hs). rewrite Hm in H. exact H. Qed.

Lemma triple_fuel {A} P (m : M A) Q X s s' :
  triple P m Q X -> P s -> m s <> (OutOfFuel, s').
Proof. intros H Hs Hm. specialize (H s Hs). rewrite Hm in H. exact H. Qed.

Lemma transition_to_eq p s : _transition_to p s = (Ok tt, transition p s).
Proof.
  unfold _transition_to, transition, bind, get, modify, ret.
  destruct (phase_eqb p (current_phase s)); reflexivity.
Qed.

Lemma phase_eqb_eq p q : phase_eqb p q = true <-> p = q.
Proof. destruct p, q; simpl; split; intro H; congruence. Qed.

Lemma phase_eqb_sym p q : phase_eqb p q = phase_eqb q p.
Proof. destruct p, q; reflexivity. Qed.

Lemma mark_failure_eq s : _mark_failure s = (Ok tt, transition FAILED s).
Proof.
  unfold _mark_failure, bind, get. rewrite phase_eqb_sym.
  unfold transition. destruct (phase_eqb FAILED (current_phase s)) eqn:H; simpl.
  - reflexivity.
  - rewrite transition_to_eq. unfold transition. rewrite H. reflexivity.
Qed.

Lemma mark_stopped_eq s : _mark_stopped s = (Ok tt, transition STOPPED s).
Proof.
  unfold _mark_stopped, bind, get. rewrite phase_eqb_sym.
  unfold transition. destruct (phase_eqb STOPPED (current_phase s)) eqn:H; simpl.
  - reflexivity.
  - rewrite transition_to_eq. unfold transition. rewrite H. reflexivity.
Qed.

Section Keeps.

Context {Inv : State -> Prop} {E : exn -> Prop}.

Lemma keeps_ret {A} (a : A) : keeps Inv E (ret a).
Proof. apply triple_ret. auto. Qed.

Lemma keeps_raise {A} e : E e -> keeps Inv E (@raise A e).
Proof. intro He. apply triple_raise. auto. Qed.

Lemma keeps_get {A} (f : State -> A) : keeps Inv E (get f).
Proof. apply triple_get. auto. Qed.

Lemma keeps_sleep ms : keeps Inv E (sleep ms).
Proof. apply keeps_ret. Qed.

Lemma keeps_bind {A B} (m : M A) (k : A -> M B) :
  keeps Inv E m -> (forall a, keeps Inv E (k a)) -> keeps Inv E (bind m k).
Proof. intros Hm Hk. eapply triple_bind; [exact Hm | exact Hk]. Qed.

Lemma keeps_top {A} (m : M A) : keeps Inv E m -> keeps Inv Top m.
Proof.
  intro H. eapply triple_conseq; [exact H | auto | auto |].
  intros e s [Hs _]. split; [exact Hs | exact I].
Qed.

Lemma keeps_catch_all {A} (m : M A) h :
  keeps Inv Top m -> (forall e, keeps Inv E (h e)) -> keeps Inv E (catch m h).
Proof.
  intros Hm Hh. eapply triple_catch; [exact Hm |].
  intro e. eapply triple_conseq; [apply (Hh e) | | auto | auto].
  intros s [Hs _]. exact Hs.
Qed.

Lemma keeps_catch_some {A} (m : M A) h :
  keeps Inv E m -> (forall e, E e -> keeps Inv E (h e)) ->
  keeps Inv E (catch m h).
Proof.
  intros Hm Hh s Hs. unfold catch. specialize (Hm s Hs).
  destruct (m s) as [[a | e |] s']; auto.
  destruct Hm as [Hs' He]. apply (Hh e He s' Hs').
Qed.

Lemma keeps_finally {A} (m : M A) f :
  keeps Inv E m -> keeps Inv E f -> keeps Inv E (finally m f).
Proof.
  intros Hm Hf s Hs. unfold finally. specialize (Hm s Hs).
  destruct (m s) as [[a | e |] s']; auto.
  - specialize (Hf s' Hm). destruct (f s') as [[[] | e' |] s'']; auto.
  - destruct Hm as [Hs' He]. specialize (Hf s' Hs').
    destruct (f s') as [[[] | e' |] s'']; auto.
Qed.

Lemma keeps_for_each {A} (l : list A) body :
  (forall x, keeps Inv E (body x)) -> keeps Inv E (for_each l body).
Proof.
  intro Hb. induction l as [| x rest IH]; simpl.
  - apply keeps_ret.
  - apply keeps_bind; [apply Hb | intros _; exact IH].
Qed.

End Keeps.

(** A computation that preserves [Inv] however it ends. *)
Lemma keeps_snd {A} Inv E (m : M A) s :
  keeps Inv E m -> Inv s -> Inv (snd (m s)).
Proof.
  intros H Hs. specialize (H s Hs).
  destruct (m s) as [[a | e |] s']; simpl; tauto.
Qed.

(* ------------------------------------------------------------------ *)
(** *** Helpers that always return *)

(** What asking the stop signal or writing a log entry leaves alone. *)
Definition same_run (s s' : State) : Prop :=
  current_phase s' = current_phase s /\
  phase_history s' = phase_history s /\
  last_report s' = last_report s /\
  _run_start_time s' = _run_start_time s /\
  _driver s' = _driver s /\
  trace s' = trace s /\
  driver_pos s' = driver_pos s.

Lemma should_stop_returns env s :
  exists b s', _should_stop env s = (Ok b, s') /\ same_run s s' /\
               clock_pos s' = clock_pos s.
Proof.
  unfold _should_stop, catch, call_stop_signal, ret, same_run.
  destruct (stop_signal env (stop_pos s)); simpl; eauto 12.
Qed.

Lemma should_stop_true env s s' :
  _should_stop env s = (Ok true, s') ->
  stop_signal env (stop_pos s) = Returns true.
Proof.
  unfold _should_stop, catch, call_stop_signal, ret.
  destruct (stop_signal env (stop_pos s)) as [[|] |]; simpl; congruence.
Qed.

Lemma log_returns env lvl msg ctx s :
  exists s', _log env lvl msg ctx s = (Ok tt, s') /\ same_run s s' /\
             clock_pos s' = S (clock_pos s) /\ stop_pos s' = stop_pos s.
Proof.
  unfold _log, bind, get, time_time, modify, catch, call_logger, ret, same_run.
  simpl.
  destruct (logger env _ 3) as [e |]; simpl; [| eauto 12].
  destruct (is_TypeError e); simpl; [| eauto 12].
  destruct (logger env _ 2); simpl; eauto 12.
Qed.

Lemma cleanup_driver_returns env s :
  exists s', _cleanup_driver env s = (Ok tt, s').
Proof.
  unfold _cleanup_driver, bind, get, finally, catch, drv, modify, ret.
  destruct (_driver s); simpl; [| eauto].
  destruct (driver env (driver_pos s) Quit); simpl; eauto.
Qed.

Lemma bind_Ok_inv {A B} (m : M A) (k : A -> M B) s b s' :
  bind m k s = (Ok b, s') ->
  exists a s1, m s = (Ok a, s1) /\ k a s1 = (Ok b, s').
Proof.
  unfold bind. destruct (m s) as [[a | e |] s1]; intro H; try discriminate.
  eauto.
Qed.

Lemma keeps_Ok {A} Inv E (m : M A) s a s' :
  keeps Inv E m -> Inv s -> m s = (Ok a, s') -> Inv s'.
Proof. intros H Hs Hm. exact (triple_Ok _ _ _ _ _ _ _ H Hs Hm). Qed.

(** A computation that keeps [Inv] and lets nothing escape returns. *)
Lemma keeps_returns {A} Inv (m : M A) s :
  keeps Inv (fun _ => False) m -> Inv s ->
  exists a s', m s = (Ok a, s') /\ Inv s'.
Proof.
  intros H Hs. specialize (H s Hs).
  destruct (m s) as [[a | e |] s']; [eauto | tauto | tauto].
Qed.

(* ------------------------------------------------------------------ *)
(** *** The end of [run] *)

(** What [finalize] does to the failure code. *)
Definition finalized (v v' : Locals) : Prop :=
  loc_attempts v' = loc_attempts v /\
  loc_success v' = loc_success v /\
  (loc_success v = true -> loc_failure_code v' = loc_failure_code v) /\
  (forall c, loc_failure_code v = Some c -> loc_failure_code v' = Some c) /\
  (loc_success v = false -> loc_failure_code v = None ->
   loc_failure_code v' = Some USER_STOP \/
   loc_failure_code v' = Some MAX_RETRIES).

Lemma finalize_returns env v s :
  exists v' s', finalize env v s = (Ok v', s') /\ finalized v v' /\
                same_run s s' /\ clock_pos s' = clock_pos s /\
                _log_entries s' = _log_entries s.
Proof.
  unfold finalize, finalized.
  destruct (loc_success v) eqn:Hs; simpl.
  - exists v, s. unfold ret, same_run. rewrite Hs. repeat split; auto; congruence.
  - destruct (loc_failure_code v) eqn:Hc.
    + exists v, s. unfold ret, same_run. rewrite Hs, Hc.
      repeat split; auto; congruence.
    + unfold bind, get. destruct (phase_eqb (current_phase s) STOPPED).
      * eexists _, s. unfold ret, same_run. simpl.
        repeat split; auto; congruence.
      * unfold _should_stop, catch, call_stop_signal, ret, same_run.
        destruct (stop_signal env (stop_pos s)) as [[|] | e]; simpl;
          eexists _, _; (split; [reflexivity |]); simpl;
          repeat split; auto; congruence.
Qed.

Lemma bind_Ok_eq {A B} (m : M A) (k : A -> M B) s a s1 :
  m s = (Ok a, s1) -> bind m k s = k a s1.
Proof. intro H. unfold bind. rewrite H. reflexivity. Qed.

Lemma finish_run_returns env v s :
  exists v' s' entries,
    finish_run env v s = (Ok (loc_success v), s') /\
    finalized v v' /\
    last_report s' =
      Some (mkReport
              (mkMetrics (_run_start_time s) (clock env (clock_pos s))
                 (loc_attempts v) (loc_success v) (current_phase s)
                 (loc_failure_message v') (loc_failure_code v'))
              entries (phase_history s)) /\
    current_phase s' = current_phase s /\
    phase_history s' = phase_history s.
Proof.
  unfold finish_run.
  destruct (finalize_returns env v (tick_clock s))
    as (v' & s1 & Hfin & Hv & Hsame & _ & _).
  rewrite (bind_Ok_eq _ _ s (clock env (clock_pos s)) (tick_clock s) eq_refl).
  rewrite (bind_Ok_eq _ _ _ _ _ Hfin).
  rewrite (bind_Ok_eq (get _run_start_time) _ s1 _ s1 eq_refl). cbv zeta.
  match goal with |- context [_log env ?l ?m ?c] =>
    destruct (log_returns env l m c s1) as (s2 & Hlog & Hsame2 & _) end.
  rewrite (bind_Ok_eq _ _ _ _ _ Hlog).
  unfold bind, get, modify, ret.
  destruct Hv as (Ha & Hsucc & Hrest).
  destruct Hsame as (H1 & H2 & H3 & H4 & _).
  destruct Hsame2 as (G1 & G2 & G3 & G4 & _). simpl in *.
  eexists v', _, (_log_entries s2).
  rewrite Hsucc. split; [reflexivity |].
  split; [repeat split; tauto |]. simpl.
  rewrite G1, G2, H1, H2, H4, Ha. auto.
Qed.

(* ------------------------------------------------------------------ *)
(** *** What the steps preserve

    [Inv] is any state property that the bookkeeping of the collaborators
    does not disturb; [E] is any class of exceptions that contains what
    the driver raises and what the steps raise themselves.  Each lemma
    depends only on the hypotheses its proof uses. *)

Create HintDb keeps.

Section Steps.

Variable env : Env.
Variable config : AppTicketConfig.
Variable Inv : State -> Prop.
Variable E : exn -> Prop.

Hypothesis Inv_clock : forall s, Inv s -> Inv (tick_clock s).
Hypothesis Inv_stop : forall s, Inv s -> Inv (tick_stop s).
Hypothesis Inv_logger : forall s, Inv s -> Inv (tick_logger s).
Hypothesis Inv_log_entries : forall l s, Inv s -> Inv (with_log_entries l s).
Hypothesis Inv_driver :
  forall c s, is_back c = false -> Inv s -> Inv (tick_driver c s).
Hypothesis Inv_back : forall s, Inv s -> Inv (tick_driver (PressKeycode 4) s).
Hypothesis Inv_with_driver : forall d s, Inv s -> Inv (with_driver d s).
Hypothesis Inv_transition :
  forall p s, is_completed_or_stopped p = false -> Inv s ->
              Inv (transition p s).

Hypothesis E_driver : forall n c e, driver env n c = Raises e -> E e.
Hypothesis E_error : forall msg, E (mkExn TicketRunnerError msg).
Hypothesis E_value_error :
  forall msg, E (mkExn (OtherException "ValueError") msg).
Hypothesis E_stopped :
  forall n msg, stop_signal env n = Returns true ->
                E (mkExn TicketRunnerStopped msg).

Lemma keeps_time_time E' : keeps Inv E' (time_time env).
Proof. intros s Hs. simpl. auto. Qed.

Lemma keeps_call_stop_signal : keeps Inv Top (call_stop_signal env).
Proof.
  intros s Hs. unfold call_stop_signal.
  destruct (stop_signal env (stop_pos s)); simpl; unfold Top; auto.
Qed.

Lemma keeps_call_logger n : keeps Inv Top (call_logger env n).
Proof.
  intros s Hs. unfold call_logger.
  destruct (logger env (logger_pos s) n); simpl; unfold Top; auto.
Qed.

Lemma keeps_drv c : is_back c = false -> keeps Inv E (drv env c).
Proof.
  intros Hc s Hs. unfold drv.
  destruct (driver env (driver_pos s) c) eqn:Hd; simpl; eauto.
Qed.

Lemma keeps_press_back : keeps Inv E (drv env (PressKeycode 4)).
Proof.
  intros s Hs. unfold drv.
  destruct (driver env (driver_pos s) _) eqn:Hd; simpl; eauto.
Qed.

Lemma keeps_wait_until t c l : keeps Inv E (wait_until env t c l).
Proof. apply keeps_drv. reflexivity. Qed.

Lemma keeps_py_strptime t : keeps Inv E (py_strptime env t).
Proof.
  unfold py_strptime. destruct (strptime env t).
  - apply keeps_ret.
  - apply keeps_raise. apply E_value_error.
Qed.

Lemma keeps_modify_log E' l :
  keeps Inv E' (modify (fun s => with_log_entries (l s) s)).
Proof. apply triple_modify. auto. Qed.

Lemma keeps_modify_driver E' d : keeps Inv E' (modify (with_driver d)).
Proof. apply triple_modify. auto. Qed.

Lemma keeps_should_stop E' : keeps Inv E' (_should_stop env).
Proof.
  apply keeps_catch_all;
    [apply keeps_call_stop_signal | intros; apply keeps_ret].
Qed.

Lemma keeps_log E' lvl msg ctx : keeps Inv E' (_log env lvl msg ctx).
Proof.
  unfold _log. apply keeps_bind; [apply keeps_get | intro ph].
  apply keeps_bind; [apply keeps_time_time | intro now].
  apply keeps_bind; [apply keeps_modify_log | intros _].
  apply keeps_catch_all; [apply keeps_call_logger | intro e].
  destruct (is_TypeError e); [| apply keeps_ret].
  apply keeps_catch_all; [apply keeps_call_logger | intros; apply keeps_ret].
Qed.

Lemma keeps_ensure_not_stopped : keeps Inv E (_ensure_not_stopped env).
Proof.
  intros s Hs.
  unfold _ensure_not_stopped, _should_stop, bind, catch, call_stop_signal.
  destruct (stop_signal env (stop_pos s)) as [[|] | e] eqn:Hd; simpl; eauto.
Qed.

Lemma keeps_TicketRunnerError {A} msg :
  keeps Inv E (@TicketRunnerError_ A msg).
Proof. apply keeps_raise. apply E_error. Qed.

Lemma keeps_ensure_driver : keeps Inv E _ensure_driver.
Proof.
  unfold _ensure_driver. apply keeps_bind; [apply keeps_get | intros [h |]].
  - apply keeps_ret.
  - apply keeps_TicketRunnerError.
Qed.

Lemma keeps_require ok msg : keeps Inv E (require ok msg).
Proof.
  unfold require.
  destruct ok; simpl; [apply keeps_ret | apply keeps_raise; apply E_error].
Qed.

Lemma keeps_transition_to E' p :
  is_completed_or_stopped p = false -> keeps Inv E' (_transition_to p).
Proof.
  intros Hp s Hs. rewrite transition_to_eq. auto.
Qed.

Lemma keeps_mark_failure E' : keeps Inv E' _mark_failure.
Proof. intros s Hs. rewrite mark_failure_eq. auto. Qed.

#[local] Hint Resolve keeps_time_time keeps_drv keeps_press_back
  keeps_TicketRunnerError keeps_wait_until keeps_py_strptime keeps_modify_driver
  keeps_should_stop keeps_log keeps_ensure_not_stopped keeps_ensure_driver
  keeps_require keeps_transition_to keeps_mark_failure : keeps.
#[local] Hint Resolve keeps_ret keeps_get keeps_sleep keeps_raise : keeps.

Ltac keeps_leaf :=
  first [ solve [auto with keeps]
        | solve [apply (keeps_top (E:=E)); auto with keeps] ].

Ltac keeps_step :=
  match goal with
  | |- forall _, _ => intro
  | |- keeps _ _ (bind _ _) => apply keeps_bind
  | |- keeps _ _ (catch _ (fun e => if is_TimeoutException e
                                    then _ else raise e)) =>
      apply keeps_catch_some
  | |- keeps _ _ (catch _ _) => apply keeps_catch_all
  | |- keeps _ _ (finally _ _) => apply keeps_finally
  | |- keeps _ _ (for_each _ _) => apply keeps_for_each
  | |- keeps _ _ (if ?b then _ else _) => destruct b
  | |- keeps _ _ (match ?x with _ => _ end) => destruct x
  | |- keeps _ _ _ => keeps_leaf
  end.

Ltac keeps_go := repeat keeps_step.

Lemma keeps_smart_click_first t sels :
  keeps Inv E (smart_click_first env t sels).
Proof. induction sels as [| l rest IH]; simpl; keeps_go. Qed.

Lemma keeps_smart_wait_and_click l b t :
  keeps Inv E (_smart_wait_and_click env l b t).
Proof.
  unfold _smart_wait_and_click. keeps_go. apply keeps_smart_click_first.
Qed.

Lemma keeps_find_first c sels : keeps Inv E (find_first env c sels).
Proof. induction sels as [| x rest IH]; simpl; keeps_go. Qed.

Lemma keeps_parse_quantity t : keeps Inv Top (parse_quantity t).
Proof.
  unfold parse_quantity. destruct (py_int _).
  - apply keeps_ret.
  - apply keeps_raise. exact I.
Qed.

Lemma keeps_press_back_until_home n :
  keeps Inv E (press_back_until_home env n).
Proof. induction n as [| k IH]; simpl; keeps_go. Qed.

#[local] Hint Resolve keeps_smart_wait_and_click keeps_find_first
  keeps_parse_quantity keeps_press_back_until_home : keeps.

Lemma keeps_navigate_to_homepage : keeps Inv E (_navigate_to_homepage env).
Proof. unfold _navigate_to_homepage. keeps_go. Qed.

Lemma keeps_enter_city_selection c : keeps Inv E (enter_city_selection env c).
Proof. unfold enter_city_selection. keeps_go. Qed.

Lemma keeps_get_visible_cities c : keeps Inv E (get_visible_cities env c).
Proof. unfold get_visible_cities. keeps_go. Qed.

#[local] Hint Resolve keeps_enter_city_selection keeps_get_visible_cities
  : keeps.

Lemma keeps_select_city c : keeps Inv E (_select_city env c).
Proof. unfold _select_city. keeps_go. Qed.

Lemma keeps_type_keyword kw : keeps Inv E (type_keyword env kw).
Proof. unfold type_keyword. keeps_go. Qed.

Lemma keeps_pick_suggestion : keeps Inv E (pick_suggestion env).
Proof. unfold pick_suggestion. keeps_go. Qed.

#[local] Hint Resolve keeps_type_keyword keeps_pick_suggestion : keeps.

Lemma keeps_search_event kw a b : keeps Inv E (_search_event env kw a b).
Proof. unfold _search_event. keeps_go. Qed.

Lemma keeps_tap_purchase_button : keeps Inv E (_tap_purchase_button env).
Proof. unfold _tap_purchase_button. keeps_go. Qed.

Lemma keeps_select_viewer i : keeps Inv E (select_viewer env i).
Proof. unfold select_viewer. keeps_go. Qed.

#[local] Hint Resolve keeps_select_viewer : keeps.

Lemma keeps_select_viewers : keeps Inv E (select_viewers env).
Proof. unfold select_viewers. keeps_go. Qed.

#[local] Hint Resolve keeps_select_viewers : keeps.

Lemma keeps_select_theme_dialog : keeps Inv E (_select_theme_dialog env).
Proof. unfold _select_theme_dialog. keeps_go. Qed.

Lemma keeps_select_date : keeps Inv E (_select_date env config).
Proof. unfold _select_date. keeps_go. Qed.

Lemma keeps_select_session : keeps Inv E (_select_session env config).
Proof. unfold _select_session. keeps_go. Qed.

Lemma keeps_select_price : keeps Inv E (_select_price env config).
Proof. unfold _select_price. keeps_go. Qed.

Lemma keeps_select_quantity : keeps Inv E (_select_quantity env config).
Proof. unfold _select_quantity. keeps_go. Qed.

Lemma keeps_confirm_purchase : keeps Inv E (_confirm_purchase env).
Proof. unfold _confirm_purchase. keeps_go. Qed.

Lemma keeps_apply_driver_settings E' :
  keeps Inv E' (_apply_driver_settings env).
Proof.
  unfold _apply_driver_settings.
  apply keeps_bind; [apply keeps_get | intros [h |]]; [| apply keeps_ret].
  apply keeps_catch_all; [| intro; apply keeps_log].
  apply (keeps_top (E:=E)). keeps_go.
Qed.

Lemma keeps_create_driver : keeps Inv E (_create_driver env config).
Proof. unfold _create_driver. keeps_go. Qed.

Lemma keeps_cleanup_driver E' : keeps Inv E' (_cleanup_driver env).
Proof.
  unfold _cleanup_driver.
  apply keeps_bind; [apply keeps_get | intros [h |]]; [| apply keeps_ret].
  apply keeps_finally; [| apply keeps_modify_driver].
  apply keeps_catch_all; [| intro; apply keeps_ret].
  apply (keeps_top (E:=E)). keeps_go.
Qed.

#[local] Hint Resolve keeps_navigate_to_homepage keeps_select_city
  keeps_search_event keeps_tap_purchase_button keeps_select_theme_dialog
  keeps_select_date keeps_select_session keeps_select_price
  keeps_select_quantity keeps_confirm_purchase keeps_apply_driver_settings
  keeps_create_driver keeps_cleanup_driver : keeps.

Lemma keeps_prepare_retry E' n : keeps Inv E' (prepare_retry env config n).
Proof.
  unfold prepare_retry.
  apply keeps_bind; [apply keeps_get | intros d].
  apply keeps_bind.
  { destruct d; [apply keeps_ret |].
    apply keeps_catch_all; [| intro; apply keeps_log].
    apply (keeps_top (E:=E)). keeps_go. }
  intros _. apply keeps_bind; [apply keeps_get | intros d'].
  apply keeps_bind.
  { destruct d'; [| apply keeps_ret].
    apply keeps_catch_all; [| intro; apply keeps_log].
    apply (keeps_top (E:=E)). keeps_go. }
  intros _. apply keeps_bind; [apply keeps_log | intros _; apply keeps_sleep].
Qed.

Lemma keeps_may_attempt E' m v : keeps Inv E' (may_attempt env m v).
Proof.
  unfold may_attempt. destruct (_ <? _); [| apply keeps_ret].
  apply keeps_bind; [apply keeps_should_stop | intro; apply keeps_ret].
Qed.

Lemma keeps_end_attempt E' m v : keeps Inv E' (end_attempt env config m v).
Proof.
  unfold end_attempt. apply keeps_bind.
  - destruct (_ && _); [| apply keeps_ret].
    apply keeps_bind; [apply keeps_should_stop | intro; apply keeps_ret].
  - intros [|]; [apply keeps_prepare_retry | apply keeps_ret].
Qed.

Lemma keeps_finalize E' v : keeps Inv E' (finalize env v).
Proof.
  unfold finalize. destruct (negb _); [| apply keeps_ret].
  destruct (loc_failure_code v); [apply keeps_ret |].
  apply keeps_bind; [apply keeps_get | intro cur].
  apply keeps_bind.
  - destruct (phase_eqb _ _); [apply keeps_ret | apply keeps_should_stop].
  - intros [|]; apply keeps_ret.
Qed.

(* ------------------------------------------------------------------ *)
(** *** One attempt, with the phase bookkeeping

    [Inv] holds while an attempt is under way, [Done] once the flow has
    completed and [Halted] once a stop has been recorded. *)

Variable Done : State -> Prop.
Variable Halted : State -> Prop.

Hypothesis Done_intro : forall s, Inv s -> Done (transition COMPLETED s).
Hypothesis Halted_intro : forall s, Inv s -> Halted (transition STOPPED s).
Hypothesis Halted_again : forall s, Halted s -> Halted (transition STOPPED s).
Hypothesis Done_cleanup : forall s, Done s -> Done (snd (_cleanup_driver env s)).
Hypothesis Halted_cleanup :
  forall s, Halted s -> Halted (snd (_cleanup_driver env s)).
Hypothesis Done_log :
  forall lvl msg ctx s, Done s -> Done (snd (_log env lvl msg ctx s)).
Hypothesis Halted_log :
  forall lvl msg ctx s, Halted s -> Halted (snd (_log env lvl msg ctx s)).

(** During an attempt an exception leaves the state in [Inv]. *)
Definition raised_within (e : exn) (s : State) : Prop := Inv s /\ E e.

Lemma triple_bind_keeps {A B} (m : M A) (k : A -> M B) Q :
  keeps Inv E m ->
  (forall a, triple Inv (k a) Q raised_within) ->
  triple Inv (bind m k) Q raised_within.
Proof. intros Hm Hk. eapply triple_bind; [exact Hm | exact Hk]. Qed.

Ltac spine :=
  repeat (apply triple_bind_keeps; [solve [keeps_go] | intro]).

(** The flow either raises or goes through to [COMPLETED] and returns
    [True]. *)
Lemma flow_steps_spec skip :
  triple Inv (flow_steps env config skip)
    (fun b s => Done s /\ b = true) raised_within.
Proof.
  unfold flow_steps. spine.
  eapply triple_bind with (Q1 := fun _ => Done).
  - intros s Hs. rewrite transition_to_eq. auto.
  - intros _. apply triple_ret. auto.
Qed.

(** Without a configured session index the flow cannot get past the
    session step; likewise for the price index. *)
Ltac spine_until stop_at :=
  repeat match goal with
         | |- triple _ (bind ?m _) _ _ =>
             tryif constr_eq m stop_at then fail
             else (apply triple_bind_keeps; [solve [keeps_go] | intro])
         end.

Lemma flow_steps_unconfigured skip :
  session_index config = None \/ price_index config = None ->
  triple Inv (flow_steps env config skip) (fun _ _ => False) raised_within.
Proof.
  intros [Hcfg | Hcfg]; unfold flow_steps.
  - spine_until (_select_session env config).
    intros s Hs. unfold _select_session. rewrite Hcfg. simpl.
    split; [exact Hs | apply E_error].
  - spine_until (_select_price env config).
    intros s Hs. unfold _select_price. rewrite Hcfg. simpl.
    split; [exact Hs | apply E_error].
Qed.

(** From here on the flow is only known through its specification, so
    that either of the two lemmas above can be plugged in. *)
Hypothesis flow_spec :
  forall skip,
    triple Inv (flow_steps env config skip)
      (fun b s => Done s /\ b = true) raised_within.

(** How an attempt can end in an exception: a stop leaves the state in
    [Inv] or in [Halted], anything else leaves it in [Inv]. *)
Definition attempt_raised (e : exn) (s : State) : Prop :=
  E e /\ if is_TicketRunnerStopped e then Inv s \/ Halted s else Inv s.

Lemma perform_ticket_flow_spec skip :
  triple Inv (_perform_ticket_flow env config skip)
    (fun b s => Done s /\ b = true)
    (fun e s => E e /\ if is_TicketRunnerStopped e then Halted s else Inv s).
Proof.
  unfold _perform_ticket_flow.
  eapply triple_catch; [apply flow_spec |].
  intros e s [Hs He]. unfold bind.
  destruct (is_TicketRunnerStopped e) eqn:Hstop.
  - rewrite mark_stopped_eq. simpl. rewrite Hstop. auto.
  - destruct (is_TicketRunnerError e); rewrite mark_failure_eq; simpl.
    + rewrite Hstop. auto.
    + split; [apply E_error |]. apply Inv_transition; auto.
Qed.

Lemma triple_bind_attempt {A B} (m : M A) (k : A -> M B) Q :
  keeps Inv E m ->
  (forall a, triple Inv (k a) Q attempt_raised) ->
  triple Inv (bind m k) Q attempt_raised.
Proof.
  intros Hm Hk. eapply triple_bind; [| exact Hk].
  eapply triple_conseq; [exact Hm | auto | intros a s Hs; exact Hs |].
  intros e s [Hs He]. split; [exact He |].
  destruct (is_TicketRunnerStopped e); auto.
Qed.

Lemma execute_once_spec skip :
  triple Inv (_execute_once env config skip)
    (fun b s => Done s /\ b = true) attempt_raised.
Proof.
  unfold _execute_once.
  intros s Hs. unfold finally.
  match goal with |- context [match ?body s with _ => _ end] =>
    assert (Hbody : triple Inv body
                      (fun b s => Done s /\ b = true) attempt_raised);
    [| specialize (Hbody s Hs);
       destruct (body s) as [[b | e |] s1]; [| | exact Hbody] ]
  end.
  { repeat (apply triple_bind_attempt; [solve [keeps_go] | intro]).
    eapply triple_conseq; [apply perform_ticket_flow_spec | auto | auto |].
    intros e s' [He Hs']. split; [exact He |].
    destruct (is_TicketRunnerStopped e); auto. }
  - destruct Hbody as [Hd Hb].
    destruct (negb skip); simpl; [| auto].
    specialize (Done_cleanup s1 Hd).
    destruct (cleanup_driver_returns env s1) as [s2 Hc].
    rewrite Hc in *. simpl in *. auto.
  - destruct Hbody as [He Hi].
    destruct (negb skip); simpl; [| split; auto].
    assert (Hinv : Inv s1 -> Inv (snd (_cleanup_driver env s1)))
      by (apply (keeps_snd Inv Top); apply keeps_cleanup_driver).
    specialize (Halted_cleanup s1).
    destruct (cleanup_driver_returns env s1) as [s2 Hc].
    rewrite Hc in *. simpl in *. split; [exact He |].
    destruct (is_TicketRunnerStopped e); tauto.
Qed.

(** The codes an attempt that failed leaves behind. *)
Definition failed_code (c : option FailureReason) : Prop :=
  c = Some APPIUM_CONNECTION \/ c = Some FLOW_FAILURE \/ c = Some UNEXPECTED.

(** The [try] statement of the loop body: it never raises, it keeps the
    attempt counter, and it ends in one of three ways. *)
Definition attempt_outcome (v : Locals) (r : Control * Locals) (s : State)
  : Prop :=
  loc_attempts (snd r) = loc_attempts v /\
  match fst r with
  | Break =>
      (loc_success (snd r) = true /\ Done s) \/
      (loc_success (snd r) = loc_success v /\
       loc_failure_code (snd r) = Some USER_STOP /\ Halted s /\
       exists e, E e /\ is_TicketRunnerStopped e = true)
  | Next =>
      loc_success (snd r) = loc_success v /\
      failed_code (loc_failure_code (snd r)) /\ Inv s
  end.

Lemma diagnose_failed_code e :
  is_TicketRunnerStopped e = false ->
  failed_code (Some (fst (_diagnose_failure e))).
Proof.
  intro H. unfold _diagnose_failure, failed_code. rewrite H.
  destruct (is_TicketRunnerError e); [| simpl; auto].
  destruct (contains _ _); simpl; auto.
Qed.

Lemma try_attempt_spec v :
  triple Inv (try_attempt env config v) (attempt_outcome v)
    (fun _ _ => False).
Proof.
  unfold try_attempt. eapply triple_catch with (X1 := attempt_raised).
  - eapply triple_bind with (Q1 := fun _ => Inv); [apply triple_get; auto |].
    intro d. eapply triple_bind; [apply execute_once_spec |].
    intros ok s [Hd Hok]. subst ok. unfold bind.
    specialize (Done_log SUCCESS "抢票流程执行完成"
                  [("attempt", CInt (loc_attempts v))] s Hd).
    destruct (log_returns env SUCCESS "抢票流程执行完成"
                [("attempt", CInt (loc_attempts v))] s) as (s' & Hl & _).
    rewrite Hl in *. simpl in *. split; [reflexivity | left; auto].
  - intros e s [He Hs]. unfold bind.
    destruct (is_TicketRunnerStopped e) eqn:Hstop.
    + rewrite mark_stopped_eq.
      match goal with |- context [_log env ?l ?m ?c ?st] =>
        pose proof (Halted_log l m c st) as Hh;
        destruct (log_returns env l m c st) as (s' & Hl & _); rewrite Hl in *
      end.
      simpl in *. split; [reflexivity | right].
      repeat split; auto.
      * apply Hh. destruct Hs; auto.
      * exists e. auto.
    + assert (Hf : Inv (transition FAILED s)) by (apply Inv_transition; auto).
      destruct (is_TicketRunnerError e); rewrite mark_failure_eq;
        match goal with |- context [_log env ?l ?m ?c ?st] =>
          pose proof (keeps_snd Inv Top _ st (keeps_log Top l m c) Hf) as Hh;
          destruct (log_returns env l m c st) as (s' & Hl & _); rewrite Hl in *
        end; simpl in *.
      * split; [reflexivity |]. split; [reflexivity |].
        split; [apply diagnose_failed_code; exact Hstop | exact Hh].
      * split; [reflexivity |]. split; [reflexivity |].
        split; [unfold failed_code; auto | exact Hh].
Qed.

(* ------------------------------------------------------------------ *)
(** *** The attempt loop and the scheduled wait *)

(** The local variables whenever the loop test is evaluated. *)
Definition at_loop_head (max_retries : Z) (v : Locals) : Prop :=
  0 <= loc_attempts v <= max_retries /\
  loc_success v = false /\
  (loc_attempts v = 0 -> loc_failure_code v = None) /\
  (1 <= loc_attempts v -> failed_code (loc_failure_code v)).

(** The three ways the loop ends: an attempt succeeded; an attempt was
    stopped; or the loop test failed, the budget being used up or the
    stop signal being set. *)
Definition loop_outcome (max_retries : Z) (v : Locals) (s : State) : Prop :=
  0 <= loc_attempts v <= max_retries /\
  ((loc_success v = true /\ 1 <= loc_attempts v /\ Done s) \/
   (loc_success v = false /\ 1 <= loc_attempts v /\
    loc_failure_code v = Some USER_STOP /\ Halted s /\
    exists e, E e /\ is_TicketRunnerStopped e = true) \/
   (loc_success v = false /\ Inv s /\
    (loc_attempts v = 0 -> loc_failure_code v = None) /\
    (1 <= loc_attempts v -> failed_code (loc_failure_code v)) /\
    (loc_attempts v = max_retries \/
     exists n, stop_signal env n = Returns true))).

Lemma may_attempt_inv max_retries v s enter s1 :
  may_attempt env max_retries v s = (Ok enter, s1) ->
  if enter then loc_attempts v < max_retries
  else max_retries <= loc_attempts v \/
       exists n, stop_signal env n = Returns true.
Proof.
  unfold may_attempt. destruct (loc_attempts v <? max_retries) eqn:Hlt.
  - intro H. apply bind_Ok_inv in H. destruct H as (stop & s0 & Hstop & Hret).
    inversion Hret; subst. destruct stop; simpl.
    + right. eexists. eapply should_stop_true. exact Hstop.
    + apply Z.ltb_lt. exact Hlt.
  - intro H. inversion H; subst. left. apply Z.ltb_ge. exact Hlt.
Qed.

Lemma loop_exit max_retries v s :
  Inv s -> at_loop_head max_retries v ->
  (max_retries <= loc_attempts v \/
   exists n, stop_signal env n = Returns true) ->
  loop_outcome max_retries v s.
Proof.
  intros Hs (Hrange & Hsucc & Hzero & Hpos) Hexit.
  split; [exact Hrange |]. right; right. repeat split; auto.
  destruct Hexit as [Hge | Hstop]; [left; lia | right; exact Hstop].
Qed.

Lemma attempt_loop_spec max_retries fuel :
  forall v s v' s',
    Inv s -> at_loop_head max_retries v ->
    attempt_loop env config fuel max_retries v s = (Ok v', s') ->
    loop_outcome max_retries v' s'.
Proof.
  induction fuel as [| fuel IH]; intros v s v' s' Hs Hv Hrun;
    simpl in Hrun; apply bind_Ok_inv in Hrun;
    destruct Hrun as (enter & s1 & Hmay & Hrun);
    assert (Hs1 : Inv s1)
      by (eapply keeps_Ok;
          [apply (keeps_may_attempt Top) | exact Hs | exact Hmay]);
    apply may_attempt_inv in Hmay; destruct enter; cbv beta iota in Hrun;
    try (inversion Hrun; subst v' s'; apply loop_exit; assumption).
  (* the loop body *)
  destruct Hv as (Hrange & Hsucc & Hzero & Hpos).
  apply bind_Ok_inv in Hrun.
  destruct Hrun as ([ctl v1] & s2 & Hbegin & Hrun).
  { unfold begin_attempt in Hbegin. apply bind_Ok_inv in Hbegin.
    destruct Hbegin as ([] & s3 & Hlog & Htry).
    assert (Hs3 : Inv s3)
      by (eapply keeps_Ok; [apply (keeps_log Top) | exact Hs1 | exact Hlog]).
    pose proof (triple_Ok _ _ _ _ _ _ _ (try_attempt_spec _) Hs3 Htry) as Hout.
    destruct Hout as [Hn Hout]. simpl in Hn, Hout.
    destruct ctl.
    + inversion Hrun; subst v' s'. split; [lia |].
      destruct Hout as [[Hok Hd] | (Hsame & Hcode & Hh & He)].
      * left. repeat split; auto; lia.
      * right; left. repeat split; auto; try lia. congruence.
    + destruct Hout as (Hsame & Hcode & Hs2).
      apply bind_Ok_inv in Hrun. destruct Hrun as ([] & s4 & Hend & Hrun).
      assert (Hs4 : Inv s4)
        by (eapply keeps_Ok;
            [apply (keeps_end_attempt Top) | exact Hs2 | exact Hend]).
      apply (IH v1 s4 v' s' Hs4); [| exact Hrun].
      repeat split; try lia; try congruence. }
Qed.

Lemma wait_for_start_spec start fuel :
  forall w s b s',
    Inv s -> wait_for_start env fuel start w s = (Ok b, s') ->
    if b then Halted s' else Inv s'.
Proof.
  induction fuel as [| fuel IH]; intros w s b s' Hs Hrun; simpl in Hrun;
    destruct (0 <? w).
  - discriminate Hrun.
  - inversion Hrun; subst; exact Hs.
  - apply bind_Ok_inv in Hrun. destruct Hrun as (stop & s1 & Hstop & Hrun).
    assert (Hs1 : Inv s1)
      by (eapply keeps_Ok; [apply (keeps_should_stop Top) | exact Hs | exact Hstop]).
    destruct stop.
    + unfold bind in Hrun. rewrite mark_stopped_eq in Hrun.
      inversion Hrun; subst. apply Halted_intro. exact Hs1.
    + simpl in Hrun. unfold bind at 1 in Hrun. simpl in Hrun.
      eapply IH; [| exact Hrun]. apply Inv_clock. exact Hs1.
  - inversion Hrun; subst; exact Hs.
Qed.

Lemma begin_run_spec fuel start s b s' :
  Inv (snd (reset_for_run env s)) ->
  begin_run env fuel start s = (Ok b, s') ->
  if b then Halted s' else Inv s'.
Proof.
  unfold begin_run. intros Hs0 Hrun.
  apply bind_Ok_inv in Hrun. destruct Hrun as ([] & s0 & Hreset & Hrun).
  rewrite Hreset in Hs0. simpl in Hs0. clear Hreset.
  unfold scheduled_wait in Hrun.
  apply bind_Ok_inv in Hrun. destruct Hrun as (future & s1 & Hfut & Hrun).
  assert (Hs1 : Inv s1).
  { unfold start_in_future in Hfut. destruct start as [t |].
    - destruct (t =? 0); [inversion Hfut; subst; exact Hs0 |].
      apply bind_Ok_inv in Hfut. destruct Hfut as (now & s2 & Hnow & Hfut).
      inversion Hnow; subst.
      destruct (_ <? t); inversion Hfut; subst; apply Inv_clock; exact Hs0.
    - inversion Hfut; subst; exact Hs0. }
  destruct future as [t |]; [| inversion Hrun; subst; exact Hs1].
  apply bind_Ok_inv in Hrun. destruct Hrun as (now & s2 & Hnow & Hrun).
  inversion Hnow; subst now s2; clear Hnow.
  apply bind_Ok_inv in Hrun. destruct Hrun as ([] & s3 & Hlog & Hrun).
  assert (Hs3 : Inv s3).
  { eapply keeps_Ok; [apply (keeps_log Top) | | exact Hlog].
    apply Inv_clock. exact Hs1. }
  apply bind_Ok_inv in Hrun. destruct Hrun as (returned & s4 & Hwait & Hrun).
  pose proof (wait_for_start_spec _ _ _ _ _ _ Hs3 Hwait) as Hs4.
  destruct returned.
  - inversion Hrun; subst. exact Hs4.
  - apply bind_Ok_inv in Hrun. destruct Hrun as ([] & s5 & Hlog' & Hrun).
    inversion Hrun; subst.
    eapply keeps_Ok; [apply (keeps_log Top) | exact Hs4 | exact Hlog'].
Qed.

(** The two ways [run] returns: early, out of the scheduled wait, with
    the stop recorded; or through the attempt loop and the report. *)
Definition run_outcome (fuel : nat) (max_retries : Z) (start : option Z)
  (s : State) (b : bool) (s' : State) : Prop :=
  (b = false /\ Halted s' /\ begin_run env fuel start s = (Ok true, s')) \/
  exists v v' s1 entries,
    loop_outcome (Z.max 1 max_retries) v s1 /\
    finalized v v' /\
    b = loc_success v /\
    last_report s' =
      Some (mkReport
              (mkMetrics (_run_start_time s1) (clock env (clock_pos s1))
                 (loc_attempts v) (loc_success v) (current_phase s1)
                 (loc_failure_message v') (loc_failure_code v'))
              entries (phase_history s1)) /\
    current_phase s' = current_phase s1 /\
    phase_history s' = phase_history s1.

Lemma run_spec fuel max_retries start s b s' :
  Inv (snd (reset_for_run env s)) ->
  run env config fuel max_retries start s = (Ok b, s') ->
  run_outcome fuel max_retries start s b s'.
Proof.
  unfold run. intros Hreset Hrun.
  apply bind_Ok_inv in Hrun. destruct Hrun as (returned & s0 & Hbegin & Hrun).
  pose proof Hbegin as Hbegin'.
  apply begin_run_spec in Hbegin; [| exact Hreset]. destruct returned.
  - inversion Hrun; subst. left. auto.
  - cbv zeta in Hrun. apply bind_Ok_inv in Hrun.
    destruct Hrun as (v & s1 & Hloop & Hfinish).
    apply attempt_loop_spec in Hloop; [| exact Hbegin |].
    + destruct (finish_run_returns env v s1)
        as (v' & s2 & entries & Hret & Hfin & Hrep & Hph & Hhist).
      rewrite Hret in Hfinish. inversion Hfinish; subst b s'.
      right. exists v, v', s1, entries. auto 10.
    + unfold at_loop_head, no_attempt_yet. simpl.
      repeat split; try lia; auto.
Qed.

End Steps.

(* ================================================================== *)
(** ** Instances of the logic *)

(** The property that holds of every state. *)
Definition Always : State -> Prop := fun _ => True.

Ltac always := intros; try exact I; unfold Always, Top; auto.

Lemma flow_always env config skip :
  triple Always (flow_steps env config skip)
    (fun b s => Always s /\ b = true) (raised_within Always Top).
Proof. apply flow_steps_spec; always. Qed.

Lemma try_attempt_always env config v :
  triple Always (try_attempt env config v)
    (attempt_outcome Always Top Always Always v) (fun _ _ => False).
Proof. apply try_attempt_spec; always. apply flow_always. Qed.

Lemma run_always env config fuel max_retries start s b s' :
  run env config fuel max_retries start s = (Ok b, s') ->
  run_outcome env Always Top Always Always fuel max_retries start s b s'.
Proof.
  eapply run_spec; always. apply flow_always.
Qed.

(** [run] leaves no report behind when it returns out of the scheduled
    wait. *)
Lemma begin_run_early env fuel start s s' :
  begin_run env fuel start s = (Ok true, s') -> last_report s' = None.
Proof.
  intro H.
  apply (begin_run_spec env (fun s => last_report s = None)) 
    with (Halted := fun s => last_report s = None) in H; auto.
  intros s0 Hs0. unfold transition. destruct (phase_eqb _ _); auto.
Qed.

(** A run that stored a report went through the attempt loop. *)
Lemma run_reported env Inv E Done Halted fuel max_retries start s b s' r :
  run_outcome env Inv E Done Halted fuel max_retries start s b s' ->
  last_report s' = Some r ->
  exists v v' s1,
    loop_outcome env Inv E Done Halted (Z.max 1 max_retries) v s1 /\
    finalized v v' /\
    b = loc_success v /\
    metrics r =
      mkMetrics (_run_start_time s1) (clock env (clock_pos s1))
        (loc_attempts v) (loc_success v) (current_phase s1)
        (loc_failure_message v') (loc_failure_code v') /\
    report_phase_history r = phase_history s1 /\
    current_phase s' = current_phase s1 /\
    phase_history s' = phase_history s1.
Proof.
  intros [(_ & _ & Hearly) | (v & v' & s1 & entries & H)] Hr.
  - apply begin_run_early in Hearly. congruence.
  - destruct H as (Hloop & Hfin & Hb & Hrep & Hph & Hhist).
    rewrite Hrep in Hr. inversion Hr; subst r. simpl.
    exists v, v', s1. auto 10.
Qed.

(** The first attempt of a run succeeds: the run gets to the loop, the
    loop test lets it in, and the first [try] ends with [success] set. *)
Definition first_attempt_succeeds (env : Env) (config : AppTicketConfig)
  (fuel : nat) (max_retries : Z) (start : option Z) (s : State) : bool :=
  match begin_run env fuel start s with
  | (Ok false, s0) =>
      match may_attempt env (Z.max 1 max_retries) no_attempt_yet s0 with
      | (Ok true, s1) =>
          match begin_attempt env config (Z.max 1 max_retries)
                  no_attempt_yet s1 with
          | (Ok (Break, v), _) => loc_success v
          | _ => false
          end
      | _ => false
      end
  | _ => false
  end.

Lemma first_success_counts_one env config fuel max_retries start s b s' r :
  run env config fuel max_retries start s = (Ok b, s') ->
  last_report s' = Some r ->
  first_attempt_succeeds env config fuel max_retries start s = true ->
  attempts (metrics r) = 1 /\ b = true.
Proof.
  unfold run, first_attempt_succeeds. intros Hrun Hr Hfirst.
  unfold bind at 1 in Hrun.
  destruct (begin_run env fuel start s) as [[[|] | e |] s0]; try discriminate.
  cbv zeta in Hrun. unfold bind at 1 in Hrun.
  destruct fuel as [| fuel]; simpl in Hrun; unfold bind at 1 in Hrun;
    destruct (may_attempt env (Z.max 1 max_retries) no_attempt_yet s0)
      as [[[|] | e |] s1]; try discriminate.
  unfold bind at 1 in Hrun.
  destruct (begin_attempt env config (Z.max 1 max_retries) no_attempt_yet s1)
    as [[[[|] v] | e |] s2] eqn:Hbegin; try discriminate.
  unfold ret in Hrun.
  unfold begin_attempt in Hbegin. apply bind_Ok_inv in Hbegin.
  destruct Hbegin as ([] & s3 & _ & Htry).
  pose proof (triple_Ok _ _ _ _ _ _ _ (try_attempt_always env config _) I Htry)
    as [Hn _]. simpl in Hn.
  destruct (finish_run_returns env v s2)
    as (v' & s4 & entries & Hret & Hfin & Hrep & _).
  rewrite Hret in Hrun. inversion Hrun; subst b s'.
  rewrite Hrep in Hr. inversion Hr; subst r. simpl. split; [lia | exact Hfirst].
Qed.

(** C5: the attempt counter a run reports lies between 0 and the clamped
    budget [max(1, max_retries)], hence never exceeds [max_retries] when
    that is at least 1; it is exactly 1 when the first attempt succeeds;
    and a budget below 1 behaves as a budget of 1. *)
Theorem attempts_within_budget env config fuel max_retries start s b s' r :
  run env config fuel max_retries start s = (Ok b, s') ->
  last_report s' = Some r ->
  0 <= attempts (metrics r) <= Z.max 1 max_retries /\
  (1 <= max_retries -> attempts (metrics r) <= max_retries) /\
  (first_attempt_succeeds env config fuel max_retries start s = true ->
   attempts (metrics r) = 1) /\
  (max_retries < 1 ->
   run env config fuel max_retries start s = run env config fuel 1 start s).
Proof.
  intros Hrun Hr.
  pose proof (run_reported _ _ _ _ _ _ _ _ _ _ _ _ (run_always _ _ _ _ _ _ _ _ Hrun) Hr)
    as (v & v' & s1 & Hloop & _ & _ & Hm & _).
  destruct Hloop as [Hrange _]. rewrite Hm. simpl.
  repeat split; try lia.
  - intro Hfirst.
    pose proof (first_success_counts_one _ _ _ _ _ _ _ _ _ Hrun Hr Hfirst) as [H _].
    rewrite Hm in H. exact H.
  - intro Hlt. unfold run.
    replace (Z.max 1 max_retries) with (Z.max 1 1) by lia. reflexivity.
Qed.

Lemma attempts_within_budget_witness :
  exists b s' r,
    run env_cooperative sample_config 3 3 None post_init = (Ok b, s') /\
    last_report s' = Some r /\
    0 <= attempts (metrics r) <= 3 /\ attempts (metrics r) = 1.
Proof.
  pose (out := run env_cooperative sample_config 3 3 None post_init).
  assert (Hrun : run env_cooperative sample_config 3 3 None post_init
                 = (Ok true, snd out)) by (vm_compute; reflexivity).
  destruct (last_report (snd out)) as [r |] eqn:Hr;
    [| vm_compute in Hr; discriminate].
  exists true, (snd out), r.
  split; [exact Hrun |]. split; [exact Hr |].
  destruct (attempts_within_budget env_cooperative sample_config 3 3 None
              post_init _ _ r Hrun Hr) as (H1 & _ & H3 & _).
  split; [exact H1 | apply H3; vm_compute; reflexivity].
Defined.

(* ------------------------------------------------------------------ *)
(** *** No stop exception without a stop request *)

Definition not_stopped (e : exn) : Prop := is_TicketRunnerStopped e = false.

Section NoStop.

Variable env : Env.
Variable config : AppTicketConfig.
Hypothesis never_asked : forall n, stop_signal env n <> Returns true.
Hypothesis driver_foreign :
  forall n c e, driver env n c = Raises e -> is_TicketRunnerStopped e = false.

Lemma flow_not_stopped skip :
  triple Always (flow_steps env config skip)
    (fun b s => Always s /\ b = true) (raised_within Always not_stopped).
Proof.
  apply flow_steps_spec; always; try reflexivity.
  - eapply driver_foreign; eauto.
  - exfalso. eapply never_asked; eauto.
Qed.

Lemma run_not_stopped fuel max_retries start s b s' :
  run env config fuel max_retries start s = (Ok b, s') ->
  run_outcome env Always not_stopped Always Always fuel max_retries start s b s'.
Proof.
  eapply run_spec; always; try reflexivity.
  - eapply driver_foreign; eauto.
  - exfalso. eapply never_asked; eauto.
  - apply flow_not_stopped.
Qed.

End NoStop.

(** The spec's wording: a run that uses up its budget without success and
    without a stop request reports [MAX_RETRIES]. *)
Definition exhaustion_reports_MAX_RETRIES (env : Env)
  (config : AppTicketConfig) (fuel : nat) (max_retries : Z)
  (start : option Z) (s : State) : Prop :=
  (forall n, stop_signal env n <> Returns true) ->
  forall s' r,
    run env config fuel max_retries start s = (Ok false, s') ->
    last_report s' = Some r ->
    attempts (metrics r) = Z.max 1 max_retries ->
    failure_code (metrics r) = Some MAX_RETRIES /\ success (metrics r) = false.




(* ------------------------------------------------------------------ *)
(** *** Runs without a session or price index *)

Section Unconfigured.

Variable env : Env.
Variable config : AppTicketConfig.
Hypothesis unconfigured :
  session_index config = None \/ price_index config = None.

Definition Never : State -> Prop := fun _ => False.

Lemma flow_unconfigured skip :
  triple Always (flow_steps env config skip)
    (fun b s => Never s /\ b = true) (raised_within Always Top).
Proof.
  eapply triple_conseq;
    [apply (flow_steps_unconfigured env config Always Top) | | |];
    always; tauto.
Qed.

Lemma run_unconfigured fuel max_retries start s b s' :
  run env config fuel max_retries start s = (Ok b, s') ->
  run_outcome env Always Top Never Always fuel max_retries start s b s'.
Proof.
  eapply run_spec; always; try (unfold Never in *; tauto).
  apply flow_unconfigured.
Qed.

Lemma execute_once_unconfigured skip s b s' :
  _execute_once env config skip s <> (Ok b, s').
Proof.
  intro H.
  assert (Hspec : triple Always (_execute_once env config skip)
            (fun b s => Never s /\ b = true)
            (attempt_raised Always Top Always)).
  { apply execute_once_spec; always; try (unfold Never in *; tauto).
    apply flow_unconfigured. }
  destruct (triple_Ok _ _ _ _ _ _ _ Hspec I H) as [[] _].
Qed.

End Unconfigured.


Definition config_without_session : AppTicketConfig :=
  mkConfig "http://127.0.0.1:4723" "上海" "演唱会" "" None (Some 2)
    7 2000 1200.


(* ------------------------------------------------------------------ *)
(** *** Derived metrics *)

(** The spec's wording for the derived fields. *)
Definition derived_fields_as_stated (m : TicketRunMetrics) : Prop :=
  duration m = end_time m - start_time m /\ 0 <= duration m /\
  retries m = attempts m - 1 /\ 0 <= retries m.


(** The clock position only grows during a run, and the start time is
    the reading taken at position [c0]. *)
Definition started_at (env : Env) (c0 : nat) (s : State) : Prop :=
  (c0 < clock_pos s)%nat /\ _run_start_time s = clock env c0.

Lemma run_started_at env config fuel max_retries start s b s' :
  run env config fuel max_retries start s = (Ok b, s') ->
  run_outcome env (started_at env (clock_pos s)) Top
    (started_at env (clock_pos s)) (started_at env (clock_pos s))
    fuel max_retries start s b s'.
Proof.
  assert (Hlog : forall lvl msg ctx st,
             started_at env (clock_pos s) st ->
             started_at env (clock_pos s) (snd (_log env lvl msg ctx st))).
  { intros. eapply (keeps_snd _ Top); [| eassumption].
    apply keeps_log; unfold started_at; simpl; intuition lia. }
  assert (Hclean : forall st,
             started_at env (clock_pos s) st ->
             started_at env (clock_pos s) (snd (_cleanup_driver env st))).
  { intros. eapply (keeps_snd _ Top); [| eassumption].
    apply (keeps_cleanup_driver env _ Top); unfold started_at, Top; simpl; auto. }
  assert (Htr : forall p st,
             started_at env (clock_pos s) st ->
             started_at env (clock_pos s) (transition p st)).
  { intros p st H. unfold transition. destruct (phase_eqb _ _); auto. }
  eapply run_spec; auto; try (unfold started_at, Top; simpl; intuition lia).
  apply flow_steps_spec; auto;
    try (unfold started_at, Top; simpl; intuition lia).
Qed.



(* ------------------------------------------------------------------ *)
(** *** Phase histories *)

Definition no_final (h : list RunnerPhase) : bool :=
  forallb (fun p => negb (is_completed_or_stopped p)) h.

(** An attempt is under way: the history holds neither [COMPLETED] nor
    [STOPPED] and ends with the current phase. *)
Definition phases_open (s : State) : Prop :=
  no_final (phase_history s) = true /\
  last (phase_history s) INIT = current_phase s.

(** The run has ended in [p]: [p] is the current phase and the last
    entry of the history, and no entry before it is final. *)
Definition phases_closed (p : RunnerPhase) (s : State) : Prop :=
  exists h, phase_history s = (h ++ [p])%list /\ no_final h = true /\
            current_phase s = p.

Lemma no_final_last h : no_final h = true ->
  is_completed_or_stopped (last h INIT) = false.
Proof.
  induction h as [| p [| q rest] IH]; simpl; intro H; auto.
  - destruct (is_completed_or_stopped p); simpl in *; congruence.
  - apply andb_prop in H. destruct H as [_ H]. apply IH. exact H.
Qed.

Lemma no_final_app h p :
  no_final h = true -> is_completed_or_stopped p = false ->
  no_final (h ++ [p]) = true.
Proof.
  intros Hh Hp. unfold no_final. rewrite forallb_app. fold (no_final h).
  rewrite Hh. simpl. rewrite Hp. reflexivity.
Qed.

Lemma open_transition p s :
  is_completed_or_stopped p = false -> phases_open s ->
  phases_open (transition p s).
Proof.
  intros Hp [Hh Hl]. unfold transition.
  destruct (phase_eqb p (current_phase s)); [split; assumption |].
  split; simpl; [apply no_final_app; assumption | apply last_last].
Qed.

Lemma open_closes p s :
  is_completed_or_stopped p = true -> phases_open s ->
  phases_closed p (transition p s).
Proof.
  intros Hp [Hh Hl]. unfold transition.
  destruct (phase_eqb p (current_phase s)) eqn:Heq.
  - apply phase_eqb_eq in Heq. subst p.
    apply no_final_last in Hh. rewrite Hl in Hh. congruence.
  - exists (phase_history s). simpl. auto.
Qed.

Lemma closed_again p s :
  phases_closed p s -> phases_closed p (transition p s).
Proof.
  intros (h & Hh & Hn & Hc). unfold transition.
  assert (Heq : phase_eqb p (current_phase s) = true)
    by (apply phase_eqb_eq; congruence).
  rewrite Heq. exists h. auto.
Qed.

Lemma nothing_after_no_final h :
  no_final h = true -> nothing_after is_completed_or_stopped h = true.
Proof.
  induction h as [| p rest IH]; simpl; intro H; [reflexivity |].
  apply andb_prop in H. destruct H as [Hp Hr].
  destruct (is_completed_or_stopped p); simpl in *; [discriminate | auto].
Qed.

Lemma nothing_after_closed h p :
  no_final h = true ->
  nothing_after is_completed_or_stopped (h ++ [p]) = true.
Proof.
  induction h as [| q rest IH]; simpl; intro H.
  - destruct (is_completed_or_stopped p); reflexivity.
  - apply andb_prop in H. destruct H as [Hq Hr].
    destruct (is_completed_or_stopped q); simpl in *; [discriminate | auto].
Qed.

Lemma open_settled s :
  phases_open s -> nothing_after is_completed_or_stopped (phase_history s) = true.
Proof. intros [H _]. apply nothing_after_no_final. exact H. Qed.

Lemma closed_settled p s :
  phases_closed p s ->
  nothing_after is_completed_or_stopped (phase_history s) = true.
Proof.
  intros (h & Hh & Hn & _). rewrite Hh. apply nothing_after_closed. exact Hn.
Qed.

Ltac phases :=
  intros; unfold phases_open, phases_closed, Top in *; simpl; auto.

Lemma run_phases env config fuel max_retries start s b s' :
  run env config fuel max_retries start s = (Ok b, s') ->
  run_outcome env phases_open Top (phases_closed COMPLETED)
    (phases_closed STOPPED) fuel max_retries start s b s'.
Proof.
  assert (Hlog : forall p lvl msg ctx st,
             phases_closed p st ->
             phases_closed p (snd (_log env lvl msg ctx st))).
  { intros. eapply (keeps_snd _ Top); [| eassumption]. apply keeps_log; phases. }
  assert (Hclean : forall p st,
             phases_closed p st ->
             phases_closed p (snd (_cleanup_driver env st))).
  { intros. eapply (keeps_snd _ Top); [| eassumption].
    apply (keeps_cleanup_driver env _ Top); phases. }
  eapply run_spec; auto; try solve [phases].
  all: try (intros p st; apply open_transition).
  all: try (intros st; apply open_closes; reflexivity).
  all: try (intros st; apply closed_again).
  intro skip. apply flow_steps_spec; try solve [phases].
  - intros p st. apply open_transition.
  - intros st. apply open_closes. reflexivity.
Qed.

(** The spec's wording: no entry of the history follows a terminal
    phase. *)
Definition terminal_phases_are_final (s' : State) : Prop :=
  nothing_after is_terminal (phase_history s') = true.

Lemma terminal_phases_counterexample :
  exists s',
    run env_unreachable sample_config 2 2 None post_init = (Ok false, s') /\
    phase_history s' = [INIT; CONNECTING; FAILED; CONNECTING; FAILED] /\
    ~ terminal_phases_are_final s' /\
    snd (_mark_stopped (with_phase FAILED [INIT; FAILED] post_init))
    = with_phase STOPPED [INIT; FAILED; STOPPED] post_init.
Proof.
  pose (out := run env_unreachable sample_config 2 2 None post_init).
  exists (snd out).
  split; [vm_compute; reflexivity |].
  split; [vm_compute; reflexivity |].
  split; [| vm_compute; reflexivity].
  unfold terminal_phases_are_final. vm_compute. discriminate.
Qed.

(** C2 (as amended): within one run [COMPLETED] and [STOPPED] are
    terminal: in the phase history of a run that has returned, no entry
    follows one of them.  [_mark_failure], [_mark_stopped] and
    [_transition_to] change nothing when the current phase already is
    their target. *)
Theorem completed_and_stopped_are_final env config fuel max_retries start
  s b s' :
  run env config fuel max_retries start s = (Ok b, s') ->
  nothing_after is_completed_or_stopped (phase_history s') = true /\
  (forall st, current_phase st = FAILED -> _mark_failure st = (Ok tt, st)) /\
  (forall st, current_phase st = STOPPED -> _mark_stopped st = (Ok tt, st)) /\
  (forall p st, current_phase st = p -> _transition_to p st = (Ok tt, st)).
Proof.
  intro Hrun. split; [| split; [| split]].
  - destruct (run_phases _ _ _ _ _ _ _ _ Hrun)
      as [(_ & Hh & _) | (v & v' & s1 & entries & Hloop & _ & _ & _ & _ & Hhist)].
    + eapply closed_settled; exact Hh.
    + rewrite Hhist.
      destruct Hloop as [_ [(_ & _ & H) | [(_ & _ & _ & H & _) | (_ & H & _)]]].
      * eapply closed_settled; exact H.
      * eapply closed_settled; exact H.
      * apply open_settled; exact H.
  - intros st H. rewrite mark_failure_eq. unfold transition. rewrite H.
    reflexivity.
  - intros st H. rewrite mark_stopped_eq. unfold transition. rewrite H.
    reflexivity.
  - intros p st H. rewrite transition_to_eq. unfold transition. rewrite H.
    replace (phase_eqb p p) with true; [reflexivity |].
    symmetry. apply phase_eqb_eq. reflexivity.
Qed.

Lemma completed_and_stopped_are_final_witness :
  exists s',
    run env_cooperative sample_config 3 3 None post_init = (Ok true, s') /\
    nothing_after is_completed_or_stopped (phase_history s') = true /\
    current_phase s' = COMPLETED.
Proof.
  pose (out := run env_cooperative sample_config 3 3 None post_init).
  assert (Hrun : run env_cooperative sample_config 3 3 None post_init
                 = (Ok true, snd out)) by (vm_compute; reflexivity).
  exists (snd out). split; [exact Hrun |].
  split; [| vm_compute; reflexivity].
  apply (completed_and_stopped_are_final env_cooperative sample_config 3 3
           None post_init true (snd out) Hrun).
Defined.

(* ------------------------------------------------------------------ *)
(** *** Termination *)

(** A loop either returns or is cut off; it never raises. *)
Definition ends {A} (r : Result A * State) (starved : Prop) : Prop :=
  (exists a s', r = (Ok a, s')) \/ ((exists s', r = (OutOfFuel, s')) /\ starved).

Lemma wait_for_start_ends env start fuel :
  forall w s,
    ends (wait_for_start env fuel start w s)
      (forall n, (clock_pos s <= n < clock_pos s + fuel)%nat ->
                 clock env n < start).
Proof.
  induction fuel as [| fuel IH]; intros w s; simpl;
    destruct (0 <? w) eqn:Hw; try (left; unfold ret; eauto; fail).
  - right. split; [unfold out_of_fuel; eauto | intros n Hn; lia].
  - destruct (should_stop_returns env s) as (stop & s1 & Hstop & _ & Hpos).
    rewrite (bind_Ok_eq _ _ _ _ _ Hstop). destruct stop.
    + left. unfold bind. rewrite mark_stopped_eq. unfold ret. eauto.
    + unfold sleep. unfold bind at 1, ret at 1.
      unfold bind at 1, time_time at 1.
      specialize (IH (start - clock env (clock_pos s1)) (tick_clock s1)).
      destruct IH as [Hok | [Hout Hlate]]; [left; exact Hok |].
      right. split; [exact Hout |].
      intros n Hn. simpl in Hlate. rewrite Hpos in *.
      destruct (Nat.eq_dec n (clock_pos s)) as [-> | Hne];
        [| apply Hlate; lia].
      destruct Hout as [s' Hout].
      destruct (0 <? start - clock env (clock_pos s)) eqn:Hlt;
        [apply Z.ltb_lt in Hlt; lia |].
      destruct fuel; simpl in Hout; rewrite Hlt in Hout; discriminate.
Qed.

Lemma begin_run_ends env fuel start s :
  ends (begin_run env fuel start s)
    (exists t, start = Some t /\
       forall n, (clock_pos s + 4 <= n < clock_pos s + 4 + fuel)%nat ->
                 clock env n < t).
Proof.
  unfold begin_run, reset_for_run, scheduled_wait, start_in_future.
  unfold bind, modify, time_time, ret; simpl.
  destruct start as [t |]; [| left; eauto].
  destruct (t =? 0); [left; eauto |]. simpl.
  destruct (_ <? t); [| left; eauto].
  match goal with |- context [_log env ?l ?m ?c ?st] =>
    destruct (log_returns env l m c st) as (s1 & Hlog & _ & Hpos & _);
    rewrite Hlog end.
  simpl in Hpos.
  match goal with |- context [wait_for_start env fuel t ?w s1] =>
    destruct (wait_for_start_ends env t fuel w s1)
      as [(b & s2 & Hw) | [(s2 & Hw) Hlate]]; rewrite Hw end.
  - destruct b; [left; eauto |].
    match goal with |- context [_log env ?l ?m ?c ?st] =>
      destruct (log_returns env l m c st) as (s3 & Hlog' & _);
      rewrite Hlog' end.
    left; eauto.
  - right. split; [eauto |]. exists t. split; [reflexivity |].
    intros n Hn. apply Hlate. lia.
Qed.

Lemma begin_attempt_returns env config max_retries v s :
  exists ctl v' s',
    begin_attempt env config max_retries v s = (Ok (ctl, v'), s') /\
    loc_attempts v' = loc_attempts v + 1.
Proof.
  unfold begin_attempt.
  match goal with |- context [_log env ?l ?m ?c] =>
    destruct (log_returns env l m c s) as (s1 & Hlog & _) end.
  rewrite (bind_Ok_eq _ _ _ _ _ Hlog).
  pose proof (try_attempt_always env config
                (mkLocals (loc_attempts v + 1) (loc_success v)
                   (loc_failure_code v) (loc_failure_message v)) s1 I) as H.
  destruct (try_attempt env config _ s1) as [[[ctl v'] | e |] s2];
    [| destruct H | destruct H].
  destruct H as [Hn _]. simpl in Hn. eauto.
Qed.

Lemma attempt_loop_ends env config max_retries fuel :
  forall v s,
    ends (attempt_loop env config fuel max_retries v s)
      (fuel < Z.to_nat (max_retries - loc_attempts v))%nat.
Proof.
  induction fuel as [| fuel IH]; intros v s; simpl;
    destruct (keeps_returns Always _ s
                (keeps_may_attempt env Always ltac:(always) _ max_retries v) I)
      as (enter & s1 & Hmay & _);
    rewrite (bind_Ok_eq _ _ _ _ _ Hmay);
    pose proof (may_attempt_inv _ _ _ _ _ _ Hmay) as Hlt;
    destruct enter; try (left; unfold ret; eauto; fail).
  - right. split; [unfold out_of_fuel; eauto | lia].
  - destruct (begin_attempt_returns env config max_retries v s1)
      as (ctl & v1 & s2 & Hbegin & Hn).
    rewrite (bind_Ok_eq _ _ _ _ _ Hbegin). destruct ctl.
    + left. unfold ret. eauto.
    + destruct (keeps_returns Always _ s2
                  (keeps_end_attempt env config Always Top
                     ltac:(always) ltac:(always) ltac:(always) ltac:(always)
                     ltac:(always) ltac:(always) ltac:(always) ltac:(always)
                     ltac:(always) ltac:(always) _ max_retries v1) I)
        as ([] & s3 & Hend & _).
      rewrite (bind_Ok_eq _ _ _ _ _ Hend).
      destruct (IH v1 s3) as [Hok | [Hout Hfuel]]; [left; exact Hok |].
      right. split; [exact Hout | lia].
Qed.

Lemma run_ends env config fuel max_retries start s :
  ends (run env config fuel max_retries start s)
    ((exists t, start = Some t /\
        forall n, (clock_pos s + 4 <= n < clock_pos s + 4 + fuel)%nat ->
                  clock env n < t) \/
     (fuel < Z.to_nat (Z.max 1 max_retries))%nat).
Proof.
  unfold run.
  destruct (begin_run_ends env fuel start s)
    as [(returned & s0 & Hbegin) | [(s0 & Hbegin) Hlate]].
  - rewrite (bind_Ok_eq _ _ _ _ _ Hbegin).
    destruct returned; [left; unfold ret; eauto |]. cbv zeta.
    destruct (attempt_loop_ends env config (Z.max 1 max_retries) fuel
                no_attempt_yet s0) as [(v & s1 & Hloop) | [(s1 & Hloop) Hfuel]].
    + rewrite (bind_Ok_eq _ _ _ _ _ Hloop).
      destruct (finish_run_returns env v s1) as (v' & s2 & entries & Hret & _).
      left. eauto.
    + right. split.
      * unfold bind. rewrite Hloop. eauto.
      * right. simpl in Hfuel. rewrite Z.sub_0_r in Hfuel. exact Hfuel.
  - right. split.
    + unfold bind. rewrite Hbegin. eauto.
    + left. exact Hlate.
Qed.

(** The clock gets to [t] again and again. *)
Definition clock_reaches (env : Env) (start : option Z) : Prop :=
  forall t, start = Some t ->
  forall m, exists n, (m <= n)%nat /\ t <= clock env n.



(* ------------------------------------------------------------------ *)
(** *** Failure classification *)

Definition connection_failure_text : string := "连接 Appium server".

Lemma rstrip_keeps_prefix a :
  rstrip a = a -> a <> "" -> forall b, exists r, rstrip (a ++ b) = a ++ r.
Proof.
  induction a as [| c a' IH]; intros Ha Hne b; [congruence |].
  simpl in *. destruct a' as [| c' a''].
  - simpl in *. destruct (rstrip b) as [| d r].
    + destruct (is_space c); [discriminate | exists ""; reflexivity].
    + exists (String d r). reflexivity.
  - assert (Ha' : rstrip (String c' a'') = String c' a'').
    { destruct (rstrip (String c' a'')) as [| d r].
      - destruct (is_space c); discriminate.
      - inversion Ha. reflexivity. }
    destruct (IH Ha' ltac:(discriminate) b) as [r Hr].
    rewrite Hr. simpl. exists r. reflexivity.
Qed.

Lemma prefix_append a r : prefix a (a ++ r) = true.
Proof.
  induction a as [| c a IH]; simpl; [destruct r; reflexivity |].
  destruct (ascii_dec c c) as [_ | H]; [exact IH | congruence].
Qed.

Lemma contains_prefix a s : prefix a s = true -> contains a s = true.
Proof. intro H. destruct s; cbn [contains]; rewrite H; reflexivity. Qed.

Lemma strip_connection_text t :
  exists r, strip (connection_failure_text ++ t) = connection_failure_text ++ r.
Proof.
  unfold strip.
  assert (Hl : lstrip (connection_failure_text ++ t)
               = connection_failure_text ++ t) by reflexivity.
  rewrite Hl. apply rstrip_keeps_prefix; [reflexivity | discriminate].
Qed.

(** The message [_execute_once] gives a failed connection carries the
    text the classifier looks for, whatever the driver's own message. *)
Lemma connection_message_recognised msg :
  contains connection_failure_text
    (failure_text (mkExn TicketRunnerError ("连接 Appium server 失败: " ++ msg)))
  = true.
Proof.
  unfold failure_text. cbn [exn_str].
  assert (Heq : "连接 Appium server 失败: " ++ msg
                = connection_failure_text ++ (" 失败: " ++ msg)) by reflexivity.
  rewrite Heq.
  destruct (strip_connection_text (" 失败: " ++ msg)) as [r Hr].
  rewrite Hr.
  assert (Hne : String.eqb (connection_failure_text ++ r) "" = false)
    by reflexivity.
  rewrite Hne. apply contains_prefix. apply prefix_append.
Qed.

(** The exception [_execute_once] raises when the connection fails. *)
Definition connection_error (e : exn) : exn :=
  mkExn TicketRunnerError ("连接 Appium server 失败: " ++ exn_str e).

Lemma connection_failure_raised env config s e :
  stop_signal env (stop_pos s) <> Returns true ->
  driver env (driver_pos s) (Connect (endpoint config)) = Raises e ->
  fst (_execute_once env config false s) = Raise (connection_error e).
Proof.
  intros Hstop Hdrv. unfold _execute_once, finally.
  assert (Hbody : exists s1,
    (_ensure_not_stopped env ;;
     (if negb false then
        _transition_to CONNECTING ;;
        _log env STEP "连接 Appium server" [] ;;
        d <- catch (_create_driver env config)
               (fun exc =>
                  TicketRunnerError_
                    ("连接 Appium server 失败: " ++ exn_str exc)) ;;
        modify (with_driver d) ;;
        _ensure_driver ;;
        _transition_to APPLYING_SETTINGS ;;
        _apply_driver_settings env
      else
        _ensure_driver ;;
        _log env INFO "使用预热好的driver，跳过连接和设置步骤" []) ;;
     _log env STEP "开始执行抢票流程" [] ;;
     _perform_ticket_flow env config false) s
    = (Raise (connection_error e), s1)).
  { unfold _ensure_not_stopped.
    destruct (should_stop_returns env s) as (stop & s1 & Hs & Hsame & _).
    assert (stop = false).
    { destruct stop; [| reflexivity].
      apply should_stop_true in Hs. contradiction. }
    subst stop.
    unfold bind at 1. unfold bind at 1. rewrite Hs. unfold ret at 1.
    simpl negb. cbv iota.
    unfold bind at 1. unfold bind at 1. rewrite transition_to_eq.
    match goal with |- context [_log env ?l ?m ?c] =>
      destruct (log_returns env l m c (transition CONNECTING s1))
        as (s2 & Hlog & Hsame2 & _) end.
    unfold bind at 1. rewrite Hlog.
    unfold bind at 1, catch, _create_driver. unfold bind at 1, drv.
    assert (Hpos : driver_pos s2 = driver_pos s).
    { destruct Hsame2 as (_ & _ & _ & _ & _ & _ & H2).
      destruct Hsame as (_ & _ & _ & _ & _ & _ & H1).
      rewrite H2. unfold transition. destruct (phase_eqb _ _); simpl; auto. }
    rewrite Hpos, Hdrv. simpl. eauto. }
  destruct Hbody as [s1 Hbody]. simpl negb in *. cbv iota in *.
  rewrite Hbody. cbn [negb]. cbv beta iota.
  destruct (cleanup_driver_returns env s1) as [s2 Hc]. rewrite Hc.
  reflexivity.
Qed.

(** The code [run] records for an attempt that raised [exc]. *)
Lemma try_attempt_classifies env config v s exc s1 :
  _execute_once env config
    (match _driver s with Some _ => true | None => false end) s
  = (Raise exc, s1) ->
  exists ctl v' s',
    try_attempt env config v s = (Ok (ctl, v'), s') /\
    loc_failure_code v' = Some (fst (_diagnose_failure exc)).
Proof.
  intro Hexec. unfold try_attempt, catch.
  unfold bind at 1, get at 1. unfold bind at 1. rewrite Hexec.
  cbv beta iota.
  destruct (is_TicketRunnerStopped exc) eqn:Hstop.
  - unfold bind. rewrite mark_stopped_eq.
    match goal with |- context [_log env ?l ?m ?c ?st] =>
      destruct (log_returns env l m c st) as (s' & Hl & _) end.
    rewrite Hl. unfold ret. simpl.
    unfold _diagnose_failure. rewrite Hstop. simpl. eauto.
  - destruct (is_TicketRunnerError exc) eqn:Herr;
      unfold bind; rewrite mark_failure_eq;
      match goal with |- context [_log env ?l ?m ?c ?st] =>
        destruct (log_returns env l m c st) as (s' & Hl & _) end;
      rewrite Hl; unfold ret; simpl; [eauto |].
    unfold _diagnose_failure. rewrite Hstop, Herr. simpl. eauto.
Qed.

(** C4: the failure code depends on the class and the message of the
    exception only: [USER_STOP] for a stop, [APPIUM_CONNECTION] for a
    runner error whose message holds the connection-failure text (as the
    message of a failed connection always does), [FLOW_FAILURE] for any
    other runner error and [UNEXPECTED] for anything else; and the code
    [run] records for an attempt that raised is this one, whatever the
    state and the attempt. *)
Theorem classification_by_class_and_message :
  (forall exc,
     fst (_diagnose_failure exc) =
     match exn_class exc with
     | TicketRunnerStopped => USER_STOP
     | TicketRunnerError =>
         if contains connection_failure_text (failure_text exc)
         then APPIUM_CONNECTION else FLOW_FAILURE
     | _ => UNEXPECTED
     end) /\
  (forall msg,
     fst (_diagnose_failure
            (mkExn TicketRunnerError ("连接 Appium server 失败: " ++ msg)))
     = APPIUM_CONNECTION) /\
  (forall env config v s,
     match _execute_once env config
             (match _driver s with Some _ => true | None => false end) s with
     | (Raise exc, _) =>
         exists ctl v' s',
           try_attempt env config v s = (Ok (ctl, v'), s') /\
           loc_failure_code v' = Some (fst (_diagnose_failure exc))
     | _ => True
     end).
Proof.
  split; [| split].
  - intro exc. unfold _diagnose_failure, is_TicketRunnerStopped,
      is_TicketRunnerError, connection_failure_text.
    destruct (exn_class exc); simpl; try reflexivity.
    destruct (contains _ _); reflexivity.
  - intro msg. unfold _diagnose_failure. simpl is_TicketRunnerStopped.
    simpl is_TicketRunnerError. cbv iota.
    pose proof (connection_message_recognised msg) as H.
    unfold connection_failure_text in H. cbv zeta. rewrite H. reflexivity.
  - intros env config v s.
    destruct (_execute_once env config _ s) as [[b | exc |] s1] eqn:Hexec;
      auto.
    eapply try_attempt_classifies. exact Hexec.
Qed.

(* ------------------------------------------------------------------ *)
(** *** Quantity adjustment *)

(** From the state [s] on, every driver call answers. *)
Definition driver_answers (env : Env) (s : State) : Prop :=
  forall n c, (driver_pos s <= n)%nat -> exists v, driver env n c = Returns v.

Lemma drv_answers env s c :
  driver_answers env s ->
  exists v, drv env c s = (Ok v, tick_driver c s) /\
            driver env (driver_pos s) c = Returns v /\
            driver_answers env (tick_driver c s).
Proof.
  intro H. destruct (H (driver_pos s) c (le_n _)) as [v Hv].
  exists v. unfold drv. rewrite Hv. repeat split; auto.
  intros n c' Hn. apply H. simpl in Hn. lia.
Qed.

(** Tapping a control once per element of [l]. *)
Lemma taps {A} env (l : list A) target :
  forall s, driver_answers env s ->
    exists s',
      for_each l (fun _ => drv env (Click target) ;; sleep 300) s = (Ok tt, s') /\
      trace s' = (repeat (Click target) (List.length l) ++ trace s)%list.
Proof.
  induction l as [| x rest IH]; intros s Hs; simpl.
  - exists s. auto.
  - destruct (drv_answers env s (Click target) Hs) as (v & Hdrv & _ & Hs').
    unfold bind at 1. unfold bind at 1. rewrite Hdrv. unfold sleep, ret at 1.
    destruct (IH _ Hs') as (s' & Hrest & Htrace).
    exists s'. split; [exact Hrest |].
    rewrite Htrace. simpl.
    replace (Click target :: trace s) with ([Click target] ++ trace s)%list
      by reflexivity.
    rewrite app_assoc. f_equal.
    clear. induction (List.length rest); simpl; congruence.
Qed.

Lemma count_taps f target n s s' :
  trace s' = (repeat (Click target) n ++ trace s)%list ->
  count f s' = ((if f (Click target) then n else 0) + count f s)%nat.
Proof.
  intro H. unfold count. rewrite H, filter_app, length_app. f_equal.
  clear H. destruct (f (Click target)) eqn:Hf;
    induction n as [| n IH]; simpl; try rewrite Hf; simpl; auto.
Qed.


Definition config_for (quantity : Z) : AppTicketConfig :=
  mkConfig "http://127.0.0.1:4723" "上海" "演唱会" "" (Some 1) (Some 2)
    quantity 2000 1200.

(** A cooperative world whose elements all show [text]. *)
Definition env_showing (text : string) : Env :=
  mkEnv ticking_clock (fun _ => Returns false) (fun _ _ => None)
        (fun _ _ => Returns (mkValue true text 5 10 20 100 40))
        (fun _ => Some (6, 15)).


(* ------------------------------------------------------------------ *)
(** *** The select-viewer dialog *)

(** [n] back keys have been pressed so far. *)
Definition backs (n : nat) (s : State) : Prop := count is_back s = n.

Ltac backs_frame :=
  intros; unfold backs, count, Top in *; simpl; auto;
  try match goal with
      | H : is_back ?c = false |- _ => rewrite H; auto
      end.

Lemma smart_click_keeps_backs env n l b t :
  keeps (backs n) Top (_smart_wait_and_click env l b t).
Proof. apply keeps_smart_wait_and_click; backs_frame. Qed.

Lemma select_viewers_keeps_backs env n :
  keeps (backs n) Top (select_viewers env).
Proof. apply keeps_select_viewers; backs_frame. Qed.

Lemma ensure_not_stopped_raises env s e s' :
  _ensure_not_stopped env s = (Raise e, s') -> is_TicketRunnerStopped e = true.
Proof.
  unfold _ensure_not_stopped.
  destruct (should_stop_returns env s) as (stop & s1 & Hs & _).
  rewrite (bind_Ok_eq _ _ _ _ _ Hs).
  destruct stop; intro H; inversion H; reflexivity.
Qed.

(** Only the stop check lets an exception out of the selector loop. *)
Lemma smart_click_first_raises env t sels :
  forall s e s',
    smart_click_first env t sels s = (Raise e, s') ->
    is_TicketRunnerStopped e = true.
Proof.
  induction sels as [| l rest IH]; intros s e s'; simpl.
  - discriminate.
  - unfold bind at 1.
    destruct (_ensure_not_stopped env s) as [[[] | e0 |] s1] eqn:Hstop.
    + unfold catch.
      match goal with |- context [match ?m s1 with _ => _ end] =>
        destruct (m s1) as [[b | e1 |] s2] end;
        try discriminate. apply IH.
    + intro H. inversion H; subst. eapply ensure_not_stopped_raises; eauto.
    + discriminate.
Qed.

(** The spec's wording: one back-navigation after the step, whether or
    not the dialog was found. *)
Definition always_one_back (env : Env) (s : State) : Prop :=
  count is_back (snd (_select_theme_dialog env s)) = S (count is_back s).

Lemma always_one_back_counterexample :
  _select_theme_dialog env_no_dialog connected
  = (Ok tt, snd (_select_theme_dialog env_no_dialog connected)) /\
  count is_back (snd (_select_theme_dialog env_no_dialog connected)) = 0%nat /\
  ~ always_one_back env_no_dialog connected.
Proof.
  split; [vm_compute; reflexivity |].
  split; [vm_compute; reflexivity |].
  unfold always_one_back. vm_compute. discriminate.
Qed.

(** C9 (as amended): with a driver session open, the select-viewer step
    ends in one of three ways.  The dialog is not found: the step returns
    at once and presses no back key.  The dialog is found and confirmed:
    the step returns normally whatever fails afterwards, and has pressed
    the back key exactly once if choosing the viewers raised nothing and
    not at all otherwise.  A stop request is seen while looking for the
    dialog: the stop exception leaves the step, no back key pressed. *)
Theorem select_theme_dialog_outcome env s h :
  _driver s = Some h ->
  match _smart_wait_and_click env theme_dialog_confirm [] 1000 s with
  | (Ok false, s1) =>
      _select_theme_dialog env s = (Ok tt, s1) /\
      count is_back s1 = count is_back s
  | (Ok true, s1) =>
      exists s',
        _select_theme_dialog env s = (Ok tt, s') /\
        count is_back s'
        = (count is_back s
           + match fst (select_viewers env s1) with Ok _ => 1 | _ => 0 end)%nat
  | (Raise e, s1) =>
      _select_theme_dialog env s = (Raise e, s1) /\
      is_TicketRunnerStopped e = true /\
      count is_back s1 = count is_back s
  | (OutOfFuel, _) => False
  end.
Proof.
  intro Hd.
  assert (Hstep : _select_theme_dialog env s =
            (clicked <- _smart_wait_and_click env theme_dialog_confirm [] 1000 ;;
             if clicked then
               sleep 1000 ;;
               catch (select_viewers env ;; drv env (PressKeycode 4) ;; ret tt)
                 (fun e => _log env ERROR ("观演人选择失败: " ++ exn_str e) [])
             else ret tt) s).
  { unfold _select_theme_dialog, _ensure_driver.
    unfold bind at 1. unfold bind at 1, get at 1. rewrite Hd. reflexivity. }
  rewrite Hstep. clear Hstep.
  pose proof (smart_click_keeps_backs env (count is_back s)
                theme_dialog_confirm [] 1000 s eq_refl) as Hkeep.
  destruct (_smart_wait_and_click env theme_dialog_confirm [] 1000 s)
    as [[[|] | e |] s1] eqn:Hclick; [| | | exact Hkeep];
    try rewrite (bind_Ok_eq _ _ _ _ _ Hclick).
  - (* the dialog was there *)
    unfold sleep. unfold bind at 1, ret at 1. unfold catch.
    pose proof (select_viewers_keeps_backs env (count is_back s) s1 Hkeep)
      as Hviewers.
    unfold bind at 1.
    destruct (select_viewers env s1) as [[[] | e |] s2]; simpl fst.
    + unfold bind, drv.
      destruct (driver env (driver_pos s2) (PressKeycode 4)) as [v | e].
      * eexists. split; [reflexivity |]. unfold backs, count in *. simpl.
        rewrite Hviewers. lia.
      * match goal with |- context [_log env ?l ?m ?c ?st] =>
          destruct (log_returns env l m c st)
            as (s3 & Hlog & (_ & _ & _ & _ & _ & Htr & _) & _) end.
        rewrite Hlog. eexists. split; [reflexivity |].
        unfold backs, count in *. rewrite Htr. simpl. rewrite Hviewers. lia.
    + destruct Hviewers as [Hviewers _].
      match goal with |- context [_log env ?l ?m ?c ?st] =>
        destruct (log_returns env l m c st)
          as (s3 & Hlog & (_ & _ & _ & _ & _ & Htr & _) & _) end.
      rewrite Hlog. eexists. split; [reflexivity |].
      unfold backs, count in *. rewrite Htr, Hviewers. lia.
    + destruct Hviewers.
  - split; [reflexivity | exact Hkeep].
  - destruct Hkeep as [Hkeep _].
    split; [unfold bind; rewrite Hclick; reflexivity |].
    split; [| exact Hkeep].
    unfold _smart_wait_and_click, _ensure_driver in Hclick.
    unfold bind at 1 in Hclick. unfold bind at 1, get at 1 in Hclick.
    rewrite Hd in Hclick. unfold ret at 1 in Hclick.
    eapply smart_click_first_raises. exact Hclick.
Qed.

Lemma select_theme_dialog_outcome_witness :
  (exists s',
     _select_theme_dialog env_cooperative connected = (Ok tt, s') /\
     count is_back s' = 1%nat) /\
  (exists s',
     _select_theme_dialog env_no_dialog connected = (Ok tt, s') /\
     count is_back s' = 0%nat).
Proof.
  split.
  - pose proof (select_theme_dialog_outcome env_cooperative connected 1%nat
                  eq_refl) as H.
    destruct (_smart_wait_and_click env_cooperative theme_dialog_confirm []
                1000 connected) as [[[|] | e |] s1] eqn:Hclick;
      try (vm_compute in Hclick; discriminate).
    destruct H as (s' & Hrun & Hcount). exists s'. split; [exact Hrun |].
    rewrite Hcount.
    assert (Hs1 : s1 = snd (_smart_wait_and_click env_cooperative
                              theme_dialog_confirm [] 1000 connected))
      by (rewrite Hclick; reflexivity).
    rewrite Hs1. vm_compute. reflexivity.
  - pose proof (select_theme_dialog_outcome env_no_dialog connected 1%nat
                  eq_refl) as H.
    destruct (_smart_wait_and_click env_no_dialog theme_dialog_confirm []
                1000 connected) as [[[|] | e |] s1] eqn:Hclick;
      try (vm_compute in Hclick; discriminate).
    destruct H as [Hrun Hcount]. exists s1. split; [exact Hrun |].
    rewrite Hcount. reflexivity.
Defined.

(* ------------------------------------------------------------------ *)
(** *** The report of a run *)

(** Every return of [run] stores a report, except the early return out
    of the scheduled wait. *)
Lemma report_unless_stopped_while_waiting env config fuel max_retries start
  s b s' :
  run env config fuel max_retries start s = (Ok b, s') ->
  (b = false /\ last_report s' = None /\
   begin_run env fuel start s = (Ok true, s')) \/
  (exists r, last_report s' = Some r).
Proof.
  intro Hrun.
  destruct (run_always _ _ _ _ _ _ _ _ Hrun)
    as [(Hb & _ & Hearly) | (v & v' & s1 & entries & _ & _ & _ & Hrep & _)].
  - left. repeat split; auto. eapply begin_run_early. exact Hearly.
  - right. eauto.
Qed.

(** C3: the spec promises a stored report on every return path; here the
    code departs from it.  The stop signal is set while [run] waits for a
    start time in the future: [run] returns [False] with the phase
    [STOPPED], and [get_last_report] gives [None]. *)
Theorem stop_during_wait_leaves_no_report :
  let out := run env_stop_requested sample_config 3 1 (Some 100000)
               post_init in
  fst out = Ok false /\
  phase_history (snd out) = [INIT; STOPPED] /\
  fst (get_last_report (snd out)) = Ok None.
Proof. vm_compute. repeat split. Qed.
(* ================================================================== *)
(** ** What a report says about its run

    The claims above look at the report through one field at a time.
    The lemmas below follow the local variables of [run] and the current
    phase together through the attempt loop, so that the fields of a
    report can be related to each other. *)

(** The runner is in phase [p]. *)
Definition in_phase (p : RunnerPhase) (s : State) : Prop :=
  current_phase s = p.

(** A failure message is present and is not the empty text. *)
Definition explained (m : option string) : Prop :=
  exists t, m = Some t /\ t <> "".

Ltac in_phase_frame := intros; unfold in_phase, Always, Top in *; simpl; auto.

Lemma current_transition p s : current_phase (transition p s) = p.
Proof.
  unfold transition. destruct (phase_eqb p (current_phase s)) eqn:H.
  - apply phase_eqb_eq in H. auto.
  - reflexivity.
Qed.

Lemma log_in_phase env p lvl msg ctx s :
  in_phase p s -> in_phase p (snd (_log env lvl msg ctx s)).
Proof.
  destruct (log_returns env lvl msg ctx s) as (s' & H & (Hp & _) & _).
  rewrite H. unfold in_phase. simpl. congruence.
Qed.

Lemma cleanup_in_phase env p s :
  in_phase p s -> in_phase p (snd (_cleanup_driver env s)).
Proof.
  apply (keeps_snd _ Top). apply (keeps_cleanup_driver env _ Top); in_phase_frame.
Qed.

(** An attempt that returns has brought the runner to [COMPLETED]. *)
Lemma execute_once_completes env config skip :
  triple Always (_execute_once env config skip)
    (fun b s => in_phase COMPLETED s /\ b = true)
    (attempt_raised Always Top Always).
Proof.
  apply execute_once_spec; try solve [in_phase_frame].
  - apply cleanup_in_phase.
  - intro skip'. apply flow_steps_spec; try solve [in_phase_frame].
    intros. apply current_transition.
Qed.

Lemma strip_or_default_explained t d :
  d <> "" -> explained (Some (if String.eqb (strip t) "" then d else strip t)).
Proof.
  intro Hd. eexists. split; [reflexivity |].
  destruct (String.eqb (strip t) "") eqn:H; [exact Hd |].
  apply String.eqb_neq. exact H.
Qed.

Lemma diagnosis_explained e :
  is_TicketRunnerError e = true ->
  explained (Some (snd (_diagnose_failure e))).
Proof.
  intro He. unfold _diagnose_failure.
  assert (Htext : failure_text e <> "").
  { unfold failure_text.
    destruct (String.eqb (strip (exn_str e)) "") eqn:H.
    - unfold is_TicketRunnerError in He.
      destruct (exn_class e); simpl; discriminate.
    - apply String.eqb_neq. exact H. }
  eexists. split; [reflexivity |].
  destruct (is_TicketRunnerStopped e).
  - simpl. destruct (String.eqb (failure_text e) ""); [discriminate | exact Htext].
  - rewrite He. destruct (contains _ _); exact Htext.
Qed.

(** The [try] statement of the loop body, in detail: a success leaves the
    failure code and message of earlier attempts untouched; a stop and a
    failure store a code and a non-empty message and leave the runner in
    [STOPPED] and [FAILED]. *)
Definition attempt_detail (v : Locals) (r : Control * Locals) (s : State)
  : Prop :=
  loc_attempts (snd r) = loc_attempts v /\
  match fst r with
  | Break =>
      (loc_success (snd r) = true /\
       loc_failure_code (snd r) = loc_failure_code v /\
       loc_failure_message (snd r) = loc_failure_message v /\
       in_phase COMPLETED s) \/
      (loc_success (snd r) = loc_success v /\
       loc_failure_code (snd r) = Some USER_STOP /\
       explained (loc_failure_message (snd r)) /\
       in_phase STOPPED s)
  | Next =>
      loc_success (snd r) = loc_success v /\
      failed_code (loc_failure_code (snd r)) /\
      explained (loc_failure_message (snd r)) /\
      in_phase FAILED s
  end.

Lemma try_attempt_detail env config v s r s' :
  try_attempt env config v s = (Ok r, s') -> attempt_detail v r s'.
Proof.
  unfold try_attempt, catch.
  match goal with |- context [match ?body s with _ => _ end] =>
    destruct (body s) as [[r0 | exc |] s1] eqn:Hbody end.
  - intro H. inversion H; subst r0 s1. clear H.
    apply bind_Ok_inv in Hbody. destruct Hbody as (d & s0 & Hget & Hbody).
    inversion Hget; subst d s0. clear Hget.
    apply bind_Ok_inv in Hbody. destruct Hbody as (ok & s2 & Hexec & Hbody).
    pose proof (triple_Ok _ _ _ _ _ _ _ (execute_once_completes env config _)
                  I Hexec) as [Hph Hok].
    subst ok. apply bind_Ok_inv in Hbody.
    destruct Hbody as ([] & s3 & Hlog & Hret). inversion Hret; subst r s'.
    pose proof Hph as Hph'. eapply log_in_phase in Hph'.
    rewrite Hlog in Hph'. split; [reflexivity |]. left. simpl. auto.
  - unfold bind. destruct (is_TicketRunnerStopped exc) eqn:Hstop.
    + rewrite mark_stopped_eq.
      match goal with |- context [_log env ?l ?m ?c ?st] =>
        pose proof (log_in_phase env STOPPED l m c st (current_transition _ _))
          as Hph;
        destruct (log_returns env l m c st) as (s2 & Hl & _); rewrite Hl in *
      end.
      intro H. inversion H; subst r s'. split; [reflexivity |]. right. simpl.
      repeat split; auto. apply strip_or_default_explained. discriminate.
    + destruct (is_TicketRunnerError exc) eqn:Herr; rewrite mark_failure_eq;
        match goal with |- context [_log env ?l ?m ?c ?st] =>
          pose proof (log_in_phase env FAILED l m c st (current_transition _ _))
            as Hph;
          destruct (log_returns env l m c st) as (s2 & Hl & _); rewrite Hl in *
        end;
        intro H; inversion H; subst r s'; (split; [reflexivity |]); simpl;
        repeat split; auto.
      * apply diagnose_failed_code. exact Hstop.
      * apply diagnosis_explained. exact Herr.
      * unfold failed_code. auto.
      * eexists. split; [reflexivity | discriminate].
  - discriminate.
Qed.

(** The local variables and the phase whenever the loop test is
    evaluated: before the first attempt nothing is recorded and the phase
    is [INIT]; after a failed attempt its code and message are recorded
    and the phase is [FAILED]. *)
Definition head_detail (v : Locals) (s : State) : Prop :=
  loc_success v = false /\
  ((loc_attempts v = 0 /\ loc_failure_code v = None /\
    loc_failure_message v = None /\ in_phase INIT s) \/
   (1 <= loc_attempts v /\ failed_code (loc_failure_code v) /\
    explained (loc_failure_message v) /\ in_phase FAILED s)).

(** The three ways the loop ends, in detail. *)
Definition loop_detail (v : Locals) (s : State) : Prop :=
  (loc_success v = true /\ in_phase COMPLETED s /\
   ((loc_attempts v = 1 /\ loc_failure_code v = None /\
     loc_failure_message v = None) \/
    (2 <= loc_attempts v /\ failed_code (loc_failure_code v) /\
     explained (loc_failure_message v)))) \/
  (loc_success v = false /\ 1 <= loc_attempts v /\
   loc_failure_code v = Some USER_STOP /\
   explained (loc_failure_message v) /\ in_phase STOPPED s) \/
  head_detail v s.

Lemma may_attempt_in_phase env p m v s enter s1 :
  may_attempt env m v s = (Ok enter, s1) -> in_phase p s -> in_phase p s1.
Proof.
  intros H Hs. eapply (keeps_Ok _ Top); [| exact Hs | exact H].
  apply keeps_may_attempt; in_phase_frame.
Qed.

Lemma end_attempt_in_phase env config p m v s s1 :
  end_attempt env config m v s = (Ok tt, s1) -> in_phase p s -> in_phase p s1.
Proof.
  intros H Hs. eapply (keeps_Ok _ Top); [| exact Hs | exact H].
  apply (keeps_end_attempt env config _ Top); in_phase_frame.
Qed.

Lemma attempt_loop_detail env config max_retries fuel :
  forall v s v' s',
    head_detail v s ->
    attempt_loop env config fuel max_retries v s = (Ok v', s') ->
    loop_detail v' s'.
Proof.
  induction fuel as [| fuel IH]; intros v s v' s' Hv Hrun;
    simpl in Hrun; apply bind_Ok_inv in Hrun;
    destruct Hrun as (enter & s1 & Hmay & Hrun);
    assert (Hv1 : head_detail v s1)
      by (destruct Hv as [Hs [(H0 & H1 & H2 & H3) | (H0 & H1 & H2 & H3)]];
          (split; [exact Hs |]); [left | right]; repeat split; auto;
          eapply may_attempt_in_phase; eauto);
    destruct enter; cbv beta iota in Hrun;
    try (inversion Hrun; subst v' s'; right; right; exact Hv1);
    try discriminate.
  apply bind_Ok_inv in Hrun. destruct Hrun as ([ctl v1] & s2 & Hbegin & Hrun).
  unfold begin_attempt in Hbegin. apply bind_Ok_inv in Hbegin.
  destruct Hbegin as ([] & s3 & _ & Htry).
  apply try_attempt_detail in Htry. destruct Htry as [Hn Hout].
  simpl in Hn, Hout. destruct Hv1 as [Hsucc Hhead].
  destruct ctl.
  - inversion Hrun; subst v' s'. clear Hrun.
    destruct Hout as [(Hok & Hcode & Hmsg & Hph) | (Hsame & Hcode & Hmsg & Hph)].
    + left. split; [exact Hok |]. split; [exact Hph |].
      rewrite Hcode, Hmsg, Hn.
      destruct Hhead as [(H0 & H1 & H2 & _) | (H0 & H1 & H2 & _)];
        [left | right]; repeat split; auto; lia.
    + right; left. repeat split; auto; try congruence.
      destruct Hhead as [(H0 & _) | (H0 & _)]; lia.
  - destruct Hout as (Hsame & Hcode & Hmsg & Hph).
    apply bind_Ok_inv in Hrun. destruct Hrun as ([] & s4 & Hend & Hrun).
    apply (IH v1 s4 v' s'); [| exact Hrun].
    split; [congruence |]. right. repeat split; auto.
    + destruct Hhead as [(H0 & _) | (H0 & _)]; lia.
    + eapply end_attempt_in_phase; eauto.
Qed.

(** What [finalize] does to the local variables. *)
Lemma finalize_detail env v s v' s1 :
  finalize env v s = (Ok v', s1) ->
  (loc_success v = true \/ loc_failure_code v <> None -> v' = v) /\
  (loc_success v = false -> loc_failure_code v = None ->
   loc_attempts v' = loc_attempts v /\ loc_success v' = false /\
   explained (loc_failure_message v') /\
   (loc_failure_code v' = Some USER_STOP \/
    loc_failure_code v' = Some MAX_RETRIES /\
    current_phase s <> STOPPED /\
    stop_signal env (stop_pos s) <> Returns true)).
Proof.
  assert (Hexp : forall m d, d <> "" ->
            explained (Some match m with
                            | Some t => if String.eqb t "" then d else t
                            | None => d
                            end)).
  { intros m d Hd. eexists. split; [reflexivity |].
    destruct m as [t |]; [| exact Hd].
    destruct (String.eqb t "") eqn:H; [exact Hd | apply String.eqb_neq; exact H]. }
  unfold finalize. destruct (loc_success v) eqn:Hs; simpl.
  - intro H. inversion H. split; [auto | discriminate].
  - destruct (loc_failure_code v) eqn:Hc.
    + intro H. inversion H. split; [auto | discriminate].
    + unfold bind, get.
      destruct (phase_eqb (current_phase s) STOPPED) eqn:Hph.
      * intro H. inversion H; subst. simpl.
        split; [intros [? | ?]; congruence |]. intros _ _.
        repeat split; auto. apply Hexp. discriminate.
      * unfold _should_stop, catch, call_stop_signal, ret.
        destruct (stop_signal env (stop_pos s)) as [[|] | e] eqn:Hsig;
          simpl; intro H; inversion H; subst; simpl;
          (split; [intros [? | ?]; congruence |]); intros _ _;
          repeat split; auto; try (apply Hexp; discriminate).
        all: right; repeat split; auto; try discriminate.
        all: intro Heq; apply phase_eqb_eq in Heq; congruence.
Qed.

(** The entry a call of [_log] appends. *)
Lemma log_appends env lvl msg ctx s s' :
  _log env lvl msg ctx s = (Ok tt, s') ->
  _log_entries s' =
    (_log_entries s ++
     [mkLogEntry (clock env (clock_pos s)) lvl msg (current_phase s)
        (setdefault "phase" (CStr (phase_value (current_phase s))) ctx)])%list.
Proof.
  unfold _log, bind, get, time_time, modify, catch, call_logger, ret. simpl.
  destruct (logger env _ 3) as [e |]; simpl;
    [| intro H; inversion H; reflexivity].
  destruct (is_TypeError e); simpl; [| intro H; inversion H; reflexivity].
  destruct (logger env _ 2); simpl; intro H; inversion H; reflexivity.
Qed.

(** The report [finish_run] builds, in terms of what [finalize] returns. *)
Lemma finish_run_report env v s b s' :
  finish_run env v s = (Ok b, s') ->
  exists v' s1,
    finalize env v (tick_clock s) = (Ok v', s1) /\
    b = loc_success v' /\
    last_report s' =
      Some (mkReport
              (mkMetrics (_run_start_time s) (clock env (clock_pos s))
                 (loc_attempts v') (loc_success v') (current_phase s)
                 (loc_failure_message v') (loc_failure_code v'))
              (_log_entries s') (phase_history s)) /\
    _log_entries s' =
      (_log_entries s ++
       [mkLogEntry (clock env (S (clock_pos s))) INFO "执行统计"
          (current_phase s)
          (setdefault "phase" (CStr (phase_value (current_phase s)))
             (stats_context v'
                (Z.max (clock env (clock_pos s) - _run_start_time s) 0)))])%list /\
    current_phase s' = current_phase s /\
    phase_history s' = phase_history s /\
    _driver s' = _driver s /\
    trace s' = trace s /\
    clock_pos s' = S (S (clock_pos s)).
Proof.
  unfold finish_run.
  destruct (finalize_returns env v (tick_clock s))
    as (v' & s1 & Hfin & Hv & Hsame & Hclock & Hentries).
  rewrite (bind_Ok_eq _ _ s (clock env (clock_pos s)) (tick_clock s) eq_refl).
  rewrite (bind_Ok_eq _ _ _ _ _ Hfin).
  rewrite (bind_Ok_eq (get _run_start_time) _ s1 _ s1 eq_refl). cbv zeta.
  match goal with |- context [_log env ?l ?m ?c] =>
    destruct (log_returns env l m c s1) as (s2 & Hlog & Hsame2 & Hclock2 & _);
    pose proof (log_appends env l m c s1 s2 Hlog) as Happ
  end.
  rewrite (bind_Ok_eq _ _ _ _ _ Hlog).
  unfold bind, get, modify, ret. intro H. inversion H; subst b s'. clear H.
  destruct Hsame as (H1 & H2 & H3 & H4 & H5 & H6 & _).
  destruct Hsame2 as (G1 & G2 & G3 & G4 & G5 & G6 & _). simpl in *.
  exists v', s1. split; [exact Hfin |]. split; [reflexivity |].
  rewrite Happ, Hentries, Hclock2, Hclock, G1, G2, G5, G6, H1, H2, H4, H5, H6.
  auto 12.
Qed.

(** A run that stored a report went through the three parts of [run]. *)
Lemma run_parts env config fuel max_retries start s b s' r :
  run env config fuel max_retries start s = (Ok b, s') ->
  last_report s' = Some r ->
  exists s0 v s1,
    begin_run env fuel start s = (Ok false, s0) /\
    attempt_loop env config fuel (Z.max 1 max_retries) no_attempt_yet s0
    = (Ok v, s1) /\
    finish_run env v s1 = (Ok b, s').
Proof.
  unfold run. intros Hrun Hr.
  apply bind_Ok_inv in Hrun. destruct Hrun as (returned & s0 & Hbegin & Hrun).
  destruct returned.
  - inversion Hrun; subst. apply begin_run_early in Hbegin. congruence.
  - cbv zeta in Hrun. apply bind_Ok_inv in Hrun.
    destruct Hrun as (v & s1 & Hloop & Hfinish). eauto 10.
Qed.

(** The local variables at the end of the loop, what [finalize] made of
    them, and the report built from them. *)
Lemma run_detail env config fuel max_retries start s b s' r :
  run env config fuel max_retries start s = (Ok b, s') ->
  last_report s' = Some r ->
  exists v v' s1 s2,
    loop_detail v s1 /\
    finalize env v (tick_clock s1) = (Ok v', s2) /\
    b = loc_success v' /\
    metrics r =
      mkMetrics (_run_start_time s1) (clock env (clock_pos s1))
        (loc_attempts v') (loc_success v') (current_phase s1)
        (loc_failure_message v') (loc_failure_code v').
Proof.
  intros Hrun Hr.
  destruct (run_parts _ _ _ _ _ _ _ _ _ Hrun Hr)
    as (s0 & v & s1 & Hbegin & Hloop & Hfinish).
  apply (begin_run_spec env (in_phase INIT) ltac:(in_phase_frame)
           ltac:(in_phase_frame) ltac:(in_phase_frame) ltac:(in_phase_frame)
           Always ltac:(in_phase_frame)) in Hbegin; [| reflexivity].
  apply attempt_loop_detail in Hloop.
  - apply finish_run_report in Hfinish.
    destruct Hfinish as (v' & s2 & Hfin & Hb & Hrep & _).
    rewrite Hrep in Hr. inversion Hr; subst r. simpl.
    exists v, v', s1, s2. auto.
  - split; [reflexivity |]. left. simpl. auto.
Qed.

(* ------------------------------------------------------------------ *)
(** *** Failure code, failure reason and final phase of a report *)

(** The four kinds of report [run] can store: success; an attempt was
    stopped; the last attempt failed; no attempt was made. *)
Definition report_kind (env : Env) (m : TicketRunMetrics) : Prop :=
  (success m = true /\ final_phase m = COMPLETED /\
   ((attempts m = 1 /\ failure_code m = None /\ failure_reason m = None) \/
    (2 <= attempts m /\ failed_code (failure_code m) /\
     explained (failure_reason m)))) \/
  (success m = false /\ 1 <= attempts m /\ final_phase m = STOPPED /\
   failure_code m = Some USER_STOP /\ explained (failure_reason m)) \/
  (success m = false /\ 1 <= attempts m /\ final_phase m = FAILED /\
   failed_code (failure_code m) /\ explained (failure_reason m)) \/
  (success m = false /\ attempts m = 0 /\ final_phase m = INIT /\
   explained (failure_reason m) /\
   (exists n, stop_signal env n = Returns true) /\
   (failure_code m = Some USER_STOP \/
    failure_code m = Some MAX_RETRIES /\
    exists n, stop_signal env n <> Returns true)).

Lemma failed_code_set c : failed_code c -> c <> None.
Proof. intros [H | [H | H]]; rewrite H; discriminate. Qed.

Lemma run_report_kind env config fuel max_retries start s b s' r :
  run env config fuel max_retries start s = (Ok b, s') ->
  last_report s' = Some r ->
  b = success (metrics r) /\ report_kind env (metrics r).
Proof.
  intros Hrun Hr.
  destruct (run_detail _ _ _ _ _ _ _ _ _ Hrun Hr)
    as (v & v' & s1 & s2 & Hloop & Hfin & Hb & Hm).
  pose proof (run_reported _ _ _ _ _ _ _ _ _ _ _ _
                (run_always _ _ _ _ _ _ _ _ Hrun) Hr)
    as (w & w' & t1 & Hout & _ & _ & Hm' & _).
  rewrite Hm in Hm'. rewrite Hm. simpl. split; [exact Hb |].
  apply finalize_detail in Hfin. destruct Hfin as [Hsame Hnew].
  unfold report_kind, in_phase in *. simpl.
  destruct Hloop as [(Hs & Hph & Hcases) | [(Hs & Hn & Hc & Hmsg & Hph)
                                           | [Hs Hhead]]].
  - rewrite (Hsame (or_introl Hs)). left. auto.
  - rewrite Hsame by (right; congruence). right; left. auto 10.
  - destruct Hhead as [(Hn & Hc & _ & Hph) | (Hn & Hc & Hmsg & Hph)].
    + destruct (Hnew Hs Hc) as (Hn' & Hs' & Hmsg & Hcode).
      right; right; right. rewrite Hn', Hn, Hs', Hph.
      repeat split; auto.
      * inversion Hm'.
        destruct Hout as [_ [(_ & Hge & _) | [(_ & Hge & _) | Hexit]]];
          try lia.
        destruct Hexit as (_ & _ & _ & _ & [Hexit | Hstop]);
          [lia | exact Hstop].
      * destruct Hcode as [Hcode | (Hcode & _ & Hsig)]; [left; exact Hcode |].
        right. split; [exact Hcode |]. eexists. exact Hsig.
    + rewrite Hsame by (right; apply failed_code_set; exact Hc).
      right; right; left. auto 10.
Qed.

(** The first driver call fails, every later one answers: the first
    connection attempt is refused and the second goes through. *)
Definition env_flaky : Env :=
  mkEnv ticking_clock (fun _ => Returns false) (fun _ _ => None)
        (fun n _ =>
           match n with
           | O => Raises (mkExn (OtherException "ConnectionError") "refused")
           | S _ => Returns sample_value
           end)
        (fun _ => Some (6, 15)).

(** The stop signal is set at its first reading only. *)
Definition env_stop_once : Env :=
  mkEnv ticking_clock
        (fun n => match n with O => Returns true | S _ => Returns false end)
        (fun _ _ => None) (fun _ _ => Returns sample_value)
        (fun _ => Some (6, 15)).

(** X1: the report of a run that did not succeed always names a failure
    code and carries a failure reason that is not the empty text. *)
Theorem failed_run_is_explained env config fuel max_retries start s b s' r :
  run env config fuel max_retries start s = (Ok b, s') ->
  last_report s' = Some r ->
  success (metrics r) = false ->
  (exists c, failure_code (metrics r) = Some c) /\
  explained (failure_reason (metrics r)).
Proof.
  intros Hrun Hr Hfail.
  destruct (run_report_kind _ _ _ _ _ _ _ _ _ Hrun Hr) as [_ Hkind].
  destruct Hkind as [(Hs & _) | [(_ & _ & _ & Hc & Hmsg)
                    | [(_ & _ & _ & Hc & Hmsg) | (_ & _ & _ & Hmsg & _ & Hc)]]].
  - congruence.
  - eauto.
  - split; [| exact Hmsg]. destruct Hc as [Hc | [Hc | Hc]]; eauto.
  - split; [| exact Hmsg]. destruct Hc as [Hc | [Hc _]]; eauto.
Qed.

Lemma failed_run_is_explained_witness :
  exists s' r,
    run env_unreachable sample_config 2 2 None post_init = (Ok false, s') /\
    last_report s' = Some r /\
    (exists c, failure_code (metrics r) = Some c) /\
    explained (failure_reason (metrics r)).
Proof.
  pose (out := run env_unreachable sample_config 2 2 None post_init).
  assert (Hrun : run env_unreachable sample_config 2 2 None post_init
                 = (Ok false, snd out)) by (vm_compute; reflexivity).
  destruct (last_report (snd out)) as [r |] eqn:Hr;
    [| vm_compute in Hr; discriminate].
  exists (snd out), r. split; [exact Hrun |]. split; [exact Hr |].
  apply (failed_run_is_explained env_unreachable sample_config 2 2 None
           post_init false (snd out) r Hrun Hr).
  vm_compute in Hr. inversion Hr. reflexivity.
Defined.



(** X3: the final phase of a report is determined by its other fields:
    [INIT] when no attempt was made, [COMPLETED] on success, [STOPPED]
    when an attempt was stopped and [FAILED] after any other failed
    attempt.  In particular the value [run] returns is the success flag,
    and it is set exactly when the final phase is [COMPLETED]. *)
Theorem final_phase_of_report env config fuel max_retries start s b s' r :
  run env config fuel max_retries start s = (Ok b, s') ->
  last_report s' = Some r ->
  b = success (metrics r) /\
  0 <= attempts (metrics r) /\
  final_phase (metrics r) =
    (if attempts (metrics r) =? 0 then INIT
     else if success (metrics r) then COMPLETED
     else match failure_code (metrics r) with
          | Some USER_STOP => STOPPED
          | _ => FAILED
          end) /\
  (success (metrics r) = true <-> final_phase (metrics r) = COMPLETED).
Proof.
  intros Hrun Hr.
  destruct (run_report_kind _ _ _ _ _ _ _ _ _ Hrun Hr) as [Hb Hkind].
  split; [exact Hb |].
  destruct Hkind as [(Hs & Hph & Hcases)
                    | [(Hs & Hn & Hph & Hc & _)
                    | [(Hs & Hn & Hph & Hc & _) | (Hs & Hn & Hph & _)]]];
    rewrite Hs, Hph.
  - assert (Hn : 1 <= attempts (metrics r))
      by (destruct Hcases as [H | H]; lia).
    destruct (attempts (metrics r) =? 0) eqn:H0; [lia |].
    repeat split; auto; lia.
  - rewrite Hc. destruct (attempts (metrics r) =? 0) eqn:H0; [lia |].
    repeat split; auto; try lia; discriminate.
  - destruct (attempts (metrics r) =? 0) eqn:H0; [lia |].
    repeat split; try lia; try discriminate.
    destruct Hc as [Hc | [Hc | Hc]]; rewrite Hc; reflexivity.
  - rewrite Hn. simpl. repeat split; auto; try lia; discriminate.
Qed.

Lemma final_phase_of_report_witness :
  exists s' r,
    run env_stop_requested sample_config 3 3 None post_init = (Ok false, s') /\
    last_report s' = Some r /\
    attempts (metrics r) = 0 /\ final_phase (metrics r) = INIT.
Proof.
  pose (out := run env_stop_requested sample_config 3 3 None post_init).
  assert (Hrun : run env_stop_requested sample_config 3 3 None post_init
                 = (Ok false, snd out)) by (vm_compute; reflexivity).
  destruct (last_report (snd out)) as [r |] eqn:Hr;
    [| vm_compute in Hr; discriminate].
  assert (Hn : attempts (metrics r) = 0)
    by (vm_compute in Hr; inversion Hr; reflexivity).
  exists (snd out), r. split; [exact Hrun |]. split; [exact Hr |].
  split; [exact Hn |].
  destruct (final_phase_of_report env_stop_requested sample_config 3 3 None
              post_init false (snd out) r Hrun Hr) as (_ & _ & Hph & _).
  rewrite Hn in Hph. exact Hph.
Defined.

(** X4: [MAX_RETRIES] is reported only by a run that made no attempt at
    all: the stop signal was set when the loop test read it and was not
    set when the final classification read it.  A run that used up its
    budget reports the code of its last failed attempt instead. *)
Theorem max_retries_means_no_attempt env config fuel max_retries start
  s b s' r :
  run env config fuel max_retries start s = (Ok b, s') ->
  last_report s' = Some r ->
  failure_code (metrics r) = Some MAX_RETRIES ->
  attempts (metrics r) = 0 /\
  success (metrics r) = false /\
  final_phase (metrics r) = INIT /\
  (exists n, stop_signal env n = Returns true) /\
  (exists n, stop_signal env n <> Returns true).
Proof.
  intros Hrun Hr Hmax.
  destruct (run_report_kind _ _ _ _ _ _ _ _ _ Hrun Hr) as [_ Hkind].
  destruct Hkind as [(_ & _ & Hcases)
                    | [(_ & _ & _ & Hc & _)
                    | [(_ & _ & _ & Hc & _) | H]]].
  - destruct Hcases as [(_ & Hc & _) | (_ & [Hc | [Hc | Hc]] & _)]; congruence.
  - congruence.
  - destruct Hc as [Hc | [Hc | Hc]]; congruence.
  - destruct H as (Hs & Hn & Hph & _ & Hset & [Hc | [_ Hclear]]);
      [congruence | auto].
Qed.

Lemma max_retries_means_no_attempt_witness :
  exists s' r,
    run env_stop_once sample_config 3 3 None post_init = (Ok false, s') /\
    last_report s' = Some r /\
    failure_code (metrics r) = Some MAX_RETRIES /\
    attempts (metrics r) = 0.
Proof.
  pose (out := run env_stop_once sample_config 3 3 None post_init).
  assert (Hrun : run env_stop_once sample_config 3 3 None post_init
                 = (Ok false, snd out)) by (vm_compute; reflexivity).
  destruct (last_report (snd out)) as [r |] eqn:Hr;
    [| vm_compute in Hr; discriminate].
  assert (Hc : failure_code (metrics r) = Some MAX_RETRIES)
    by (vm_compute in Hr; inversion Hr; reflexivity).
  exists (snd out), r. split; [exact Hrun |]. split; [exact Hr |].
  split; [exact Hc |].
  apply (max_retries_means_no_attempt env_stop_once sample_config 3 3 None
           post_init false (snd out) r Hrun Hr Hc).
Defined.

(* ------------------------------------------------------------------ *)
(** *** The phase history and the log of a report *)

(** No phase is recorded twice in a row. *)
Fixpoint no_stutter (h : list RunnerPhase) : bool :=
  match h with
  | p :: (q :: _) as rest => negb (phase_eqb p q) && no_stutter rest
  | _ => true
  end.

(** The history starts with [INIT], ends with the current phase and does
    not stutter. *)
Definition history_ok (s : State) : Prop :=
  hd_error (phase_history s) = Some INIT /\
  last (phase_history s) INIT = current_phase s /\
  no_stutter (phase_history s) = true.

Lemma no_stutter_app h p :
  no_stutter h = true -> phase_eqb p (last h INIT) = false ->
  no_stutter (h ++ [p]) = true.
Proof.
  induction h as [| q [| q' rest] IH]; intros Hh Hp; [reflexivity | |].
  - simpl in *. rewrite phase_eqb_sym, Hp. reflexivity.
  - change (negb (phase_eqb q q') && no_stutter ((q' :: rest) ++ [p]) = true).
    change (negb (phase_eqb q q') && no_stutter (q' :: rest) = true) in Hh.
    apply andb_prop in Hh. destruct Hh as [Hq Hh]. rewrite Hq. simpl negb.
    apply IH; auto.
Qed.

Lemma history_transition p s : history_ok s -> history_ok (transition p s).
Proof.
  intros (Hhd & Hlast & Hns). unfold transition.
  destruct (phase_eqb p (current_phase s)) eqn:Heq; [repeat split; auto |].
  repeat split; simpl.
  - destruct (phase_history s); [discriminate | exact Hhd].
  - apply last_last.
  - apply no_stutter_app; [exact Hns | rewrite Hlast; exact Heq].
Qed.

Ltac history_frame := intros; unfold history_ok, Top in *; simpl; auto.

Lemma run_history env config fuel max_retries start s b s' :
  run env config fuel max_retries start s = (Ok b, s') ->
  run_outcome env history_ok Top history_ok history_ok fuel max_retries
    start s b s'.
Proof.
  assert (Hlog : forall lvl msg ctx st,
             history_ok st -> history_ok (snd (_log env lvl msg ctx st))).
  { intros. eapply (keeps_snd _ Top); [| eassumption].
    apply keeps_log; history_frame. }
  assert (Hclean : forall st,
             history_ok st -> history_ok (snd (_cleanup_driver env st))).
  { intros. eapply (keeps_snd _ Top); [| eassumption].
    apply (keeps_cleanup_driver env _ Top); history_frame. }
  eapply run_spec; auto; try solve [history_frame].
  all: try (intros; apply history_transition; assumption).
  intro skip. apply flow_steps_spec; try solve [history_frame].
  all: intros; apply history_transition; assumption.
Qed.

(** X5: when [run] returns, the phase history of the runner starts with
    [INIT], ends with the current phase and never holds the same phase
    twice in a row; the report, when there is one, carries this very
    history, and its final phase is the last entry. *)
Theorem report_history_shape env config fuel max_retries start s b s' :
  run env config fuel max_retries start s = (Ok b, s') ->
  hd_error (phase_history s') = Some INIT /\
  last (phase_history s') INIT = current_phase s' /\
  no_stutter (phase_history s') = true /\
  forall r, last_report s' = Some r ->
    report_phase_history r = phase_history s' /\
    final_phase (metrics r) = current_phase s' /\
    last (report_phase_history r) INIT = final_phase (metrics r).
Proof.
  intro Hrun.
  assert (Hok : history_ok s' /\
                forall r, last_report s' = Some r ->
                  report_phase_history r = phase_history s' /\
                  final_phase (metrics r) = current_phase s').
  { destruct (run_history _ _ _ _ _ _ _ _ Hrun)
      as [(_ & Hh & Hearly)
         | (v & v' & s1 & entries & Hloop & _ & _ & Hrep & Hph & Hhist)].
    - split; [exact Hh |]. intros r Hr.
      apply begin_run_early in Hearly. congruence.
    - split.
      + unfold history_ok. rewrite Hph, Hhist.
        destruct Hloop as [_ [(_ & _ & H) | [(_ & _ & _ & H & _) | (_ & H & _)]]];
          exact H.
      + intros r Hr. rewrite Hrep in Hr. inversion Hr; subst r. simpl. auto. }
  destruct Hok as [(Hhd & Hlast & Hns) Hrep].
  repeat split; auto; destruct (Hrep r H) as [Hh Hf]; congruence.
Qed.

Lemma report_history_shape_witness :
  exists s',
    run env_unreachable sample_config 2 2 None post_init = (Ok false, s') /\
    phase_history s' = [INIT; CONNECTING; FAILED; CONNECTING; FAILED] /\
    no_stutter (phase_history s') = true.
Proof.
  pose (out := run env_unreachable sample_config 2 2 None post_init).
  assert (Hrun : run env_unreachable sample_config 2 2 None post_init
                 = (Ok false, snd out)) by (vm_compute; reflexivity).
  exists (snd out). split; [exact Hrun |].
  split; [vm_compute; reflexivity |].
  apply (report_history_shape env_unreachable sample_config 2 2 None
           post_init false (snd out) Hrun).
Defined.

(** The context of the statistics entry that closes the log of a run,
    written from the metrics of the report. *)
Definition statistics_of (m : TicketRunMetrics) : Context :=
  ([ ("attempts", CInt (attempts m));
     ("retries", CInt (retries m));
     ("duration", CInt (duration m));
     ("success", CBool (success m)) ]
   ++ match failure_code m with
      | Some c => [("failure_code", CStr (failure_value c))]
      | None => []
      end
   ++ [("phase", CStr (phase_value (final_phase m)))])%list.



(* ------------------------------------------------------------------ *)
(** *** What the GUI shows for a failed run

    [DamaiGUI._format_failure_for_display] of [src/damai_gui.py], the
    text of the warning dialog shown after a run that did not succeed.
    [x or d] on texts is [or_else x d]. *)

Definition or_else (t d : string) : string :=
  if String.eqb t "" then d else t.

Definition _format_failure_for_display (report : option TicketRunReport)
  : string :=
  match report with
  | None => "未能成功抢票，原因未知。"
  | Some r =>
      let m := metrics r in
      let base_reason :=
        match failure_reason m with
        | Some t => or_else t "未能成功抢票"
        | None => "未能成功抢票"
        end in
      match failure_code m with
      | None => base_reason
      | Some MAX_RETRIES =>
          "多次尝试仍未成功（共 " ++ str_Z (attempts m)
          ++ " 次）。建议检查网络或稍后重试。"
      | Some APPIUM_CONNECTION => "无法连接 Appium 服务：" ++ base_reason
      | Some FLOW_FAILURE => "流程执行失败：" ++ base_reason
      | Some UNEXPECTED => "发生未预期的错误：" ++ base_reason
      | Some USER_STOP => or_else base_reason "流程已被用户停止。"
      end
  end.

(** X7: for the report of a run that did not succeed the displayed text
    never falls back on a default reason: it is built from the failure
    reason stored in the report, prefixed according to the failure code.
    The one exception is [MAX_RETRIES], whose text names the number of
    attempts, and that number is always 0. *)
Theorem displayed_failure_text env config fuel max_retries start s b s' r :
  run env config fuel max_retries start s = (Ok b, s') ->
  last_report s' = Some r ->
  success (metrics r) = false ->
  exists reason,
    failure_reason (metrics r) = Some reason /\ reason <> "" /\
    _format_failure_for_display (Some r) =
      match failure_code (metrics r) with
      | Some MAX_RETRIES =>
          "多次尝试仍未成功（共 0 次）。建议检查网络或稍后重试。"
      | Some APPIUM_CONNECTION => "无法连接 Appium 服务：" ++ reason
      | Some FLOW_FAILURE => "流程执行失败：" ++ reason
      | Some UNEXPECTED => "发生未预期的错误：" ++ reason
      | Some USER_STOP => reason
      | None => reason
      end.
Proof.
  intros Hrun Hr Hfail.
  destruct (run_report_kind _ _ _ _ _ _ _ _ _ Hrun Hr) as [_ Hkind].
  assert (Hbase : forall t, t <> "" -> or_else t "未能成功抢票" = t).
  { intros t Ht. unfold or_else. apply String.eqb_neq in Ht. rewrite Ht.
    reflexivity. }
  assert (Hstop : forall t, t <> "" -> or_else t "流程已被用户停止。" = t).
  { intros t Ht. unfold or_else. apply String.eqb_neq in Ht. rewrite Ht.
    reflexivity. }
  unfold _format_failure_for_display.
  destruct Hkind as [(Hs & _)
                    | [(_ & _ & _ & Hc & Hmsg)
                    | [(_ & _ & _ & Hc & Hmsg) | (_ & Hn & _ & Hmsg & _ & Hc)]]].
  - congruence.
  - destruct Hmsg as (t & Hmsg & Ht). exists t. cbv zeta.
    rewrite Hmsg, Hc, (Hbase t Ht), (Hstop t Ht). auto.
  - destruct Hmsg as (t & Hmsg & Ht). exists t. cbv zeta.
    rewrite Hmsg, (Hbase t Ht).
    destruct Hc as [Hc | [Hc | Hc]]; rewrite Hc; auto.
  - destruct Hmsg as (t & Hmsg & Ht). exists t. cbv zeta.
    rewrite Hmsg, Hn, (Hbase t Ht).
    destruct Hc as [Hc | [Hc _]]; rewrite Hc; [rewrite (Hstop t Ht) |]; auto.
Qed.

Lemma displayed_failure_text_witness :
  exists s' r,
    run env_stop_once sample_config 3 3 None post_init = (Ok false, s') /\
    last_report s' = Some r /\
    _format_failure_for_display (Some r) =
      "多次尝试仍未成功（共 0 次）。建议检查网络或稍后重试。".
Proof.
  pose (out := run env_stop_once sample_config 3 3 None post_init).
  assert (Hrun : run env_stop_once sample_config 3 3 None post_init
                 = (Ok false, snd out)) by (vm_compute; reflexivity).
  destruct (last_report (snd out)) as [r |] eqn:Hr;
    [| vm_compute in Hr; discriminate].
  assert (Hc : failure_code (metrics r) = Some MAX_RETRIES)
    by (vm_compute in Hr; inversion Hr; reflexivity).
  assert (Hs : success (metrics r) = false)
    by (vm_compute in Hr; inversion Hr; reflexivity).
  exists (snd out), r. split; [exact Hrun |]. split; [exact Hr |].
  destruct (displayed_failure_text env_stop_once sample_config 3 3 None
              post_init false (snd out) r Hrun Hr Hs) as (t & _ & _ & Htext).
  rewrite Hc in Htext. exact Htext.
Defined.

(* ------------------------------------------------------------------ *)
(** *** Logging *)

Lemma setdefault_has_key key v c :
  exists w, In (key, w) (setdefault key v c).
Proof.
  unfold setdefault.
  destruct (existsb (fun kv => String.eqb (fst kv) key) c) eqn:H.
  - apply existsb_exists in H. destruct H as ([k w] & Hin & Hk).
    simpl in Hk. apply String.eqb_eq in Hk. subst k. eauto.
  - exists v. apply in_or_app. right. left. reflexivity.
Qed.


(* ------------------------------------------------------------------ *)
(** *** The driver session *)

Definition is_quit (c : DriverCall) : bool :=
  match c with Quit => true | _ => false end.

Definition is_connect (c : DriverCall) : bool :=
  match c with Connect _ => true | _ => false end.

(** What [_cleanup_driver] does, in full. *)
Lemma cleanup_driver_eq env s :
  _cleanup_driver env s =
  (Ok tt, match _driver s with
          | Some _ => with_driver None (tick_driver Quit s)
          | None => s
          end).
Proof.
  unfold _cleanup_driver, bind, get, finally, catch, drv, modify, ret.
  destruct (_driver s); simpl; [| reflexivity].
  destruct (driver env (driver_pos s) Quit); reflexivity.
Qed.

(** X9: closing the session is safe and idempotent.  [_cleanup_driver]
    always returns, also when [quit] raises; afterwards no driver is
    held; it calls [quit] exactly when a driver was held, so that a
    second call does nothing at all. *)
Theorem cleanup_driver_releases env s :
  exists s',
    _cleanup_driver env s = (Ok tt, s') /\
    _driver s' = None /\
    trace s' = match _driver s with
               | Some _ => Quit :: trace s
               | None => trace s
               end /\
    _cleanup_driver env s' = (Ok tt, s').
Proof.
  rewrite cleanup_driver_eq. eexists. split; [reflexivity |].
  destruct (_driver s) eqn:Hd; simpl.
  - repeat split; rewrite cleanup_driver_eq; reflexivity.
  - rewrite cleanup_driver_eq, Hd. auto.
Qed.

(** The runner holds the driver [d] (or none). *)
Definition has_driver (d : option nat) (s : State) : Prop := _driver s = d.

Ltac driver_frame :=
  intros; unfold has_driver, transition, Top in *; simpl; auto;
  try match goal with
      | |- _driver (if ?b then _ else _) = _ => destruct b; simpl; auto
      end.

Lemma flow_keeps_driver env config d skip :
  triple (has_driver d) (flow_steps env config skip)
    (fun b s => has_driver d s /\ b = true)
    (raised_within (has_driver d) Top).
Proof. apply flow_steps_spec; driver_frame. Qed.

Lemma perform_flow_keeps_driver env config d skip :
  keeps (has_driver d) Top (_perform_ticket_flow env config skip).
Proof.
  eapply triple_conseq.
  - apply (perform_ticket_flow_spec env config (has_driver d) Top)
      with (Done := has_driver d) (Halted := has_driver d);
      try solve [driver_frame].
    apply flow_keeps_driver.
  - auto.
  - intros b s [Hs _]. exact Hs.
  - intros e s [_ Hs]. split; [| exact I].
    destruct (is_TicketRunnerStopped e); exact Hs.
Qed.

Lemma log_keeps_driver env d lvl msg ctx :
  keeps (has_driver d) Top (_log env lvl msg ctx).
Proof. apply keeps_log; driver_frame. Qed.

(** An attempt on a session it did not open leaves the driver field as
    it found it. *)
Lemma execute_once_keeps_driver env config d :
  keeps (has_driver d) Top (_execute_once env config true).
Proof.
  unfold _execute_once. cbn [negb].
  apply keeps_finally; [| apply keeps_ret].
  apply keeps_bind;
    [apply keeps_ensure_not_stopped; driver_frame | intros _].
  apply keeps_bind.
  - apply keeps_bind; [apply keeps_ensure_driver; driver_frame | intros _].
    apply log_keeps_driver.
  - intros _. apply keeps_bind; [apply log_keeps_driver | intros _].
    apply perform_flow_keeps_driver.
Qed.

(** X10: an attempt that opens its own session never leaves it open:
    whether [_execute_once(skip_preheat=False)] returns or raises, no
    driver is held afterwards.  An attempt on a pre-heated session
    ([skip_preheat=True]) leaves the driver field as it found it. *)
Theorem execute_once_releases env config s :
  fst (_execute_once env config false s) <> OutOfFuel /\
  _driver (snd (_execute_once env config false s)) = None /\
  fst (_execute_once env config true s) <> OutOfFuel /\
  _driver (snd (_execute_once env config true s)) = _driver s.
Proof.
  assert (Hfuel : forall skip,
             fst (_execute_once env config skip s) <> OutOfFuel).
  { intros skip H.
    pose proof (execute_once_completes env config skip s I) as Ht.
    destruct (_execute_once env config skip s) as [[b | e |] s1];
      simpl in H; try discriminate. exact Ht. }
  split; [apply Hfuel |]. split; [| split; [apply Hfuel |]].
  - specialize (Hfuel false). revert Hfuel.
    unfold _execute_once, finally. cbn [negb].
    match goal with |- context [match ?body s with _ => _ end] =>
      destruct (body s) as [[b | e |] s1] end;
      try rewrite cleanup_driver_eq; simpl; intro Hfuel;
      try (destruct (_driver s1) eqn:Hd; simpl; [reflexivity | exact Hd]).
    congruence.
  - apply (keeps_snd _ Top (_execute_once env config true) s
             (execute_once_keeps_driver env config (_driver s))).
    reflexivity.
Qed.

(** The [try] statement preserves the driver field whenever the attempt
    it makes does. *)
Lemma try_attempt_keeps env config d v :
  keeps (has_driver d) Top
    (_execute_once env config
       match d with Some _ => true | None => false end) ->
  keeps (has_driver d) Top (try_attempt env config v).
Proof.
  intro Hexec. unfold try_attempt. apply keeps_catch_all.
  - intros s Hs. unfold bind at 1. unfold get at 1. cbv beta iota.
    rewrite Hs.
    refine ((_ : keeps (has_driver d) Top
                   (bind (_execute_once env config _) _)) s Hs).
    apply keeps_bind; [exact Hexec |].
    intros [|]; [| apply keeps_ret].
    apply keeps_bind; [apply log_keeps_driver | intros _; apply keeps_ret].
  - intros e s Hs. unfold bind.
    destruct (is_TicketRunnerStopped e);
      [rewrite mark_stopped_eq
      | destruct (is_TicketRunnerError e); rewrite mark_failure_eq];
      match goal with |- context [_log env ?l ?m ?c ?st] =>
        assert (Hst : has_driver d st) by (revert Hs; driver_frame);
        pose proof (keeps_snd _ _ _ st (log_keeps_driver env _ l m c) Hst)
          as Hlog;
        destruct (log_returns env l m c st) as (s' & Hl & _); rewrite Hl in *
      end; exact Hlog.
Qed.

Lemma try_attempt_keeps_driver env config h v :
  keeps (has_driver (Some h)) Top (try_attempt env config v).
Proof. apply try_attempt_keeps. apply execute_once_keeps_driver. Qed.

Lemma prepare_retry_keeps_driver env config h n :
  keeps (has_driver (Some h)) Top (prepare_retry env config n).
Proof.
  unfold prepare_retry. intros s Hs.
  unfold bind at 1. unfold bind at 1. unfold get at 1. cbv beta iota.
  rewrite Hs. unfold ret at 1. cbv beta iota.
  unfold bind at 1. unfold bind at 1. unfold get at 1. cbv beta iota.
  rewrite Hs.
  match goal with |- context [catch ?m ?hd s] =>
    assert (Hnav : keeps (has_driver (Some h)) Top (catch m hd))
  end.
  { apply keeps_catch_all.
    - apply (keeps_navigate_to_homepage env _ Top); driver_frame.
    - intro e. apply log_keeps_driver. }
  specialize (Hnav s Hs).
  match goal with |- context [catch ?m ?hd s] =>
    destruct (catch m hd s) as [[[] | e |] s1] end;
    [| exact Hnav | exact Hnav].
  refine ((_ : keeps (has_driver (Some h)) Top (bind (_log env _ _ _) _))
            s1 Hnav).
  apply keeps_bind; [apply log_keeps_driver | intros _; apply keeps_ret].
Qed.

Lemma end_attempt_keeps_driver env config h m v :
  keeps (has_driver (Some h)) Top (end_attempt env config m v).
Proof.
  unfold end_attempt. apply keeps_bind.
  - destruct (_ && _); [| apply keeps_ret].
    apply keeps_bind; [apply keeps_should_stop; driver_frame |].
    intro stop. apply keeps_ret.
  - intros [|]; [apply prepare_retry_keeps_driver | apply keeps_ret].
Qed.

Lemma attempt_loop_keeps_driver env config h max_retries fuel :
  forall v s v' s',
    has_driver (Some h) s ->
    attempt_loop env config fuel max_retries v s = (Ok v', s') ->
    has_driver (Some h) s'.
Proof.
  induction fuel as [| fuel IH]; intros v s v' s' Hs Hrun;
    simpl in Hrun; apply bind_Ok_inv in Hrun;
    destruct Hrun as (enter & s1 & Hmay & Hrun);
    assert (Hs1 : has_driver (Some h) s1)
      by (eapply (keeps_Ok _ Top);
          [apply keeps_may_attempt; driver_frame | exact Hs | exact Hmay]);
    destruct enter; cbv beta iota in Hrun;
    try (inversion Hrun; subst v' s'; exact Hs1); try discriminate.
  apply bind_Ok_inv in Hrun. destruct Hrun as ([ctl v1] & s2 & Hbegin & Hrun).
  unfold begin_attempt in Hbegin. apply bind_Ok_inv in Hbegin.
  destruct Hbegin as ([] & s3 & Hlog & Htry).
  assert (Hs2 : has_driver (Some h) s2).
  { eapply keeps_Ok; [apply try_attempt_keeps_driver | | exact Htry].
    eapply keeps_Ok; [apply (log_keeps_driver env) | exact Hs1 | exact Hlog]. }
  destruct ctl.
  - inversion Hrun; subst v' s'. exact Hs2.
  - apply bind_Ok_inv in Hrun. destruct Hrun as ([] & s4 & Hend & Hrun).
    apply (IH v1 s4 v' s'); [| exact Hrun].
    eapply keeps_Ok; [apply end_attempt_keeps_driver | exact Hs2 | exact Hend].
Qed.



(* ------------------------------------------------------------------ *)
(** *** Pre-heating

    [DamaiAppTicketRunner.preheat]: connect, apply the settings, choose
    the city and search the event, and leave the session open for the
    [run] that follows. *)

Definition preheat (env : Env) (config : AppTicketConfig) : M unit :=
  modify (with_phase INIT [INIT]) ;;
  modify (with_log_entries []) ;;
  _log env INFO "开始预热操作" [] ;;
  _transition_to CONNECTING ;;
  _log env STEP "连接Appium server" [] ;;
  d <- _create_driver env config ;;
  modify (with_driver d) ;;
  _transition_to APPLYING_SETTINGS ;;
  _log env STEP "应用Appium设置" [] ;;
  _apply_driver_settings env ;;
  (if truthy (city config) then
     _transition_to SELECTING_CITY ;;
     _log env STEP ("选择城市: " ++ city config) [] ;;
     found <- _select_city env (city config) ;;
     if negb found
     then _log env WARNING ("未找到城市 " ++ city config) []
     else ret tt
   else ret tt) ;;
  (if truthy (keyword config) then
     _transition_to SEARCHING_EVENT ;;
     _log env STEP ("搜索演出: " ++ keyword config) [] ;;
     ok <- _search_event env (keyword config) false false ;;
     require ok "未能完成演出搜索"
   else ret tt) ;;
  _log env SUCCESS "预热操作完成" [].

(** What [preheat] leaves alone: the stop signal is not read and the
    stored report is not touched. *)
Definition undisturbed (n : nat) (r : option TicketRunReport) (s : State)
  : Prop :=
  stop_pos s = n /\ last_report s = r.

Ltac undisturbed_frame :=
  intros; unfold undisturbed, transition, Top in *; simpl; auto;
  try match goal with
      | |- context [if ?b then _ else _] => destruct b; simpl; auto
      end.

(** The phases [preheat] can be in when it ends. *)
Definition preheat_phase (p : RunnerPhase) : Prop :=
  p = CONNECTING \/ p = APPLYING_SETTINGS \/ p = SELECTING_CITY \/
  p = SEARCHING_EVENT.

(** The runner is in phase [p]; the stop signal has been read [n] times
    and the stored report is [r]. *)
Definition preheating (p : RunnerPhase) (n : nat)
  (r : option TicketRunReport) (s : State) : Prop :=
  current_phase s = p /\ undisturbed n r s.

Ltac preheating_frame :=
  intros; unfold preheating, undisturbed, Top in *; simpl; auto.

(** How [preheat] may raise: in the phase of the step that failed. *)
Definition preheat_raised (n : nat) (r : option TicketRunReport)
  (e : exn) (s : State) : Prop :=
  (current_phase s = CONNECTING \/ current_phase s = SELECTING_CITY \/
   current_phase s = SEARCHING_EVENT) /\ undisturbed n r s.

Section Preheat.

Variable env : Env.
Variable config : AppTicketConfig.
Variable n : nat.
Variable r : option TicketRunReport.

Lemma step_quiet {A B} p (m : M A) (k : A -> M B) Q X :
  keeps (preheating p n r) (fun _ => False) m ->
  (forall a, triple (preheating p n r) (k a) Q X) ->
  triple (preheating p n r) (bind m k) Q X.
Proof.
  intros Hm Hk. eapply triple_bind; [| exact Hk].
  eapply triple_conseq; [exact Hm | auto | intros a s Hs; exact Hs |].
  intros e s [_ []].
Qed.

Lemma last_quiet {A} p (m : M A) X :
  keeps (preheating p n r) (fun _ => False) m ->
  triple (preheating p n r) m (fun _ => preheating p n r) X.
Proof.
  intro Hm. eapply triple_conseq; [exact Hm | auto | auto |].
  intros e s [_ []].
Qed.

Lemma step_raising {A B} p (m : M A) (k : A -> M B) Q :
  keeps (preheating p n r) Top m ->
  p = CONNECTING \/ p = SELECTING_CITY \/ p = SEARCHING_EVENT ->
  (forall a, triple (preheating p n r) (k a) Q (preheat_raised n r)) ->
  triple (preheating p n r) (bind m k) Q (preheat_raised n r).
Proof.
  intros Hm Hp Hk. eapply triple_bind; [| exact Hk].
  eapply triple_conseq; [exact Hm | auto | intros a s Hs; exact Hs |].
  intros e s [[Hph Hs] _]. split; [rewrite Hph; exact Hp | exact Hs].
Qed.

Lemma step_transition {B} p q (k : unit -> M B) Q X :
  (forall a, triple (preheating q n r) (k a) Q X) ->
  triple (preheating p n r) (bind (_transition_to q) k) Q X.
Proof.
  intro Hk. eapply triple_bind; [| exact Hk].
  intros s [Hph Hs]. rewrite transition_to_eq.
  split; [apply current_transition |].
  revert Hs. unfold undisturbed, transition.
  destruct (phase_eqb q (current_phase s)); simpl; auto.
Qed.

Lemma log_quiet p lvl msg ctx :
  keeps (preheating p n r) (fun _ => False) (_log env lvl msg ctx).
Proof. apply keeps_log; preheating_frame. Qed.

Lemma preheat_spec :
  triple (undisturbed n r) (preheat env config)
    (fun _ s =>
       preheating (if truthy (keyword config) then SEARCHING_EVENT
                   else if truthy (city config) then SELECTING_CITY
                   else APPLYING_SETTINGS) n r s)
    (preheat_raised n r).
Proof.
  unfold preheat.
  eapply triple_bind with (Q1 := fun _ => preheating INIT n r);
    [apply triple_modify; preheating_frame | intros _].
  apply step_quiet; [apply triple_modify; preheating_frame | intros _].
  apply step_quiet; [apply log_quiet | intros _].
  apply step_transition; intros _.
  apply step_quiet; [apply log_quiet | intros _].
  apply step_raising;
    [apply (keeps_create_driver env config _ Top); preheating_frame
    | auto | intro d].
  apply step_quiet; [apply triple_modify; preheating_frame | intros _].
  apply step_transition; intros _.
  apply step_quiet; [apply log_quiet | intros _].
  apply step_quiet;
    [apply (keeps_apply_driver_settings env _ Top); preheating_frame
    | intros _].
  eapply triple_bind
    with (Q1 := fun _ => preheating (if truthy (city config)
                                     then SELECTING_CITY
                                     else APPLYING_SETTINGS) n r).
  { destruct (truthy (city config)); [| apply triple_ret; auto].
    apply step_transition; intros _.
    apply step_quiet; [apply log_quiet | intros _].
    apply step_raising;
      [apply (keeps_select_city env _ Top); preheating_frame
      | auto | intro found].
    destruct (negb found); [| apply triple_ret; auto].
    apply last_quiet. apply log_quiet. }
  intros _.
  eapply triple_bind
    with (Q1 := fun _ =>
            preheating (if truthy (keyword config) then SEARCHING_EVENT
                        else if truthy (city config) then SELECTING_CITY
                        else APPLYING_SETTINGS) n r).
  { destruct (truthy (keyword config)); [| apply triple_ret; auto].
    apply step_transition; intros _.
    apply step_quiet; [apply log_quiet | intros _].
    apply step_raising;
      [apply (keeps_search_event env _ Top); preheating_frame
      | auto | intro ok].
    unfold require. destruct (negb ok); [| apply triple_ret; auto].
    apply triple_raise. intros s [Hph Hs]. split; [rewrite Hph; auto | exact Hs]. }
  intros _. apply last_quiet. apply log_quiet.
Qed.

End Preheat.

(** X12: [preheat] cannot be cancelled and records no failure.  It never
    reads the stop signal and never touches the stored report.  When it
    returns, the runner is in the phase of the last step the
    configuration asks for; when it raises, the runner stays in the
    phase of the step that raised, which is connecting, choosing the
    city or searching: [FAILED] is never recorded. *)
Theorem preheat_outcome env config s :
  let out := preheat env config s in
  stop_pos (snd out) = stop_pos s /\
  last_report (snd out) = last_report s /\
  match fst out with
  | Ok _ =>
      current_phase (snd out) =
        (if truthy (keyword config) then SEARCHING_EVENT
         else if truthy (city config) then SELECTING_CITY
         else APPLYING_SETTINGS)
  | Raise _ =>
      current_phase (snd out) = CONNECTING \/
      current_phase (snd out) = SELECTING_CITY \/
      current_phase (snd out) = SEARCHING_EVENT
  | OutOfFuel => False
  end.
Proof.
  pose proof (preheat_spec env config (stop_pos s) (last_report s) s
                (conj eq_refl eq_refl)) as H.
  cbv zeta. destruct (preheat env config s) as [[[] | e |] s']; simpl.
  - destruct H as (Hph & Hn & Hr). auto.
  - destruct H as (Hph & Hn & Hr). auto.
  - destruct H.
Qed.

(* ------------------------------------------------------------------ *)
(** *** Stop requests and the scheduled start *)

(** Nothing has been asked of the driver since [s0]. *)
Definition driver_untouched (s0 s : State) : Prop :=
  trace s = trace s0 /\ _driver s = _driver s0.

Ltac untouched_frame :=
  intros; unfold driver_untouched, in_phase, transition, Top in *; simpl; auto;
  try match goal with
      | |- context [if ?b then _ else _] => destruct b; simpl; auto
      end.

Lemma begin_run_untouched env fuel start s b s0 :
  begin_run env fuel start s = (Ok b, s0) ->
  driver_untouched s s0 /\ (b = false -> in_phase INIT s0).
Proof.
  intro Hbegin. split.
  - apply (begin_run_spec env (driver_untouched s) ltac:(untouched_frame)
             ltac:(untouched_frame) ltac:(untouched_frame)
             ltac:(untouched_frame) (driver_untouched s)
             ltac:(untouched_frame)) in Hbegin;
      [| unfold driver_untouched; simpl; auto].
    destruct b; exact Hbegin.
  - intro Hb. subst b.
    apply (begin_run_spec env (in_phase INIT) ltac:(in_phase_frame)
             ltac:(in_phase_frame) ltac:(in_phase_frame)
             ltac:(in_phase_frame) Always ltac:(in_phase_frame)) in Hbegin;
      [exact Hbegin | reflexivity].
Qed.

(** X13: a run that finds the stop signal set at every reading does
    nothing to the driver: it returns [False] without issuing a single
    driver call, and the report, when there is one, counts no attempt
    and gives [USER_STOP] with the reason "流程被请求停止". *)
Theorem stopped_run_touches_nothing env config fuel max_retries start
  s b s' :
  (forall n, stop_signal env n = Returns true) ->
  run env config fuel max_retries start s = (Ok b, s') ->
  b = false /\ trace s' = trace s /\ _driver s' = _driver s /\
  forall r, last_report s' = Some r ->
    attempts (metrics r) = 0 /\ final_phase (metrics r) = INIT /\
    failure_code (metrics r) = Some USER_STOP /\
    failure_reason (metrics r) = Some "流程被请求停止".
Proof.
  intros Hstop Hrun. unfold run in Hrun.
  apply bind_Ok_inv in Hrun. destruct Hrun as (returned & s0 & Hbegin & Hrun).
  pose proof (begin_run_untouched _ _ _ _ _ _ Hbegin) as [Hsame Hinit].
  destruct returned.
  - inversion Hrun; subst b s'. destruct Hsame as (H1 & H2).
    repeat split; auto; apply begin_run_early in Hbegin; congruence.
  - cbv zeta in Hrun. apply bind_Ok_inv in Hrun.
    destruct Hrun as (v & s1 & Hloop & Hfinish).
    assert (Hstopped : forall st, _should_stop env st = (Ok true, tick_stop st)).
    { intro st. unfold _should_stop, catch, call_stop_signal.
      rewrite Hstop. reflexivity. }
    assert (Hexit : v = no_attempt_yet /\ s1 = tick_stop s0).
    { assert (Hlt : (0 <? Z.max 1 max_retries) = true)
        by (apply Z.ltb_lt; lia).
      destruct fuel; simpl in Hloop; unfold may_attempt in Hloop;
        simpl loc_attempts in Hloop; rewrite Hlt in Hloop;
        unfold bind in Hloop; rewrite Hstopped in Hloop; simpl in Hloop;
        inversion Hloop; auto. }
    destruct Hexit; subst v s1.
    apply finish_run_report in Hfinish.
    destruct Hfinish as (v' & s2 & Hfin & Hb & Hrep & _ & Hph & _ & Hdrv & Htr & _).
    assert (Hv' : v' = mkLocals 0 false (Some USER_STOP) (Some "流程被请求停止")).
    { revert Hfin. unfold finalize. simpl. unfold bind, get.
      destruct (phase_eqb _ STOPPED); [intro H; inversion H; reflexivity |].
      rewrite Hstopped. intro H; inversion H; reflexivity. }
    subst v'. destruct Hsame as (H1 & H2). simpl in *.
    split; [exact Hb |]. split; [congruence |]. split; [congruence |].
    intros r Hr. rewrite Hrep in Hr. inversion Hr; subst r. simpl.
    repeat split. apply Hinit. reflexivity.
Qed.

Lemma stopped_run_touches_nothing_witness :
  exists s',
    run env_stop_requested sample_config 3 3 None post_init = (Ok false, s') /\
    trace s' = [].
Proof.
  pose (out := run env_stop_requested sample_config 3 3 None post_init).
  assert (Hrun : run env_stop_requested sample_config 3 3 None post_init
                 = (Ok false, snd out)) by (vm_compute; reflexivity).
  exists (snd out). split; [exact Hrun |].
  apply (stopped_run_touches_nothing env_stop_requested sample_config 3 3
           None post_init false (snd out) (fun n => eq_refl) Hrun).
Defined.

(** The waiting time [w] was computed from a clock reading made since
    position [c0]. *)
Definition waiting_since (env : Env) (c0 : nat) (t w : Z) (s : State)
  : Prop :=
  exists k, (c0 <= k < clock_pos s)%nat /\ w = t - clock env k.

(** The clock has been seen to reach [t] at a reading made since
    position [c0]. *)
Definition reached (env : Env) (c0 : nat) (t : Z) (s : State) : Prop :=
  exists k, (c0 <= k < clock_pos s)%nat /\ t <= clock env k.

Lemma log_clock env lvl msg ctx s s' :
  _log env lvl msg ctx s = (Ok tt, s') -> clock_pos s' = S (clock_pos s).
Proof.
  destruct (log_returns env lvl msg ctx s) as (s1 & Hlog & _ & Hclock & _).
  rewrite Hlog. intro H. inversion H; subst s1. exact Hclock.
Qed.

Lemma wait_for_start_reaches env c0 t fuel :
  forall w s s',
    waiting_since env c0 t w s ->
    wait_for_start env fuel t w s = (Ok false, s') ->
    reached env c0 t s'.
Proof.
  induction fuel as [| fuel IH]; intros w s s' Hw Hrun; simpl in Hrun;
    destruct (0 <? w) eqn:Hpos; try discriminate;
    try (inversion Hrun; subst s'; destruct Hw as (k & Hk & Hw);
         exists k; split; [exact Hk |]; apply Z.ltb_ge in Hpos; lia).
  destruct (should_stop_returns env s) as (stop & s1 & Hstop & _ & Hclock).
  rewrite (bind_Ok_eq _ _ _ _ _ Hstop) in Hrun.
  destruct stop.
  - unfold bind in Hrun. rewrite mark_stopped_eq in Hrun. discriminate.
  - unfold sleep in Hrun. unfold bind at 1, ret at 1 in Hrun.
    unfold bind at 1, time_time at 1 in Hrun.
    apply (IH _ _ _) in Hrun; [exact Hrun |].
    destruct Hw as (k & Hk & _).
    exists (clock_pos s1). simpl. split; [lia | reflexivity].
Qed.

Lemma begin_run_reaches env fuel t s s0 :
  t <> 0 ->
  begin_run env fuel (Some t) s = (Ok false, s0) ->
  reached env (clock_pos s) t s0.
Proof.
  intros Ht Hrun. apply Z.eqb_neq in Ht. unfold begin_run in Hrun.
  apply bind_Ok_inv in Hrun. destruct Hrun as ([] & s1 & Hreset & Hrun).
  assert (Hc1 : clock_pos s1 = S (clock_pos s)).
  { cbv [reset_for_run bind modify time_time] in Hreset.
    inversion Hreset. reflexivity. }
  clear Hreset. unfold scheduled_wait in Hrun.
  apply bind_Ok_inv in Hrun. destruct Hrun as (future & s2 & Hfut & Hrun).
  unfold start_in_future in Hfut. rewrite Ht in Hfut.
  apply bind_Ok_inv in Hfut. destruct Hfut as (now & s3 & Hnow & Hfut).
  inversion Hnow; subst now s3; clear Hnow.
  destruct (clock env (clock_pos s1) <? t) eqn:Hlt;
    inversion Hfut; subst future s2; clear Hfut.
  - apply bind_Ok_inv in Hrun. destruct Hrun as (now & s3 & Hnow & Hrun).
    inversion Hnow; subst now s3; clear Hnow.
    apply bind_Ok_inv in Hrun. destruct Hrun as ([] & s4 & Hlog & Hrun).
    apply log_clock in Hlog. rename Hlog into Hclock4.
    simpl in Hclock4.
    apply bind_Ok_inv in Hrun. destruct Hrun as (returned & s5 & Hwait & Hrun).
    destruct returned; [inversion Hrun |].
    apply (wait_for_start_reaches env (clock_pos s)) in Hwait.
    + apply bind_Ok_inv in Hrun. destruct Hrun as ([] & s6 & Hlog' & Hrun).
      inversion Hrun; subst s0.
      apply log_clock in Hlog'.
      destruct Hwait as (k & Hk & Hreach). exists k. split; [lia | exact Hreach].
    + exists (S (clock_pos s1)). split; [simpl; lia | reflexivity].
  - inversion Hrun; subst s0. simpl.
    exists (clock_pos s1). split; [simpl; lia |]. apply Z.ltb_ge in Hlt. exact Hlt.
Qed.

Definition clock_past (k : nat) (s : State) : Prop := (k < clock_pos s)%nat.

Ltac clock_frame := intros; unfold clock_past, Top in *; simpl; auto; try lia.

Lemma attempt_loop_clock env config k max_retries fuel v s v' s' :
  at_loop_head max_retries v ->
  clock_past k s ->
  attempt_loop env config fuel max_retries v s = (Ok v', s') ->
  clock_past k s'.
Proof.
  intros Hv Hs Hloop.
  assert (Hlog : forall lvl msg ctx st,
             clock_past k st -> clock_past k (snd (_log env lvl msg ctx st))).
  { intros. eapply (keeps_snd _ Top); [| eassumption].
    apply keeps_log; clock_frame. }
  assert (Hclean : forall st,
             clock_past k st -> clock_past k (snd (_cleanup_driver env st))).
  { intros. eapply (keeps_snd _ Top); [| eassumption].
    apply (keeps_cleanup_driver env _ Top); clock_frame. }
  assert (Htrans : forall p st, clock_past k st -> clock_past k (transition p st)).
  { intros p st. unfold clock_past, transition.
    destruct (phase_eqb p (current_phase st)); simpl; auto. }
  apply (attempt_loop_spec env config (clock_past k) Top) with
    (Done := clock_past k) (Halted := clock_past k) in Hloop;
    auto; try solve [clock_frame].
  - destruct Hloop as [_ [(_ & _ & H) | [(_ & _ & _ & H & _) | (_ & H & _)]]];
      exact H.
  - intro skip. apply flow_steps_spec; auto; solve [clock_frame].
Qed.



(* ------------------------------------------------------------------ *)
(** *** The interaction primitives *)

Lemma ensure_not_stopped_trace env s :
  fst (_ensure_not_stopped env s) <> OutOfFuel /\
  trace (snd (_ensure_not_stopped env s)) = trace s.
Proof.
  unfold _ensure_not_stopped.
  destruct (should_stop_returns env s)
    as (stop & s1 & Hs & (_ & _ & _ & _ & _ & Htr & _) & _).
  rewrite (bind_Ok_eq _ _ _ _ _ Hs).
  destruct stop; simpl; split; auto; discriminate.
Qed.

Lemma log_trace env lvl msg ctx s :
  fst (_log env lvl msg ctx s) = Ok tt /\
  trace (snd (_log env lvl msg ctx s)) = trace s.
Proof.
  destruct (log_returns env lvl msg ctx s)
    as (s1 & Hlog & (_ & _ & _ & _ & _ & Htr & _) & _).
  rewrite Hlog. auto.
Qed.

(** The loop of [_navigate_to_homepage] presses the back key at most
    once per iteration. *)
Lemma press_back_bounded env n :
  forall s r s',
    press_back_until_home env n s = (r, s') ->
    r <> OutOfFuel /\
    (count is_back s <= count is_back s' <= count is_back s + n)%nat.
Proof.
  induction n as [| n IH]; intros s r s' Hrun; simpl in Hrun.
  - inversion Hrun; subst. split; [discriminate | lia].
  - unfold bind at 1 in Hrun.
    destruct (ensure_not_stopped_trace env s) as [Hfuel Htr].
    destruct (_ensure_not_stopped env s) as [[[] | e |] s1]; simpl in Htr;
      [| inversion Hrun; subst; unfold count; rewrite Htr;
         split; [discriminate | lia]
       | destruct Hfuel; reflexivity].
    unfold bind at 1, drv at 1 in Hrun.
    destruct (driver env (driver_pos s1) (PressKeycode 4)) as [v | e];
      [| inversion Hrun; subst; unfold count; simpl; rewrite Htr;
         split; [discriminate | lia]].
    unfold sleep at 1 in Hrun. unfold bind at 1, ret at 1 in Hrun.
    unfold bind at 1 in Hrun.
    match type of Hrun with context [catch ?m ?hd ?st] =>
      assert (Hhome : exists home s2,
                 catch m hd st = (Ok home, s2) /\
                 count is_back s2 = S (count is_back s))
    end.
    { unfold catch, bind, wait_until, drv.
      simpl driver_pos.
      destruct (driver env _ (WaitUntil _ _ _)) as [w | e].
      - match goal with |- context [_log env ?l ?m ?c ?st] =>
          destruct (log_trace env l m c st) as [Hl Hlt];
          destruct (_log env l m c st) as [r0 s2] end.
        simpl in Hl, Hlt. subst r0. unfold ret.
        eexists _, _. split; [reflexivity |].
        unfold count. rewrite Hlt. simpl. rewrite Htr. reflexivity.
      - eexists _, _. split; [reflexivity |].
        unfold count. simpl. rewrite Htr. reflexivity. }
    destruct Hhome as (home & s2 & Hhome & Hcount). rewrite Hhome in Hrun.
    destruct home.
    + inversion Hrun; subst. split; [discriminate | lia].
    + destruct (IH _ _ _ Hrun) as [Hf Hb]. split; [exact Hf | lia].
Qed.

(** X15: going back to the home page presses the back key at most five
    times and lets no driver error escape.  With a driver held,
    [_navigate_to_homepage] either returns, having pressed the back key
    between zero and five times, or raises the stop exception before it
    has asked anything of the driver. *)
Theorem navigate_home_bounded env s h :
  _driver s = Some h ->
  match _navigate_to_homepage env s with
  | (Ok _, s') =>
      (count is_back s <= count is_back s' <= count is_back s + 5)%nat
  | (Raise e, s') => is_TicketRunnerStopped e = true /\ trace s' = trace s
  | (OutOfFuel, _) => False
  end.
Proof.
  intro Hd.
  destruct (_navigate_to_homepage env s) as [r s'] eqn:Hrun.
  unfold _navigate_to_homepage in Hrun. unfold bind at 1 in Hrun.
  destruct (ensure_not_stopped_trace env s) as [Hfuel Htr].
  destruct (_ensure_not_stopped env s) as [[[] | e |] s1] eqn:Hstop;
    simpl in Htr; [| | destruct Hfuel; reflexivity].
  - assert (Hd1 : _driver s1 = Some h).
    { pose proof (keeps_snd (has_driver (Some h)) Top (_ensure_not_stopped env) s)
        as Hk.
      rewrite Hstop in Hk. apply Hk; [| exact Hd].
      apply keeps_ensure_not_stopped; driver_frame. }
    unfold bind at 1, _ensure_driver at 1, bind at 1, get at 1 in Hrun.
    rewrite Hd1 in Hrun. unfold ret at 1 in Hrun. unfold catch in Hrun.
    unfold bind at 1 in Hrun.
    match type of Hrun with context [_log env ?l ?m ?c ?st] =>
      destruct (log_trace env l m c st) as [Hl Hlt];
      destruct (_log env l m c st) as [r0 s2] end.
    simpl in Hl, Hlt. subst r0.
    assert (Hc : count is_back s2 = count is_back s)
      by (unfold count; rewrite Hlt, Htr; reflexivity).
    destruct (press_back_until_home env 5 s2) as [r1 s3] eqn:Hloop.
    destruct (press_back_bounded env 5 _ _ _ Hloop) as [Hf Hb].
    destruct r1 as [[] | e |].
    + inversion Hrun; subst. lia.
    + match type of Hrun with context [_log env ?l ?m ?c ?st] =>
        destruct (log_trace env l m c st) as [Hl' Hlt'];
        destruct (_log env l m c st) as [r2 s4] end.
      simpl in Hl', Hlt'. subst r2. inversion Hrun; subst.
      unfold count in *. rewrite Hlt'. lia.
    + destruct Hf; reflexivity.
  - inversion Hrun; subst. split; [| exact Htr].
    eapply ensure_not_stopped_raises. exact Hstop.
Qed.

Lemma navigate_home_bounded_witness :
  exists s',
    _navigate_to_homepage env_cooperative connected = (Ok tt, s') /\
    (count is_back s' <= 5)%nat.
Proof.
  pose proof (navigate_home_bounded env_cooperative connected 1%nat eq_refl)
    as H.
  destruct (_navigate_to_homepage env_cooperative connected)
    as [[[] | e |] s'] eqn:Hnav; try (vm_compute in Hnav; discriminate).
  exists s'. split; [reflexivity |].
  change (count is_back connected) with 0%nat in H. lia.
Defined.

(** The driver calls that end a successful [_smart_wait_and_click] on the
    selector [l]: the element was waited for and clicked, or the click
    failed and the centre of its rectangle was tapped instead. *)
Definition clicked_on (l : Locator) (t : Z) (tr : list DriverCall) : Prop :=
  (exists rest,
     tr = Click l :: WaitUntil visibility_of_element_located l t :: rest) \/
  (exists x y rest,
     tr = ClickGesture x y 50 :: GetRect l :: Click l
          :: WaitUntil visibility_of_element_located l t :: rest).

Lemma smart_click_first_outcome env t :
  forall sels s r s',
    smart_click_first env t sels s = (r, s') ->
    match r with
    | Ok true => exists l, In l sels /\ clicked_on l t (trace s')
    | Ok false =>
        (List.length (trace s) + List.length sels
         <= List.length (trace s'))%nat
    | Raise e => is_TicketRunnerStopped e = true
    | OutOfFuel => False
    end.
Proof.
  induction sels as [| l rest IH]; intros s r s' Hrun; simpl in Hrun.
  - inversion Hrun; subst. simpl. lia.
  - unfold bind at 1 in Hrun.
    destruct (ensure_not_stopped_trace env s) as [Hfuel Htr].
    destruct (_ensure_not_stopped env s) as [[[] | e |] s1] eqn:Hstop;
      simpl in Htr;
      [| inversion Hrun; subst; eapply ensure_not_stopped_raises; eauto
       | destruct Hfuel; reflexivity].
    assert (Hrest : forall s2,
               (List.length (trace s) < List.length (trace s2))%nat ->
               smart_click_first env t rest s2 = (r, s') ->
               match r with
               | Ok true =>
                   exists l0, In l0 (l :: rest) /\ clicked_on l0 t (trace s')
               | Ok false =>
                   (List.length (trace s) + List.length (l :: rest)
                    <= List.length (trace s'))%nat
               | Raise e => is_TicketRunnerStopped e = true
               | OutOfFuel => False
               end).
    { intros s2 Hlen H2. apply IH in H2. destruct r as [[|] | e |]; auto.
      - destruct H2 as (l0 & Hin & Hc). exists l0. split; [right |]; auto.
      - simpl. lia. }
    unfold catch, bind, wait_until, drv in Hrun.
    destruct (driver env (driver_pos s1) (WaitUntil _ l t)) as [w | e];
      [| eapply Hrest; [| exact Hrun]; simpl; rewrite Htr; lia].
    simpl driver_pos in Hrun.
    destruct (driver env _ (Click l)) as [c | e].
    + inversion Hrun; subst. exists l. split; [left; reflexivity |].
      left. eexists. reflexivity.
    + simpl driver_pos in Hrun.
      destruct (driver env _ (GetRect l)) as [rect | e'];
        [| eapply Hrest; [| exact Hrun]; simpl; rewrite Htr; lia].
      simpl driver_pos in Hrun.
      destruct (driver env _ (ClickGesture _ _ _)) as [g | e''];
        [| eapply Hrest; [| exact Hrun]; simpl; rewrite Htr; lia].
      inversion Hrun; subst. exists l. split; [left; reflexivity |].
      right. eexists _, _, _. reflexivity.
Qed.

(** X16: [_smart_wait_and_click] turns every driver failure into a
    result.  With a driver held it raises nothing but the stop
    exception; it returns [True] only right after a click on one of its
    selectors went through, directly or as a tap on the centre of the
    element; and it returns [False] only after it has asked the driver
    about every selector. *)
Theorem smart_click_outcome env sel backups t s h :
  _driver s = Some h ->
  match _smart_wait_and_click env sel backups t s with
  | (Ok true, s') =>
      exists l, In l (sel :: backups) /\ clicked_on l t (trace s')
  | (Ok false, s') =>
      (List.length (trace s) + S (List.length backups)
       <= List.length (trace s'))%nat
  | (Raise e, _) => is_TicketRunnerStopped e = true
  | (OutOfFuel, _) => False
  end.
Proof.
  intro Hd.
  destruct (_smart_wait_and_click env sel backups t s) as [r s'] eqn:Hrun.
  unfold _smart_wait_and_click, _ensure_driver in Hrun.
  unfold bind at 1 in Hrun. unfold bind at 1, get at 1 in Hrun.
  rewrite Hd in Hrun. unfold ret at 1 in Hrun.
  apply smart_click_first_outcome in Hrun.
  destruct r as [[|] | e |]; exact Hrun.
Qed.

Lemma smart_click_outcome_witness :
  exists s',
    _smart_wait_and_click env_no_dialog theme_dialog_confirm [] 1000 connected
    = (Ok false, s') /\
    (1 <= List.length (trace s'))%nat.
Proof.
  pose proof (smart_click_outcome env_no_dialog theme_dialog_confirm [] 1000
                connected 1%nat eq_refl) as H.
  destruct (_smart_wait_and_click env_no_dialog theme_dialog_confirm [] 1000
              connected) as [[[|] | e |] s'] eqn:Hrun;
    try (vm_compute in Hrun; discriminate).
  exists s'. split; [reflexivity |]. simpl in H. lia.
Defined.

(* ------------------------------------------------------------------ *)
(** *** Steps that report failure by their result *)

(** A step of the shape [_ensure_driver(); try: ... except Exception:
    return c] returns whenever a driver is held. *)
Lemma guarded_step_returns {A} (m : M A) (c : A) s h :
  _driver s = Some h ->
  fst ((_ensure_driver ;; catch m (fun _ => ret c)) s) <> OutOfFuel ->
  exists a s',
    (_ensure_driver ;; catch m (fun _ => ret c)) s = (Ok a, s') /\
    (forall e s1, m s = (Raise e, s1) -> a = c).
Proof.
  intros Hd.
  assert (Heq : (_ensure_driver ;; catch m (fun _ => ret c)) s
                = catch m (fun _ => ret c) s).
  { unfold _ensure_driver. unfold bind at 1. unfold bind at 1, get at 1.
    rewrite Hd. reflexivity. }
  rewrite Heq. clear Heq. unfold catch.
  destruct (m s) as [[a | e |] s1]; simpl; intro Hfuel.
  - exists a, s1. split; [reflexivity | discriminate].
  - exists c, s1. split; [reflexivity | auto].
  - destruct Hfuel; reflexivity.
Qed.

Lemma never_starved {A} (m : M A) s :
  keeps Always Top m -> fst (m s) <> OutOfFuel.
Proof.
  intros Hk H. specialize (Hk s I).
  destruct (m s) as [[a | e |] s1]; simpl in H; try discriminate. exact Hk.
Qed.

(** X17: tapping the purchase button, setting the quantity and
    confirming the purchase never raise once a driver is held: whatever
    the driver does inside them, they return, and a failure shows only
    in the result ([False], or [(False, "")] for the confirmation). *)
Theorem steps_absorb_failures env config s h :
  _driver s = Some h ->
  (exists b s', _tap_purchase_button env s = (Ok b, s')) /\
  (exists b s', _select_quantity env config s = (Ok b, s')) /\
  (exists r s', _confirm_purchase env s = (Ok r, s') /\
                (fst r = false -> snd r = "")).
Proof.
  intro Hd. split; [| split].
  - destruct (guarded_step_returns _ false s h Hd
                (never_starved _ s
                   (keeps_tap_purchase_button env Always Top
                      ltac:(always) ltac:(always) ltac:(always))))
      as (b & s' & H & _).
    exists b, s'. exact H.
  - destruct (guarded_step_returns _ false s h Hd
                (never_starved _ s
                   (keeps_select_quantity env config Always Top
                      ltac:(always) ltac:(always) ltac:(always))))
      as (b & s' & H & _).
    exists b, s'. exact H.
  - pose proof (never_starved _ s
                  (keeps_confirm_purchase env Always Top
                     ltac:(always) ltac:(always) ltac:(always))) as Hfuel.
    revert Hfuel. unfold _confirm_purchase.
    match goal with |- context [bind _ensure_driver ?k s] =>
      assert (Heq : bind _ensure_driver k s = k h s)
        by (unfold _ensure_driver; unfold bind at 1;
            unfold bind at 1, get at 1; rewrite Hd; reflexivity);
      rewrite Heq; clear Heq
    end.
    unfold catch, bind, wait_until, drv. simpl driver_pos.
    destruct (driver env _ (WaitUntil _ _ _)); simpl;
      [| intros _; eexists _, _; split; [reflexivity | reflexivity]].
    destruct (driver env _ (GetText _)); simpl;
      [| intros _; eexists _, _; split; [reflexivity | reflexivity]].
    destruct (driver env _ (Click _)); simpl;
      intros _; eexists _, _; (split; [reflexivity |]); simpl;
      [discriminate | reflexivity].
Qed.

Lemma steps_absorb_failures_witness :
  (exists b s', _tap_purchase_button env_unreachable connected = (Ok b, s')) /\
  (exists b s',
     _select_quantity env_unreachable sample_config connected = (Ok b, s')).
Proof.
  destruct (steps_absorb_failures env_unreachable sample_config connected
              1%nat eq_refl) as (H1 & H2 & _).
  split; assumption.
Defined.

(* ------------------------------------------------------------------ *)
(** *** The phases of a successful attempt *)

(** The phase history is [h] and the current phase is [c]. *)
Definition tracking (h : list RunnerPhase) (c : RunnerPhase) (s : State)
  : Prop :=
  phase_history s = h /\ current_phase s = c.

Ltac track_frame := intros; unfold tracking, Top in *; simpl; auto.

(** The phases the flow goes through after the session is ready. *)
Definition flow_phases (config : AppTicketConfig) (skip : bool)
  : list RunnerPhase :=
  ((if skip then []
    else if truthy (city config) then [SELECTING_CITY] else [])
   ++ (if truthy (keyword config) then [SEARCHING_EVENT] else [])
   ++ [TAPPING_PURCHASE; SELECTING_DATE; SELECTING_SESSION; SELECTING_PRICE;
       SELECTING_QUANTITY; CONFIRMING_PURCHASE; COMPLETED])%list.

(** The phases of one attempt, from connecting to completion. *)
Definition attempt_phases (config : AppTicketConfig) (skip : bool)
  : list RunnerPhase :=
  ((if skip then [] else [CONNECTING; APPLYING_SETTINGS])
   ++ flow_phases config skip)%list.

Lemma track_transition h c p X :
  triple (tracking h c) (_transition_to p)
    (fun _ => tracking (if phase_eqb p c then h else (h ++ [p])%list) p) X.
Proof.
  intros s [Hh Hc]. rewrite transition_to_eq. unfold transition.
  rewrite Hc. destruct (phase_eqb p c) eqn:Heq; simpl.
  - apply phase_eqb_eq in Heq. subst p. split; assumption.
  - unfold tracking. simpl. split; congruence.
Qed.

Lemma tracked {A} h c (m : M A) :
  keeps (tracking h c) Top m ->
  triple (tracking h c) m (fun _ => tracking h c) (fun _ _ => True).
Proof.
  intro Hm. eapply triple_conseq; [exact Hm | auto | auto | auto].
Qed.

Section Tracking.

Variable env : Env.
Variable config : AppTicketConfig.

Ltac track_leaf :=
  first
    [ apply keeps_ret
    | apply keeps_log; solve [track_frame]
    | apply keeps_ensure_not_stopped; solve [track_frame]
    | apply keeps_ensure_driver; solve [track_frame]
    | apply keeps_require; solve [track_frame]
    | apply (keeps_select_city env _ Top); solve [track_frame]
    | apply (keeps_search_event env _ Top); solve [track_frame]
    | apply (keeps_select_theme_dialog env _ Top); solve [track_frame]
    | apply (keeps_tap_purchase_button env _ Top); solve [track_frame]
    | apply (keeps_select_date env config _ Top); solve [track_frame]
    | apply (keeps_select_session env config _ Top); solve [track_frame]
    | apply (keeps_select_price env config _ Top); solve [track_frame]
    | apply (keeps_select_quantity env config _ Top); solve [track_frame]
    | apply (keeps_confirm_purchase env _ Top); solve [track_frame]
    | apply (keeps_apply_driver_settings env _ Top); solve [track_frame]
    | apply keeps_modify_driver; solve [track_frame] ].

Ltac track :=
  cbv beta;
  lazymatch goal with
  | |- triple (tracking ?h ?c) (bind (_transition_to ?p) _) _ _ =>
      eapply triple_bind;
      [apply (track_transition h c p)
      | intro; cbn [phase_eqb]; cbv beta iota]
  | |- triple _ (bind _ _) _ _ => eapply triple_bind; [| intro]
  | |- triple _ (if ?b then _ else _) _ _ => destruct b
  | |- triple _ _ _ _ => apply tracked; track_leaf
  end.

Ltac next_leaf := eapply triple_bind; [track | intro; cbv beta].

Ltac next_phase :=
  eapply triple_bind;
  [apply track_transition | intro; cbn [phase_eqb]; cbv beta iota].

Lemma flow_visits h c skip :
  c = INIT \/ c = FAILED \/ c = APPLYING_SETTINGS ->
  triple (tracking h c) (flow_steps env config skip)
    (fun b s =>
       tracking (h ++ flow_phases config skip)%list COMPLETED s /\ b = true)
    (fun _ _ => True).
Proof.
  intro Hc. unfold flow_steps, flow_phases.
  destruct skip, (truthy (city config)), (truthy (keyword config));
    cbn [negb]; cbv iota;
    destruct Hc as [Hc | [Hc | Hc]]; subst c;
    repeat track;
    apply triple_ret; intros s [Hh Hp];
    (split;
     [split; [rewrite Hh; repeat rewrite <- app_assoc; reflexivity | exact Hp]
     | reflexivity]).
Qed.


Lemma perform_visits h c skip :
  c = INIT \/ c = FAILED \/ c = APPLYING_SETTINGS ->
  triple (tracking h c) (_perform_ticket_flow env config skip)
    (fun b s =>
       tracking (h ++ flow_phases config skip)%list COMPLETED s /\ b = true)
    (fun _ _ => True).
Proof.
  intro Hc. unfold _perform_ticket_flow.
  eapply triple_catch; [apply flow_visits; exact Hc |].
  intros e s _. unfold bind.
  destruct (is_TicketRunnerStopped e);
    [rewrite mark_stopped_eq; exact I |].
  destruct (is_TicketRunnerError e); rewrite mark_failure_eq; exact I.
Qed.

Lemma cleanup_tracked (P : State -> Prop) :
  (forall s, P s -> P (with_driver None (tick_driver Quit s))) ->
  triple P (_cleanup_driver env) (fun _ => P) (fun _ _ => True).
Proof.
  intros HP s Hs. rewrite cleanup_driver_eq.
  destruct (_driver s); auto.
Qed.

(** A successful attempt appends the phases of one attempt to the
    history, in their fixed order. *)
Lemma execute_once_visits h c skip :
  c = INIT \/ c = FAILED ->
  triple (tracking h c) (_execute_once env config skip)
    (fun b s =>
       tracking (h ++ attempt_phases config skip)%list COMPLETED s /\
       b = true)
    (fun _ _ => True).
Proof.
  intro Hc. unfold _execute_once.
  eapply triple_finally
    with (Q1 := fun b s =>
                  tracking (h ++ attempt_phases config skip)%list COMPLETED s
                  /\ b = true)
         (X1 := fun _ _ => True).
  - unfold attempt_phases.
    destruct skip; cbn [negb]; cbv iota;
      destruct Hc as [Hc | Hc]; subst c.
    1, 2: next_leaf;
      (eapply triple_bind; [next_leaf; track | intro; cbv beta]);
      next_leaf;
      lazymatch goal with
      | |- triple (tracking ?h0 ?c0) _ _ _ =>
          eapply triple_conseq;
          [apply (perform_visits h0 c0); auto | auto | | auto]
      end;
      intros b s [[Hh Hp] Hb]; (split; [| exact Hb]); (split; [| exact Hp]);
      rewrite Hh; reflexivity.
    1, 2: next_leaf;
      (eapply triple_bind;
       [next_phase; next_leaf;
        (eapply triple_bind;
         [apply tracked; apply keeps_catch_all;
          [apply (keeps_create_driver env config _ Top); solve [track_frame]
          | intro; apply keeps_raise; exact I]
         | intro; cbv beta]);
        next_leaf; next_leaf; next_phase; track
       | intro; cbv beta]);
      next_leaf;
      lazymatch goal with
      | |- triple (tracking ?h0 ?c0) _ _ _ =>
          eapply triple_conseq;
          [apply (perform_visits h0 c0); auto | auto | | auto]
      end;
      intros b s [[Hh Hp] Hb]; (split; [| exact Hb]); (split; [| exact Hp]);
      rewrite Hh; repeat rewrite <- app_assoc; reflexivity.
  - intro b. destruct (negb skip).
    + apply cleanup_tracked. intros s [[Hh Hp] Hb]. repeat split; auto.
    + apply triple_ret. auto.
  - intro e. destruct (negb skip).
    + apply cleanup_tracked. auto.
    + apply triple_ret. auto.
Qed.

End Tracking.

(** [self._driver is not None], the test that decides whether an
    attempt skips connecting. *)
Definition preheated (s : State) : bool :=
  match _driver s with Some _ => true | None => false end.

Lemma try_attempt_visits env config c v s v' s' :
  c = INIT \/ c = FAILED ->
  in_phase c s ->
  loc_success v = false ->
  try_attempt env config v s = (Ok (Break, v'), s') ->
  loc_success v' = true ->
  phase_history s' = (phase_history s ++ attempt_phases config (preheated s))%list.
Proof.
  intros Hc Hph Hv. unfold try_attempt, catch.
  match goal with |- context [match ?body s with _ => _ end] =>
    destruct (body s) as [[r0 | exc |] s1] eqn:Hbody end.
  - intros H Hok. inversion H; subst r0 s1. clear H.
    apply bind_Ok_inv in Hbody. destruct Hbody as (d & s0 & Hget & Hbody).
    inversion Hget; subst d s0. clear Hget.
    apply bind_Ok_inv in Hbody. destruct Hbody as (ok & s2 & Hexec & Hbody).
    pose proof (triple_Ok _ _ _ _ _ _ _
                  (execute_once_visits env config (phase_history s) c _ Hc)
                  (conj eq_refl Hph) Hexec) as [[Hh _] Heq].
    subst ok. apply bind_Ok_inv in Hbody.
    destruct Hbody as ([] & s3 & Hlog & Hret). inversion Hret; subst s'.
    destruct (log_returns env SUCCESS "抢票流程执行完成"
                [("attempt", CInt (loc_attempts v))] s2)
      as (s4 & Hlog4 & (_ & Hhist & _) & _).
    rewrite Hlog4 in Hlog. inversion Hlog; subst s4.
    rewrite Hhist, Hh. reflexivity.
  - unfold bind. destruct (is_TicketRunnerStopped exc).
    + rewrite mark_stopped_eq.
      match goal with |- context [_log env ?l ?m ?c ?st] =>
        destruct (log_returns env l m c st) as (s2 & Hl & _); rewrite Hl
      end.
      intros H Hok. inversion H; subst v'. simpl in Hok. congruence.
    + destruct (is_TicketRunnerError exc); rewrite mark_failure_eq;
        match goal with |- context [_log env ?l ?m ?c ?st] =>
          destruct (log_returns env l m c st) as (s2 & Hl & _); rewrite Hl
        end; intro H; inversion H.
  - discriminate.
Qed.

Lemma may_attempt_same env m v s enter s1 :
  may_attempt env m v s = (Ok enter, s1) -> same_run s s1.
Proof.
  unfold may_attempt. destruct (loc_attempts v <? m).
  - destruct (should_stop_returns env s) as (stop & s2 & Hs & Hsame & _).
    rewrite (bind_Ok_eq _ _ _ _ _ Hs). intro H. inversion H; subst. exact Hsame.
  - intro H. inversion H; subst. unfold same_run. auto 10.
Qed.

Lemma head_phase v s :
  head_detail v s -> exists c, (c = INIT \/ c = FAILED) /\ in_phase c s.
Proof.
  intros [_ [(_ & _ & _ & H) | (_ & _ & _ & H)]]; eauto.
Qed.

(** The history at the end of a loop that succeeded: the phases of the
    last attempt, appended to the history [s3] had when it began. *)
Lemma attempt_loop_visits env config max_retries fuel :
  forall v s v' s',
    head_detail v s ->
    attempt_loop env config fuel max_retries v s = (Ok v', s') ->
    loc_success v' = true ->
    loc_attempts v < loc_attempts v' /\
    exists s3,
      phase_history s' =
        (phase_history s3 ++ attempt_phases config (preheated s3))%list /\
      (loc_attempts v' = loc_attempts v + 1 ->
       phase_history s3 = phase_history s /\ _driver s3 = _driver s).
Proof.
  induction fuel as [| fuel IH]; intros v s v' s' Hv Hrun Hok;
    simpl in Hrun; apply bind_Ok_inv in Hrun;
    destruct Hrun as (enter & s1 & Hmay & Hrun);
    pose proof (may_attempt_same _ _ _ _ _ _ Hmay)
      as (Hp1 & Hh1 & _ & _ & Hd1 & _);
    destruct enter; cbv beta iota in Hrun;
    try (inversion Hrun; subst v' s'; destruct Hv as [Hv _]; congruence);
    try discriminate.
  apply bind_Ok_inv in Hrun. destruct Hrun as ([ctl v1] & s2 & Hbegin & Hrun).
  unfold begin_attempt in Hbegin. apply bind_Ok_inv in Hbegin.
  destruct Hbegin as ([] & s3 & Hlog & Htry).
  match type of Hlog with _log env ?l ?m ?c ?st = _ =>
    destruct (log_returns env l m c st)
      as (s3' & Hlog' & (Hp3 & Hh3 & _ & _ & Hd3 & _) & _) end.
  rewrite Hlog' in Hlog. inversion Hlog; subst s3'. clear Hlog Hlog'.
  pose proof (try_attempt_detail _ _ _ _ _ _ Htry) as [Hn Hout].
  simpl in Hn, Hout.
  destruct (head_phase _ _ Hv) as (c & Hc & Hph).
  assert (Hph3 : in_phase c s3) by (unfold in_phase in *; congruence).
  destruct Hv as [Hsucc Hhead].
  destruct ctl.
  - inversion Hrun; subst v' s'. clear Hrun.
    split; [lia |]. exists s3. split.
    + eapply try_attempt_visits;
        [exact Hc | exact Hph3 | | exact Htry | exact Hok].
      exact Hsucc.
    + intros _. split; congruence.
  - destruct Hout as (Hsame & Hcode & Hmsg & Hfailed).
    apply bind_Ok_inv in Hrun. destruct Hrun as ([] & s4 & Hend & Hrun).
    destruct (IH v1 s4 v' s') as (Hlt & s5 & Hhist & _); auto.
    + split; [congruence |]. right.
      split; [destruct Hhead as [(H0 & _) | (H0 & _)]; lia |].
      split; [exact Hcode |]. split; [exact Hmsg |].
      eapply end_attempt_in_phase; eauto.
    + split; [lia |]. exists s5. split; [exact Hhist |]. intro; lia.
Qed.

(** X18: the phase history in the report of a successful run ends with
    the phases of one full attempt in their fixed order: connecting and
    applying the settings unless the attempt ran on a session that was
    already open, the city and the search when they are configured, then
    purchase, date, session, price, quantity, confirmation and
    [COMPLETED].  When the first attempt succeeded the history is
    exactly [INIT] followed by these phases.  [SELECTING_USERS] and
    [SUBMITTING_ORDER] are never among them. *)
Theorem successful_run_phases env config fuel max_retries start s s' r :
  run env config fuel max_retries start s = (Ok true, s') ->
  last_report s' = Some r ->
  exists earlier skip,
    report_phase_history r = (earlier ++ attempt_phases config skip)%list /\
    (attempts (metrics r) = 1 -> earlier = [INIT] /\ skip = preheated s) /\
    ~ In SELECTING_USERS (attempt_phases config skip) /\
    ~ In SUBMITTING_ORDER (attempt_phases config skip).
Proof.
  intros Hrun Hr.
  destruct (run_parts _ _ _ _ _ _ _ _ _ Hrun Hr)
    as (s0 & v & s1 & Hbegin & Hloop & Hfinish).
  pose proof (begin_run_untouched _ _ _ _ _ _ Hbegin) as [[_ Hdrv] Hinit].
  apply (begin_run_spec env (tracking [INIT] INIT) ltac:(track_frame)
           ltac:(track_frame) ltac:(track_frame) ltac:(track_frame)
           Always ltac:(always)) in Hbegin; [| split; reflexivity].
  destruct Hbegin as [Hh0 _].
  apply finish_run_report in Hfinish.
  destruct Hfinish as (v' & s2 & Hfin & Hb & Hrep & _).
  apply finalize_detail in Hfin. destruct Hfin as [Hsame Hnew].
  assert (Hok : loc_success v = true).
  { destruct (loc_success v) eqn:Hs; [reflexivity |].
    destruct (loc_failure_code v) eqn:Hc.
    - rewrite Hsame in Hb by (right; congruence). congruence.
    - destruct (Hnew eq_refl eq_refl) as (_ & Hs' & _). congruence. }
  rewrite (Hsame (or_introl Hok)) in Hrep.
  apply attempt_loop_visits in Hloop; [| | exact Hok].
  - destruct Hloop as (_ & s3 & Hhist & Hfirst).
    rewrite Hrep in Hr. inversion Hr; subst r. simpl.
    exists (phase_history s3), (preheated s3).
    split; [exact Hhist |]. split.
    + intro Hone. destruct Hfirst as [Hh3 Hd3]; [simpl; lia |].
      split; [congruence |]. unfold preheated. rewrite Hd3, Hdrv. reflexivity.
    + unfold attempt_phases, flow_phases.
      destruct (preheated s3), (truthy (city config)),
        (truthy (keyword config)); simpl; split; intro H;
        repeat (destruct H as [H | H]; [discriminate |]); exact H.
  - split; [reflexivity |]. left. simpl. repeat split; auto.
Qed.

Lemma successful_run_phases_witness :
  exists s' r,
    run env_cooperative sample_config 3 3 None post_init = (Ok true, s') /\
    last_report s' = Some r /\
    report_phase_history r =
      [INIT; CONNECTING; APPLYING_SETTINGS; SELECTING_CITY; SEARCHING_EVENT;
       TAPPING_PURCHASE; SELECTING_DATE; SELECTING_SESSION; SELECTING_PRICE;
       SELECTING_QUANTITY; CONFIRMING_PURCHASE; COMPLETED].
Proof.
  pose (out := run env_cooperative sample_config 3 3 None post_init).
  assert (Hrun : run env_cooperative sample_config 3 3 None post_init
                 = (Ok true, snd out)) by (vm_compute; reflexivity).
  destruct (last_report (snd out)) as [r |] eqn:Hr;
    [| vm_compute in Hr; discriminate].
  assert (Hone : attempts (metrics r) = 1)
    by (vm_compute in Hr; inversion Hr; reflexivity).
  exists (snd out), r. split; [exact Hrun |]. split; [exact Hr |].
  destruct (successful_run_phases env_cooperative sample_config 3 3 None
              post_init (snd out) r Hrun Hr)
    as (earlier & skip & Hhist & Hfirst & _).
  destruct (Hfirst Hone) as [He Hs]. subst earlier skip.
  rewrite Hhist. reflexivity.
Defined.

(* ------------------------------------------------------------------ *)
(** *** The session a run leaves behind *)

Lemma try_attempt_releases env config v s r s' :
  _driver s = None ->
  try_attempt env config v s = (Ok r, s') -> _driver s' = None.
Proof.
  intros Hd Htry.
  eapply (keeps_Ok (has_driver None) Top); [| exact Hd | exact Htry].
  apply try_attempt_keeps. intros s0 _.
  destruct (execute_once_releases env config s0) as (Hfuel & Hnone & _).
  destruct (_execute_once env config false s0) as [[ok | exc |] s1];
    simpl in *; [exact Hnone | split; [exact Hnone | exact I] |].
  destruct Hfuel; reflexivity.
Qed.

(** The loop either stops at once or counts at least one more attempt. *)
Lemma attempt_loop_counts env config max_retries fuel :
  forall v s v' s',
    attempt_loop env config fuel max_retries v s = (Ok v', s') ->
    v' = v \/ loc_attempts v < loc_attempts v'.
Proof.
  induction fuel as [| fuel IH]; intros v s v' s' Hrun;
    simpl in Hrun; apply bind_Ok_inv in Hrun;
    destruct Hrun as (enter & s1 & _ & Hrun);
    destruct enter; cbv beta iota in Hrun;
    try (inversion Hrun; subst; left; reflexivity); try discriminate.
  apply bind_Ok_inv in Hrun. destruct Hrun as ([ctl v1] & s2 & Hbegin & Hrun).
  unfold begin_attempt in Hbegin. apply bind_Ok_inv in Hbegin.
  destruct Hbegin as ([] & s3 & _ & Htry).
  apply try_attempt_detail in Htry. destruct Htry as [Hn _]. simpl in Hn.
  right. destruct ctl.
  - inversion Hrun; subst. lia.
  - apply bind_Ok_inv in Hrun. destruct Hrun as ([] & s4 & _ & Hrun).
    apply IH in Hrun. destruct Hrun as [Heq | Hlt]; [subst v'|]; lia.
Qed.

Lemma attempt_loop_session env config max_retries fuel v s v' s' :
  head_detail v s -> loc_attempts v = 0 -> _driver s = None ->
  attempt_loop env config fuel max_retries v s = (Ok v', s') ->
  _driver s' = None \/ 2 <= loc_attempts v' \/
  failed_code (loc_failure_code v').
Proof.
  intros Hv H0 Hd Hrun.
  destruct fuel as [| fuel]; simpl in Hrun; apply bind_Ok_inv in Hrun;
    destruct Hrun as (enter & s1 & Hmay & Hrun);
    pose proof (may_attempt_same _ _ _ _ _ _ Hmay)
      as (_ & _ & _ & _ & Hd1 & _);
    destruct enter; cbv beta iota in Hrun;
    try (inversion Hrun; subst v' s'; left; congruence); try discriminate.
  apply bind_Ok_inv in Hrun. destruct Hrun as ([ctl v1] & s2 & Hbegin & Hrun).
  unfold begin_attempt in Hbegin. apply bind_Ok_inv in Hbegin.
  destruct Hbegin as ([] & s3 & Hlog & Htry).
  match type of Hlog with _log env ?l ?m ?c ?st = _ =>
    destruct (log_returns env l m c st)
      as (s3' & Hlog' & (_ & _ & _ & _ & Hd3 & _) & _) end.
  rewrite Hlog' in Hlog. inversion Hlog; subst s3'. clear Hlog Hlog'.
  assert (Hd2 : _driver s2 = None)
    by (eapply try_attempt_releases; [| exact Htry]; congruence).
  apply try_attempt_detail in Htry. destruct Htry as [Hn Hout].
  simpl in Hn, Hout.
  destruct ctl.
  - inversion Hrun; subst v' s'. left. exact Hd2.
  - destruct Hout as (_ & Hcode & _).
    apply bind_Ok_inv in Hrun. destruct Hrun as ([] & s4 & _ & Hrun).
    apply attempt_loop_counts in Hrun. right.
    destruct Hrun as [Heq | Hlt]; [subst v'; right; exact Hcode | left; lia].
Qed.

(** X19: which runs can leave a session open.  A run that starts without
    a driver and stores a report holds no driver afterwards, unless it
    made a second attempt or its report carries the code of a failed
    attempt: the driver that the recovery between two attempts creates
    is used by the next attempt as if it were pre-heated, and [run]
    never closes it. *)
Theorem session_left_by_run env config fuel max_retries start s b s' r :
  _driver s = None ->
  run env config fuel max_retries start s = (Ok b, s') ->
  last_report s' = Some r ->
  _driver s' = None \/ 2 <= attempts (metrics r) \/
  failed_code (failure_code (metrics r)).
Proof.
  intros Hd Hrun Hr.
  destruct (run_parts _ _ _ _ _ _ _ _ _ Hrun Hr)
    as (s0 & v & s1 & Hbegin & Hloop & Hfinish).
  pose proof (begin_run_untouched _ _ _ _ _ _ Hbegin) as [[_ Hdrv] Hinit].
  apply attempt_loop_session in Hloop; try reflexivity; try congruence.
  - apply finish_run_report in Hfinish.
    destruct Hfinish as (v' & s2 & Hfin & _ & Hrep & _ & _ & _ & Hdrv' & _).
    rewrite Hrep in Hr. inversion Hr; subst r. simpl.
    apply finalize_detail in Hfin. destruct Hfin as [Hsame Hnew].
    destruct Hloop as [Hnone | [Htwo | Hcode]].
    + left. congruence.
    + right; left.
      destruct (loc_success v) eqn:Hs;
        [rewrite (Hsame (or_introl eq_refl)); exact Htwo |].
      destruct (loc_failure_code v) eqn:Hc.
      * rewrite Hsame by (right; congruence). exact Htwo.
      * destruct (Hnew eq_refl eq_refl) as (Hn & _). lia.
    + right; right.
      rewrite Hsame by (right; apply failed_code_set; exact Hcode).
      exact Hcode.
  - split; [reflexivity |]. left. simpl. repeat split; auto.
Qed.

Lemma session_left_by_run_witness :
  exists s' r h,
    run env_flaky sample_config 3 3 None post_init = (Ok true, s') /\
    last_report s' = Some r /\
    _driver s' = Some h /\
    (2 <= attempts (metrics r) \/ failed_code (failure_code (metrics r))).
Proof.
  pose (out := run env_flaky sample_config 3 3 None post_init).
  assert (Hrun : run env_flaky sample_config 3 3 None post_init
                 = (Ok true, snd out)) by (vm_compute; reflexivity).
  destruct (last_report (snd out)) as [r |] eqn:Hr;
    [| vm_compute in Hr; discriminate].
  destruct (_driver (snd out)) as [h |] eqn:Hd;
    [| vm_compute in Hd; discriminate].
  exists (snd out), r, h. split; [exact Hrun |]. split; [exact Hr |].
  split; [exact Hd |].
  destruct (session_left_by_run env_flaky sample_config 3 3 None post_init
              true (snd out) r eq_refl Hrun Hr) as [Hnone | Hretry];
    [congruence | exact Hretry].
Defined.
